(** * Scanner training data set builder: attempt reconstruction from app logs

    A shallow embedding of [tools/ai/build_scanner_training_dataset.py]
    and the properties of its log-to-attempt state machine.

    Conventions of the embedding:
    - a Python [str] is the list of its Unicode code points ([list N]), so that
      slicing, [strip] and the regular expressions act on characters and not on
      bytes;
    - a Python [int] is a [Z];
    - the [Dict[int, AttemptState]] of live attempts is a [gmap Z AttemptState];
      an in-place update of a state held by the dict is written as a re-insert;
    - an uncaught exception is the [Raise] branch of the result type [Exc];
    - the regular expressions are terms of a small regex syntax, run by a
      backtracking matcher with the greedy, leftmost-first discipline of [re]. *)

From Stdlib Require Import ZArith NArith String Ascii List Lia Bool DecimalString.
From stdpp Require Import base option list gmap.

Local Open Scope N_scope.

(** ** Strings *)

Abbreviation str := (list N).

(** Decoder of the UTF-8 bytes of a literal of this file into code points. *)
Fixpoint utf8 (bs : list N) : str :=
  match bs with
  | [] => []
  | b0 :: r0 =>
    if b0 <? 128 then b0 :: utf8 r0
    else match r0 with
         | [] => []
         | b1 :: r1 =>
           if b0 <? 224 then ((b0 - 192) * 64 + (b1 - 128)) :: utf8 r1
           else match r1 with
                | [] => []
                | b2 :: r2 =>
                  if b0 <? 240
                  then ((b0 - 224) * 4096 + (b1 - 128) * 64 + (b2 - 128)) :: utf8 r2
                  else match r2 with
                       | [] => []
                       | b3 :: r3 =>
                         ((b0 - 240) * 262144 + (b1 - 128) * 4096
                          + (b2 - 128) * 64 + (b3 - 128)) :: utf8 r3
                       end
                end
         end
  end.

(** [u "text"] is the Python literal ["text"]. *)
Definition u (s : string) : str :=
  utf8 (map N_of_ascii (list_ascii_of_string s)).

Definition NL : N := 10.

(** [a == b] on strings. *)
Definition str_eqb (a b : str) : bool := bool_decide (a = b).

(** [needle in hay]. *)
Fixpoint starts_with (p s : str) : bool :=
  match p, s with
  | [], _ => true
  | a :: p', b :: s' => (a =? b) && starts_with p' s'
  | _ :: _, [] => false
  end.

Fixpoint contains (needle hay : str) : bool :=
  starts_with needle hay ||
  match hay with
  | [] => false
  | _ :: hay' => contains needle hay'
  end.

(** *** Character tables of the interpreter *)

(** [Py_UNICODE_ISSPACE]: the characters of [str.isspace], which are also the
    ones [\s] matches in a [str] pattern and the ones [str.strip()] removes. *)
Definition is_space (c : N) : bool :=
  ((9 <=? c) && (c <=? 13)) || ((28 <=? c) && (c <=? 32))
  || (c =? 133) || (c =? 160) || (c =? 5760)
  || ((8192 <=? c) && (c <=? 8202))
  || (c =? 8232) || (c =? 8233) || (c =? 8239) || (c =? 8287) || (c =? 12288).

(** [Py_UNICODE_ISDECIMAL] (general category Nd), what [\d] matches in a [str]
    pattern and what [int] reads as a digit: each entry is the code point of a
    digit zero, followed in the table by its digits one to nine
    (Unicode 14.0, the table of CPython 3.11). *)
Definition decimal_zeros : list N :=
  [48; 1632; 1776; 1984; 2406; 2534; 2662; 2790; 2918; 3046; 3174; 3302; 3430;
   3558; 3664; 3792; 3872; 4160; 4240; 6112; 6160; 6470; 6608; 6784; 6800;
   6992; 7088; 7232; 7248; 42528; 43216; 43264; 43472; 43504; 43600; 44016;
   65296; 66720; 68912; 69734; 69872; 69942; 70096; 70384; 70736; 70864;
   71248; 71360; 71472; 71904; 72016; 72784; 73040; 73120; 92768; 92864;
   93008; 120782; 120792; 120802; 120812; 120822; 123200; 123632; 125264;
   130032].

Definition decimal_value (c : N) : option N :=
  (λ z, c - z) <$> find (λ z, (z <=? c) && (c <? z + 10)) decimal_zeros.

Definition is_decimal (c : N) : bool := bool_decide (is_Some (decimal_value c)).

(** [str.lower] follows the case tables of the interpreter, with context
    rules (final sigma) and one-to-many mappings; it is taken as given. *)
Class StrLower := str_lower : str → str.

(** On ASCII text [str.lower] is the usual map of [A-Z] to [a-z]. *)
Definition ascii_lower_char (c : N) : N :=
  if (65 <=? c) && (c <=? 90) then c + 32 else c.

Definition ascii_lower : StrLower := map ascii_lower_char.

(** [s.strip()] and [s.strip(chars)]. *)
Fixpoint lstrip_by (p : N → bool) (s : str) : str :=
  match s with
  | c :: s' => if p c then lstrip_by p s' else s
  | [] => []
  end.

Definition rstrip_by (p : N → bool) (s : str) : str :=
  reverse (lstrip_by p (reverse s)).

Definition strip_by (p : N → bool) (s : str) : str :=
  rstrip_by p (lstrip_by p s).

Definition strip (s : str) : str := strip_by is_space s.

Definition strip_chars (chars s : str) : str :=
  strip_by (λ c, bool_decide (c ∈ chars)) s.

(** ** Exceptions *)

Inductive exn := ValueError.

Inductive Exc (A : Type) :=
| Ok (a : A)
| Raise (e : exn).
Arguments Ok {A} a.
Arguments Raise {A} e.

#[global] Instance Exc_ret : MRet Exc := λ A a, Ok a.
#[global] Instance Exc_bind : MBind Exc := λ A B f m,
  match m with
  | Ok a => f a
  | Raise e => Raise e
  end.

(** ** [int(text)] on the digit groups of the patterns

    [int] reads the decimal digits of every script. Since CPython 3.11 (and
    the security releases 3.7.14, 3.8.14, 3.9.14, 3.10.7) it raises
    [ValueError] when the text has more than [sys.get_int_max_str_digits()]
    digits, 4300 unless reconfigured; leading zeros count. The program calls
    [int] on [\d+] groups only, so sign, blanks and underscores, which [int]
    also reads, do not occur and count as invalid here. *)
Definition int_max_str_digits : nat := 4300.

Definition digits_value (ds : list N) : Z :=
  foldl (λ acc d, 10 * acc + Z.of_N d)%Z 0%Z ds.

Definition py_int (s : str) : Exc Z :=
  match mapM decimal_value s with
  | Some (d :: ds) =>
    if bool_decide (int_max_str_digits < length s)%nat then Raise ValueError
    else Ok (digits_value (d :: ds))
  | _ => Raise ValueError
  end.

(** ** Regular expressions *)

(** The fragment of [re] syntax the program uses: one-character classes,
    concatenation, ordered alternation, greedy repetition of a class,
    numbered capturing groups, and the anchors [^] and [$]. *)
Inductive regex :=
| Eps
| Chr (p : N → bool)
| Seq (r1 r2 : regex)
| Alt (r1 r2 : regex)
| Star (p : N → bool)
| Group (n : nat) (r : regex)
| Bol
| Eol.

Definition Plus (p : N → bool) : regex := Seq (Chr p) (Star p).

Definition Lit (s : str) : regex := foldr (λ c r, Seq (Chr (N.eqb c)) r) Eps s.

Definition Seqs (rs : list regex) : regex := foldr Seq Eps rs.

(** Captured groups, most recent first. *)
Abbreviation caps := (list (nat * str)).

Definition group (n : nat) (cs : caps) : str :=
  default [] (snd <$> find (λ g, bool_decide (fst g = n)) cs).

(** Greedy [c*]: the longest run first, then one less on failure of the
    continuation [k]. [i] is the offset of [s] in the subject. *)
Fixpoint star {R} (p : N → bool) (i : nat) (s : str)
    (k : nat → str → option R) : option R :=
  match s with
  | c :: s' =>
    if p c then
      match star p (S i) s' k with
      | Some x => Some x
      | None => k i s
      end
    else k i s
  | [] => k i s
  end.

(** Backtracking matcher in continuation-passing style. *)
Fixpoint rmatch {R} (r : regex) (i : nat) (s : str) (cs : caps)
    (k : nat → str → caps → option R) : option R :=
  match r with
  | Eps => k i s cs
  | Chr p =>
    match s with
    | c :: s' => if p c then k (S i) s' cs else None
    | [] => None
    end
  | Seq r1 r2 => rmatch r1 i s cs (λ i' s' cs', rmatch r2 i' s' cs' k)
  | Alt r1 r2 =>
    match rmatch r1 i s cs k with
    | Some x => Some x
    | None => rmatch r2 i s cs k
    end
  | Star p => star p i s (λ i' s', k i' s' cs)
  | Group n r =>
    rmatch r i s cs (λ i' s' cs', k i' s' ((n, take (i' - i) s) :: cs'))
  | Bol => if bool_decide (i = 0%nat) then k i s cs else None
  | Eol =>
    match s with
    | [] => k i s cs
    | [c] => if c =? NL then k i s cs else None
    | _ => None
    end
  end.

(** [pattern.match(text)]: a match at offset 0; the result is the groups. *)
Definition re_match (r : regex) (s : str) : option caps :=
  rmatch r 0 s [] (λ _ _ cs, Some cs).

(** [pattern.search(text)]: the match at the leftmost offset that has one. *)
Fixpoint search_from (r : regex) (i : nat) (s : str) : option caps :=
  match rmatch r i s [] (λ _ _ cs, Some cs) with
  | Some cs => Some cs
  | None =>
    match s with
    | [] => None
    | _ :: s' => search_from r (S i) s'
    end
  end.

Definition re_search (r : regex) (s : str) : option caps := search_from r 0 s.

(** [re.sub(pattern, repl, text)] for a literal replacement: matches are
    replaced from left to right; after an empty match one character is copied.
    [fuel] bounds the number of offsets visited. *)
Fixpoint sub_from (fuel : nat) (r : regex) (repl : str) (i : nat) (s : str) : str :=
  match fuel with
  | O => s
  | S fuel' =>
    match rmatch r i s [] (λ i' s' _, Some (i', s')) with
    | Some (i', s') =>
      if bool_decide (i' = i) then
        match s with
        | [] => repl
        | c :: s'' => repl ++ c :: sub_from fuel' r repl (S i) s''
        end
      else repl ++ sub_from fuel' r repl i' s'
    | None =>
      match s with
      | [] => []
      | c :: s'' => c :: sub_from fuel' r repl (S i) s''
      end
    end
  end.

Definition re_sub (r : regex) (repl s : str) : str :=
  sub_from (S (length s)) r repl 0 s.

(** *** Character classes and the patterns of the program *)

Definition in_range (lo hi : string) (c : N) : bool :=
  match u lo, u hi with
  | [a], [b] => (a <=? c) && (c <=? b)
  | _, _ => false
  end.

Definition is_char (ch : string) (c : N) : bool := bool_decide (u ch = [c]).

(** [[a-zA-Z0-9_]] *)
Definition cls_word (c : N) : bool :=
  in_range "a" "z" c || in_range "A" "Z" c || in_range "0" "9" c || is_char "_" c.

(** [[^|]] *)
Definition cls_not_bar (c : N) : bool := negb (is_char "|" c).

(** [.] (without DOTALL) *)
Definition cls_dot (c : N) : bool := negb (c =? NL).

(** [[^,|]] *)
Definition cls_not_comma_bar (c : N) : bool := negb (is_char "," c || is_char "|" c).

(** [[A-Z_]] *)
Definition cls_upper (c : N) : bool := in_range "A" "Z" c || is_char "_" c.

(** [[a-zA-Z0-9_\\-]] : in the raw pattern the class holds a backslash too. *)
Definition cls_preset (c : N) : bool :=
  in_range "a" "z" c || in_range "A" "Z" c || in_range "0" "9" c
  || is_char "_" c || (c =? 92) || is_char "-" c.

(** The line pattern, its parts set apart by blanks as under [re.VERBOSE]:
    "^ \s* (?P<ts>\d+) \s* \| \s* (?P<status>[a-zA-Z0-9_]+) \s* \| \s*
     playlist= (?P<playlist>[^|]* ) \| \s* (?P<msg>.* ) $"
    with the groups ts, status, playlist and msg numbered 1 to 4. *)
Definition LINE_RE : regex :=
  Seqs [Bol; Star is_space; Group 1 (Plus is_decimal); Star is_space;
        Lit (u "|"); Star is_space; Group 2 (Plus cls_word); Star is_space;
        Lit (u "|"); Star is_space; Lit (u "playlist=");
        Group 3 (Star cls_not_bar); Lit (u "|"); Star is_space;
        Group 4 (Star cls_dot); Eol].

(** "attempt=(\d+)" *)
Definition ATTEMPT_RE : regex := Seqs [Lit (u "attempt="); Group 1 (Plus is_decimal)].

(** "query=([^,|]+)" *)
Definition QUERY_RE : regex := Seqs [Lit (u "query="); Group 1 (Plus cls_not_comma_bar)].

(** "provider=([A-Z_]+)" *)
Definition PROVIDER_RE : regex := Seqs [Lit (u "provider="); Group 1 (Plus cls_upper)].

(** "mode=([A-Z_]+)" *)
Definition MODE_RE : regex := Seqs [Lit (u "mode="); Group 1 (Plus cls_upper)].

(** "preset=([a-zA-Z0-9_\\-]+)" *)
Definition PRESET_RE : regex := Seqs [Lit (u "preset="); Group 1 (Plus cls_preset)].

(** "(?:results=|Найдено\s+)(\d+)" *)
Definition FOUND_RE : regex :=
  Seqs [Alt (Lit (u "results=")) (Seq (Lit (u "Найдено")) (Plus is_space));
        Group 1 (Plus is_decimal)].

(** "\s+", the pattern of [normalize_query]. *)
Definition SPACES_RE : regex := Plus is_space.

(** ** The program *)

Local Open Scope Z_scope.

Record AttemptState := mkAttemptState {
  attempt_id : Z;
  started_at : Z;
  query : str;
  provider : str;
  mode : str;
  preset : str;
  found : Z;
  errors : list str;
  statuses : list str;
  raw_messages : list str
}.

(** The dict literal appended to [emitted], one field per key. *)
Record Row := mkRow {
  row_attempt : Z;
  row_started_at : Z;
  row_finished_at : Z;
  row_query : str;
  row_provider : str;
  row_mode : str;
  row_preset : str;
  row_found : Z;
  row_label : str;
  row_error_type : str;
  row_error : str;
  row_statuses : list str
}.

Definition parse_attempt_id (message : str) : Exc (option Z) :=
  match re_search ATTEMPT_RE message with
  | None => Ok None
  | Some m => n ← py_int (group 1 m); Ok (Some n)
  end.

Definition classify_error `{StrLower} (message : str) : str :=
  let lowered := str_lower message in
  if contains (u "unknownhostexception") lowered
     || contains (u "unable to resolve host") lowered then u "dns"
  else if contains (u "timeout") lowered || contains (u "timed out") lowered
  then u "timeout"
  else if contains (u "http 429") lowered || contains (u "rate") lowered
  then u "rate_limit"
  else if contains (u "http 403") lowered then u "http_forbidden"
  else if contains (u "http 401") lowered then u "http_unauthorized"
  else if contains (u "ssl") lowered then u "tls_ssl"
  else if contains (u "network io") lowered then u "network_io"
  else u "other".

Definition extract_first (pattern : regex) (text default : str) : str :=
  match re_search pattern text with
  | None => default
  | Some m => strip (group 1 m)
  end.

(** The [ValueError] of [int] is caught here, and only here. *)
Definition parse_found_count (message : str) : Z :=
  match re_search FOUND_RE message with
  | None => 0
  | Some m =>
    match py_int (group 1 m) with
    | Ok n => n
    | Raise ValueError => 0
    end
  end.

Definition normalize_query (raw : str) : str :=
  strip_chars (u " ,.;") (re_sub SPACES_RE (u " ") (strip raw)).

(** The status sets tested by membership in the loop of [parse_lines]. *)
Definition success_statuses : list str :=
  [u "scanner_ok"; u "scanner_finish"; u "scanner_step_ok"].

Definition error_statuses : list str :=
  [u "scanner_error"; u "scanner_fatal"; u "scanner_step_error";
   u "scanner_provider_error"; u "scanner_provider_timeout";
   u "scanner_fail_fast"; u "scanner_timeout"].

Definition status_in (status : str) (set : list str) : bool :=
  bool_decide (status ∈ set).

(** The local variables [attempts] and [emitted] of [parse_lines]. *)
Record Loop := mkLoop {
  attempts : gmap Z AttemptState;
  emitted : list Row
}.

(** The branch of the loop body for a [scanner_start] line. *)
Definition open_attempt (ts : Z) (status msg : str) (attempt_id : Z) : AttemptState :=
  {| attempt_id := attempt_id;
     started_at := ts;
     query := normalize_query (extract_first QUERY_RE msg []);
     provider := extract_first PROVIDER_RE msg (u "ALL");
     mode := extract_first MODE_RE msg (u "AUTO");
     preset := extract_first PRESET_RE msg (u "-");
     found := 0;
     errors := [];
     statuses := [status];
     raw_messages := [msg] |}.

(** The updates of [state] for a line of a live attempt: the two appends,
    then the two membership tests. *)
Definition record_event (status msg : str) (state : AttemptState) : AttemptState :=
  let found' :=
    if status_in status success_statuses
    then Z.max (found state) (parse_found_count msg) else found state in
  let errors' :=
    if status_in status error_statuses
    then errors state ++ [msg] else errors state in
  {| attempt_id := attempt_id state;
     started_at := started_at state;
     query := query state;
     provider := provider state;
     mode := mode state;
     preset := preset state;
     found := found';
     errors := errors';
     statuses := statuses state ++ [status];
     raw_messages := raw_messages state ++ [msg] |}.

(** The dict built when the line is a [scanner_finish]. Its "statuses" is the
    very list of the state; the state is popped from [attempts] right after,
    so no later append can reach the list, and a copy models it. *)
Definition close_attempt `{StrLower} (ts : Z) (state : AttemptState) : Row :=
  let label :=
    if bool_decide (found state > 0) then u "success"
    else match errors state with
         | _ :: _ => u "failed"
         | [] => u "empty"
         end in
  let primary_error := default [] (last (errors state)) in
  let error_type :=
    match primary_error with
    | _ :: _ => classify_error primary_error
    | [] => []
    end in
  {| row_attempt := attempt_id state;
     row_started_at := started_at state;
     row_finished_at := ts;
     row_query := query state;
     row_provider := provider state;
     row_mode := mode state;
     row_preset := preset state;
     row_found := found state;
     row_label := label;
     row_error_type := error_type;
     row_error := take 1000 primary_error;
     row_statuses := statuses state |}.

(** What the loop body does once the line is decoded. *)
Definition handle_event `{StrLower} (st : Loop) (ts : Z) (status msg : str)
    (attempt_id : option Z) : Loop :=
  if str_eqb status (u "scanner_start") then
    match attempt_id with
    | None => st
    | Some id =>
      {| attempts := <[id := open_attempt ts status msg id]> (attempts st);
         emitted := emitted st |}
    end
  else
    match attempt_id with
    | None => st
    | Some id =>
      match attempts st !! id with
      | None => st
      | Some state =>
        let state := record_event status msg state in
        if str_eqb status (u "scanner_finish") then
          {| attempts := delete id (attempts st);
             emitted := emitted st ++ [close_attempt ts state] |}
        else
          {| attempts := <[id := state]> (attempts st);
             emitted := emitted st |}
      end
    end.

(** One iteration of [for line in lines]. *)
Definition loop_body `{StrLower} (st : Loop) (line : str) : Exc Loop :=
  match re_match LINE_RE line with
  | None => Ok st
  | Some m =>
    ts ← py_int (group 1 m);
    let status := strip (group 2 m) in
    let msg := strip (group 4 m) in
    attempt_id ← parse_attempt_id msg;
    Ok (handle_event st ts status msg attempt_id)
  end.

Fixpoint for_each {S A} (body : S → A → Exc S) (st : S) (xs : list A) : Exc S :=
  match xs with
  | [] => Ok st
  | x :: xs' => st' ← body st x; for_each body st' xs'
  end.

Definition parse_lines `{StrLower} (lines : list str) : Exc (list Row) :=
  st ← for_each loop_body {| attempts := ∅; emitted := [] |} lines;
  Ok (emitted st).

(** *** The report *)

(** [str(n)] and the [{n}] of an f-string, for an [int]. *)
Definition repr_int (n : Z) : str := u (NilEmpty.string_of_int (Z.to_int n)).

(** [sep.join(parts)]. *)
Fixpoint join (sep : str) (parts : list str) : str :=
  match parts with
  | [] => []
  | [p] => p
  | p :: rest => p ++ sep ++ join sep rest
  end.

(** [collections.Counter]: the keys in the order of their first occurrence,
    each with its count. *)
Fixpoint counter_incr (key : str) (c : list (str * nat)) : list (str * nat) :=
  match c with
  | [] => [(key, 1%nat)]
  | (k, n) :: c' =>
    if str_eqb k key then (k, S n) :: c' else (k, n) :: counter_incr key c'
  end.

Definition Counter (keys : list str) : list (str * nat) :=
  foldl (λ c key, counter_incr key c) [] keys.

(** [sorted(items, key=itemgetter(1), reverse=True)]: the sort is stable, so
    equal counts stay in the order of the counter. *)
Fixpoint insert_by_count (x : str * nat) (sorted : list (str * nat)) : list (str * nat) :=
  match sorted with
  | [] => [x]
  | y :: sorted' =>
    if (snd y <=? snd x)%nat then x :: sorted
    else y :: insert_by_count x sorted'
  end.

Definition most_common_all (c : list (str * nat)) : list (str * nat) :=
  foldr insert_by_count [] c.

(** [Counter.most_common(n)] is [heapq.nlargest(n, items, key=itemgetter(1))],
    the first [n] of the same sorted list. *)
Definition most_common (n : nat) (c : list (str * nat)) : list (str * nat) :=
  take n (most_common_all c).

(** The line of one counter item in the report. *)
Definition item_line (item : str * nat) : str :=
  u "- `" ++ fst item ++ u "`: " ++ repr_int (Z.of_nat (snd item)).

Definition nonempty (s : str) : bool :=
  match s with
  | [] => false
  | _ :: _ => true
  end.

Definition with_label (label : str) (entries : list Row) : list Row :=
  filter (λ x, row_label x = label) entries.

Definition build_summary (entries : list Row) : str :=
  match entries with
  | [] =>
    u "# AI training summary" ++ [NL; NL]
    ++ u "Нет завершённых попыток scanner_finish в логе." ++ [NL]
  | _ :: _ =>
    let total := length entries in
    let successes := with_label (u "success") entries in
    let failures := with_label (u "failed") entries in
    let empties := with_label (u "empty") entries in
    let success_queries :=
      Counter (filter (λ q, nonempty q = true) (row_query <$> successes)) in
    let fail_types :=
      Counter (filter (λ t, nonempty t = true) (row_error_type <$> failures)) in
    let providers := Counter (row_provider <$> entries) in
    let modes := Counter (row_mode <$> entries) in
    let lines :=
      [u "# AI training summary";
       [];
       u "- Всего попыток: " ++ repr_int (Z.of_nat total);
       u "- Успешных (found>0): " ++ repr_int (Z.of_nat (length successes));
       u "- Пустых (found=0, без явной ошибки): "
         ++ repr_int (Z.of_nat (length empties));
       u "- Ошибок: " ++ repr_int (Z.of_nat (length failures));
       [];
       u "## Топ успешных запросов"]
      ++ match success_queries with
         | _ :: _ => item_line <$> most_common 10 success_queries
         | [] => [u "- нет данных"]
         end
      ++ [[]; u "## Частые причины ошибок"]
      ++ match fail_types with
         | _ :: _ => item_line <$> most_common 10 fail_types
         | [] => [u "- нет данных"]
         end
      ++ [[]; u "## Распределение по provider"]
      ++ (item_line <$> most_common_all providers)
      ++ [[]; u "## Распределение по mode"]
      ++ (item_line <$> most_common_all modes)
      ++ [[];
          u "## Рекомендация по обучению";
          u "- Используйте только запросы с `label=success` для пополнения шаблонов `LocalAiQueryAssistant`.";
          u "- Для `dns/timeout` не обучайте AI-формулировки, сначала исправьте сеть/DNS/прокси.";
          u "- Новые AI-варианты добавляйте партиями по 3-5 и проверяйте успех до/после."] in
    join [NL] lines ++ [NL]
  end.

(** *** The export *)

Definition hex_digit (d : N) : N := (if d <? 10 then 48 + d else 87 + d)%N.

(** [json.dumps(text, ensure_ascii=False)]: quote, backslash and the control
    characters are escaped, every other character is kept. *)
Definition json_escape (c : N) : str :=
  (if c =? 34 then [92; 34]
   else if c =? 92 then [92; 92]
   else if c =? 8 then [92; 98]
   else if c =? 12 then [92; 102]
   else if c =? 10 then [92; 110]
   else if c =? 13 then [92; 114]
   else if c =? 9 then [92; 116]
   else if c <? 32 then [92; 117; 48; 48; hex_digit (c / 16); hex_digit (c mod 16)]
   else [c])%N.

Definition json_str (s : str) : str := [34%N] ++ (s ≫= json_escape) ++ [34%N].

Definition json_member (key value : str) : str := json_str key ++ u ": " ++ value.

(** [json.dumps(row, ensure_ascii=False)], the keys in the order of the dict. *)
Definition json_dumps (row : Row) : str :=
  u "{"
  ++ join (u ", ")
       [json_member (u "attempt") (repr_int (row_attempt row));
        json_member (u "started_at") (repr_int (row_started_at row));
        json_member (u "finished_at") (repr_int (row_finished_at row));
        json_member (u "query") (json_str (row_query row));
        json_member (u "provider") (json_str (row_provider row));
        json_member (u "mode") (json_str (row_mode row));
        json_member (u "preset") (json_str (row_preset row));
        json_member (u "found") (repr_int (row_found row));
        json_member (u "label") (json_str (row_label row));
        json_member (u "error_type") (json_str (row_error_type row));
        json_member (u "error") (json_str (row_error row));
        json_member (u "statuses")
          (u "[" ++ join (u ", ") (json_str <$> row_statuses row) ++ u "]")]
  ++ u "}".

(** What [main] writes to the JSONL file, one element per [f.write]. *)
Definition export_lines (entries : list Row) : list str :=
  (λ row, json_dumps row ++ [NL]) <$> entries.

(** The two artifacts [main] writes for the lines it has read: the lines of
    the JSONL file and the text of the summary. *)
Definition main_outputs `{StrLower} (lines : list str) : Exc (list str * str) :=
  entries ← parse_lines lines;
  Ok (export_lines entries, build_summary entries).

(** ** Vocabulary of the properties *)

(** *** Decoded events *)

(** What one iteration knows of a line that matches [LINE_RE]: the locals
    [ts], [status], [msg] and [attempt_id]. *)
Record Event := mkEvent {
  ev_ts : Z;
  ev_status : str;
  ev_msg : str;
  ev_attempt : option Z
}.

Definition decode_line (line : str) : Exc (option Event) :=
  match re_match LINE_RE line with
  | None => Ok None
  | Some m =>
    ts ← py_int (group 1 m);
    attempt_id ← parse_attempt_id (strip (group 4 m));
    Ok (Some (mkEvent ts (strip (group 2 m)) (strip (group 4 m)) attempt_id))
  end.

Fixpoint decode_all (lines : list str) : Exc (list Event) :=
  match lines with
  | [] => Ok []
  | line :: lines' =>
    oe ← decode_line line;
    evs ← decode_all lines';
    Ok (match oe with
        | Some e => e :: evs
        | None => evs
        end)
  end.

Definition handle `{StrLower} (st : Loop) (e : Event) : Loop :=
  handle_event st (ev_ts e) (ev_status e) (ev_msg e) (ev_attempt e).

Definition run `{StrLower} (evs : list Event) (st : Loop) : Loop :=
  foldl handle st evs.

Definition Loop0 : Loop := {| attempts := ∅; emitted := [] |}.

(** *** Attempts of a stream *)

(** An attempt: the start event that opens it, the later events that carry
    its id, and the finish event that closes it. *)
Record Attempt := mkAttempt {
  a_id : Z;
  a_start : Event;
  a_body : list Event;
  a_finish : Event
}.

Definition is_start (e : Event) : bool := str_eqb (ev_status e) (u "scanner_start").
Definition is_finish (e : Event) : bool := str_eqb (ev_status e) (u "scanner_finish").
Definition has_id (id : Z) (e : Event) : bool := bool_decide (ev_attempt e = Some id).

(** [a] is an attempt of the stream [evs], closed by a finish event: between
    its start and its finish no event of the same id starts or finishes. *)
Definition closed_attempt (evs : list Event) (a : Attempt) : Prop :=
  ∃ pre mid post,
    evs = pre ++ a_start a :: mid ++ a_finish a :: post
    ∧ is_start (a_start a) = true ∧ has_id (a_id a) (a_start a) = true
    ∧ is_finish (a_finish a) = true ∧ has_id (a_id a) (a_finish a) = true
    ∧ a_body a = filter (λ e, has_id (a_id a) e = true) mid
    ∧ Forall (λ e, is_start e = false ∧ is_finish e = false) (a_body a).

Definition closed_attempt_of (lines : list str) (a : Attempt) : Prop :=
  ∃ evs, decode_all lines = Ok evs ∧ closed_attempt evs a.

(** The state of the attempt once its finish event is recorded, and the row
    the loop then builds from it. *)
Definition record (state : AttemptState) (e : Event) : AttemptState :=
  record_event (ev_status e) (ev_msg e) state.

Definition final_state (a : Attempt) : AttemptState :=
  let s := a_start a in
  foldl record (open_attempt (ev_ts s) (ev_status s) (ev_msg s) (a_id a))
        (a_body a ++ [a_finish a]).

Definition row_of `{StrLower} (a : Attempt) : Row :=
  close_attempt (ev_ts (a_finish a)) (final_state a).

(** The events of an attempt after its start. *)
Definition later_events (a : Attempt) : list Event := a_body a ++ [a_finish a].

Definition success_like (e : Event) : bool := status_in (ev_status e) success_statuses.
Definition error_like (e : Event) : bool := status_in (ev_status e) error_statuses.

(** The result counts of the success-like events, in arrival order. *)
Definition result_counts (a : Attempt) : list Z :=
  (λ e, parse_found_count (ev_msg e)) <$> filter (λ e, success_like e = true) (later_events a).

(** The payloads of the error-like events, in arrival order. *)
Definition recorded_errors (a : Attempt) : list str :=
  ev_msg <$> filter (λ e, error_like e = true) (later_events a).

(** *** Invariant of the loop *)

(** The state of a live attempt is the fold of the events of its id since
    the start event that opened it. *)
Definition opened_by (evs : list Event) (id : Z) (state : AttemptState) : Prop :=
  ∃ pre s mid,
    evs = pre ++ s :: mid
    ∧ is_start s = true ∧ has_id id s = true
    ∧ Forall (λ e, is_start e = false ∧ is_finish e = false)
             (filter (λ e, has_id id e = true) mid)
    ∧ state = foldl record (open_attempt (ev_ts s) (ev_status s) (ev_msg s) id)
                    (filter (λ e, has_id id e = true) mid).

Definition loop_invariant `{StrLower} (evs : list Event) (st : Loop) : Prop :=
  (∀ id state, attempts st !! id = Some state → opened_by evs id state)
  ∧ (∀ row, row ∈ emitted st → ∃ a, closed_attempt evs a ∧ row = row_of a).

(** *** Streams of lines *)

(** [lines'] is [lines] with lines that do not match [LINE_RE] put in at any
    positions. *)
Inductive interspersed : list str → list str → Prop :=
| interspersed_nil : interspersed [] []
| interspersed_keep line lines lines' :
    interspersed lines lines' → interspersed (line :: lines) (line :: lines')
| interspersed_junk junk lines lines' :
    re_match LINE_RE junk = None →
    interspersed lines lines' → interspersed lines (junk :: lines').

(** The line is a start event, or a finish event, of attempt [id]. *)
Definition starts (id : Z) (line : str) : Prop :=
  ∃ e, decode_line line = Ok (Some e) ∧ is_start e = true ∧ has_id id e = true.

Definition finishes (id : Z) (line : str) : Prop :=
  ∃ e, decode_line line = Ok (Some e) ∧ is_finish e = true ∧ has_id id e = true.

Definition rows_of_id (id : Z) (rows : list Row) : list Row :=
  filter (λ row, row_attempt row = id) rows.

(** Every live state sits under its own id. *)
Definition keyed (st : Loop) : Prop :=
  ∀ id state, attempts st !! id = Some state → attempt_id state = id.

(** *** The classification as a priority list *)

(** The categories in priority order, each with its marker substrings. *)
Definition classification : list (list str * str) :=
  [([u "unknownhostexception"; u "unable to resolve host"], u "dns");
   ([u "timeout"; u "timed out"], u "timeout");
   ([u "http 429"; u "rate"], u "rate_limit");
   ([u "http 403"], u "http_forbidden");
   ([u "http 401"], u "http_unauthorized");
   ([u "ssl"], u "tls_ssl");
   ([u "network io"], u "network_io")].

(** A category matches when one of its markers occurs in the lowered text. *)
Definition category_matches (lowered : str) (category : list str * str) : bool :=
  existsb (λ marker, contains marker lowered) (fst category).

(** The first category of the list that matches, else "other". *)
Definition classify_by_priority `{StrLower} (message : str) : str :=
  match find (category_matches (str_lower message)) classification with
  | Some category => snd category
  | None => u "other"
  end.

(** *** Report and failing lines *)

(** The headings of the breakdown sections and the label of the first count. *)
Definition breakdown_markers : list str :=
  [u "- Всего попыток"; u "## Топ успешных запросов"; u "## Частые причины ошибок";
   u "## Распределение по provider"; u "## Распределение по mode";
   u "## Рекомендация по обучению"; u "##"].

(** A run of [n] digits 1. *)
Definition ones (n : nat) : str := replicate n 49%N.

(** A start line whose timestamp has 4301 digits, a line whose attempt id
    has 4301 digits, and a finish line whose result count has 4301 digits. *)
Definition long_timestamp_line : str :=
  ones 4301 ++ u " | scanner_start | playlist=- | attempt=1, query=foo".

Definition long_attempt_line : str :=
  u "100 | scanner_ok | playlist=- | attempt=" ++ ones 4301.

Definition long_count_lines : list str :=
  [u "100 | scanner_start | playlist=- | attempt=1, query=foo";
   u "200 | scanner_finish | playlist=- | attempt=1, results=" ++ ones 4301].

(** *** The query field, in the words of the specification *)

(** The longest prefix of characters of a class. *)
Fixpoint prefix_by (p : N → bool) (s : str) : str :=
  match s with
  | c :: s' => if p c then c :: prefix_by p s' else []
  | [] => []
  end.

(** The value that follows the marker at the head of [payload]: the
    characters up to the next comma or bar, when there is at least one. *)
Definition query_field_here (payload : str) : option str :=
  if starts_with (u "query=") payload then
    match prefix_by cls_not_comma_bar (drop 6 payload) with
    | [] => None
    | value => Some value
    end
  else None.

(** The first [query=...] field of the payload. *)
Fixpoint first_query_field (payload : str) : option str :=
  match query_field_here payload with
  | Some value => Some value
  | None =>
    match payload with
    | [] => None
    | _ :: payload' => first_query_field payload'
    end
  end.

(** Every run of whitespace becomes one space. *)
Fixpoint collapse_ws (s : str) : str :=
  match s with
  | [] => []
  | c :: s' =>
    if is_space c then
      match s' with
      | c' :: _ => if is_space c' then collapse_ws s' else 32%N :: collapse_ws s'
      | [] => [32%N]
      end
    else c :: collapse_ws s'
  end.

(** The characters [normalize_query] strips at both ends. *)
Definition query_punct (c : N) : bool := bool_decide (c ∈ u " ,.;").

(** The normalization as the specification words it: whitespace collapsed,
    punctuation stripped at the end. *)
Definition collapse_and_strip_trailing (value : str) : str :=
  rstrip_by query_punct (collapse_ws value).

(** Each whitespace character is one space followed by a character that is
    not whitespace. *)
Fixpoint single_spaced (s : str) : bool :=
  match s with
  | [] => true
  | c :: s' =>
    (if is_space c then
       (c =? 32)%N && match s' with
                      | c' :: _ => negb (is_space c')
                      | [] => false
                      end
     else true)
    && single_spaced s'
  end.

Definition no_leading_punct (value : str) : bool :=
  match value with
  | c :: _ => negb (is_space c) && negb (query_punct c)
  | [] => true
  end.

Definition no_trailing_punct (value : str) : bool :=
  match last value with
  | Some c => negb (is_space c) && negb (query_punct c)
  | None => true
  end.

(** *** The log of the module docstring *)

Definition docstring_log : list str :=
  [u "1771500505471 | scanner_start | playlist=- | attempt=6, query=m3u., provider=ALL, mode=AUTO, ...";
   u "1771500526543 | scanner_fatal | playlist=- | attempt=6, throwable=UnknownHostException: ...";
   u "1771500526677 | scanner_finish | playlist=- | attempt=6, durationMs=21243, status=ERROR, results=0"].

Definition docstring_start : Event :=
  mkEvent 1771500505471 (u "scanner_start")
          (u "attempt=6, query=m3u., provider=ALL, mode=AUTO, ...") (Some 6).

Definition docstring_fatal : Event :=
  mkEvent 1771500526543 (u "scanner_fatal")
          (u "attempt=6, throwable=UnknownHostException: ...") (Some 6).

Definition docstring_finish : Event :=
  mkEvent 1771500526677 (u "scanner_finish")
          (u "attempt=6, durationMs=21243, status=ERROR, results=0") (Some 6).

Definition docstring_attempt : Attempt :=
  mkAttempt 6 docstring_start [docstring_fatal] docstring_finish.

Definition docstring_row : Row :=
  {| row_attempt := 6;
     row_started_at := 1771500505471;
     row_finished_at := 1771500526677;
     row_query := u "m3u";
     row_provider := u "ALL";
     row_mode := u "AUTO";
     row_preset := u "-";
     row_found := 0;
     row_label := u "failed";
     row_error_type := u "dns";
     row_error := u "attempt=6, throwable=UnknownHostException: ...";
     row_statuses := [u "scanner_start"; u "scanner_fatal"; u "scanner_finish"] |}.

(** The same log with two lines that are not events, and with a start line
    of attempt 7 that nothing finishes. *)
Definition noisy_log : list str :=
  [u "--- exported by the app ---";
   u "1771500505471 | scanner_start | playlist=- | attempt=6, query=m3u., provider=ALL, mode=AUTO, ...";
   u "1771500526543 | scanner_fatal | playlist=- | attempt=6, throwable=UnknownHostException: ...";
   u "scanner_ok | attempt=6, results=9";
   u "1771500526677 | scanner_finish | playlist=- | attempt=6, durationMs=21243, status=ERROR, results=0"].

Definition open_start_line : str :=
  u "1771500530000 | scanner_start | playlist=- | attempt=7, query=iptv free".

Definition open_start : Event :=
  mkEvent 1771500530000 (u "scanner_start") (u "attempt=7, query=iptv free") (Some 7).

Definition open_tail : list str :=
  [u "1771500531000 | scanner_step_ok | playlist=- | attempt=7, results=3"].

Definition open_step : Event :=
  mkEvent 1771500531000 (u "scanner_step_ok") (u "attempt=7, results=3") (Some 7).

(** *** What a match is *)

(** [matches r i s cs i' s' cs']: from offset [i], where the subject still
    has [s] to read, [r] can consume up to offset [i'], leaving [s'], and
    turn the groups [cs] into [cs']. *)
Fixpoint matches (r : regex) (i : nat) (s : str) (cs : caps)
    (i' : nat) (s' : str) (cs' : caps) : Prop :=
  match r with
  | Eps => i' = i ∧ s' = s ∧ cs' = cs
  | Chr p => ∃ c, s = c :: s' ∧ p c = true ∧ i' = S i ∧ cs' = cs
  | Seq r1 r2 =>
    ∃ i1 s1 cs1, matches r1 i s cs i1 s1 cs1 ∧ matches r2 i1 s1 cs1 i' s' cs'
  | Alt r1 r2 => matches r1 i s cs i' s' cs' ∨ matches r2 i s cs i' s' cs'
  | Star p =>
    ∃ run, s = run ++ s' ∧ forallb p run = true
           ∧ i' = (i + length run)%nat ∧ cs' = cs
  | Group n r =>
    ∃ cs1, matches r i s cs i' s' cs1 ∧ cs' = (n, take (i' - i) s) :: cs1
  | Bol => i = 0%nat ∧ i' = i ∧ s' = s ∧ cs' = cs
  | Eol => (s = [] ∨ s = [NL]) ∧ i' = i ∧ s' = s ∧ cs' = cs
  end.

(** *** Rows emitted by one event, lines of one attempt *)

(** The rows one event appends: one for a finish event of a live attempt,
    none otherwise. *)
Definition emitted_by `{StrLower} (st : Loop) (e : Event) : list Row :=
  match ev_attempt e with
  | Some id =>
    if is_start e then []
    else match attempts st !! id with
         | Some state =>
           if is_finish e then [close_attempt (ev_ts e) (record state e)] else []
         | None => []
         end
  | None => []
  end.

(** The line is an event that carries the attempt id [id]. *)
Definition line_has_id (id : Z) (line : str) : bool :=
  match decode_line line with
  | Ok (Some e) => has_id id e
  | _ => false
  end.

(** Start events that carry an attempt id. *)
Definition opens (e : Event) : bool :=
  is_start e && bool_decide (is_Some (ev_attempt e)).

(** *** Numbers too long for [int] in a line *)

(** The line matches [LINE_RE] and its timestamp, or the first attempt id
    of its message, has more digits than [int] accepts. *)
Definition too_long_number (line : str) : Prop :=
  ∃ m, re_match LINE_RE line = Some m
       ∧ ((int_max_str_digits < length (group 1 m))%nat
          ∨ ∃ m', re_search ATTEMPT_RE (strip (group 4 m)) = Some m'
                  ∧ (int_max_str_digits < length (group 1 m'))%nat).

(** The tags [classify_error] can return. *)
Definition error_categories : list str :=
  [u "dns"; u "timeout"; u "rate_limit"; u "http_forbidden";
   u "http_unauthorized"; u "tls_ssl"; u "network_io"; u "other"].

(** *** Lines of a text, occurrences of a key *)

(** [line] is one of the lines of [text]: it starts the text or follows a
    newline, and a newline follows it. *)
Definition has_line (line text : str) : Prop :=
  ∃ pre post, text = pre ++ line ++ [NL] ++ post ∧ (pre = [] ∨ last pre = Some NL).

(** How often [key] occurs in [keys]. *)
Definition occurrences (key : str) (keys : list str) : nat :=
  length (filter (λ k, k = key) keys).

(** The lines [build_summary] joins for a list of entries that is not
    empty. *)
Definition summary_lines (entries : list Row) : list str :=
  let successes := with_label (u "success") entries in
  let failures := with_label (u "failed") entries in
  let empties := with_label (u "empty") entries in
  let success_queries :=
    Counter (filter (λ q, nonempty q = true) (row_query <$> successes)) in
  let fail_types :=
    Counter (filter (λ t, nonempty t = true) (row_error_type <$> failures)) in
  [u "# AI training summary";
   [];
   u "- Всего попыток: " ++ repr_int (Z.of_nat (length entries));
   u "- Успешных (found>0): " ++ repr_int (Z.of_nat (length successes));
   u "- Пустых (found=0, без явной ошибки): " ++ repr_int (Z.of_nat (length empties));
   u "- Ошибок: " ++ repr_int (Z.of_nat (length failures));
   [];
   u "## Топ успешных запросов"]
  ++ match success_queries with
     | _ :: _ => item_line <$> most_common 10 success_queries
     | [] => [u "- нет данных"]
     end
  ++ [[]; u "## Частые причины ошибок"]
  ++ match fail_types with
     | _ :: _ => item_line <$> most_common 10 fail_types
     | [] => [u "- нет данных"]
     end
  ++ [[]; u "## Распределение по provider"]
  ++ (item_line <$> most_common_all (Counter (row_provider <$> entries)))
  ++ [[]; u "## Распределение по mode"]
  ++ (item_line <$> most_common_all (Counter (row_mode <$> entries)))
  ++ [[];
      u "## Рекомендация по обучению";
      u "- Используйте только запросы с `label=success` для пополнения шаблонов `LocalAiQueryAssistant`.";
      u "- Для `dns/timeout` не обучайте AI-формулировки, сначала исправьте сеть/DNS/прокси.";
      u "- Новые AI-варианты добавляйте партиями по 3-5 и проверяйте успех до/после."].

(** *** The input format of the module docstring *)

(** The text the docstring gives for one event:
    "<timestamp> | <status> | playlist=<id-or--> | <message>". *)
Definition format_line (ts status playlist message : str) : str :=
  ts ++ u " | " ++ status ++ u " | playlist=" ++ playlist ++ u " | " ++ message.

(** An event line whose message carries no attempt id. *)
Definition no_id_line : str :=
  u "1771500510000 | scanner_step_ok | playlist=- | results=3".

Definition no_id_event : Event :=
  mkEvent 1771500510000 (u "scanner_step_ok") (u "results=3") None.

(** The docstring log followed by an attempt that is started and not
    finished. *)
Definition docstring_log_and_open : list str :=
  docstring_log ++ open_start_line :: open_tail.

(** An event line of attempt 7, an id that no line of the docstring log
    starts. *)
Definition stray_line : str :=
  u "1771500531000 | scanner_step_ok | playlist=- | attempt=7, results=3".

(** *** The result count of a payload, in the words of the specification *)

(** The digits at the head of [s], when there is at least one. *)
Definition digits_here (s : str) : option str :=
  match prefix_by is_decimal s with
  | [] => None
  | digits => Some digits
  end.

(** The digits of a count written at the head of [payload]: after the marker
    "results=", or after the word "Найдено" and at least one whitespace
    character. *)
Definition count_here (payload : str) : option str :=
  if starts_with (u "results=") payload then digits_here (drop 8 payload)
  else if starts_with (u "Найдено") payload then
    match prefix_by is_space (drop 7 payload) with
    | [] => None
    | _ :: _ => digits_here (lstrip_by is_space (drop 7 payload))
    end
  else None.

(** The digits of the first count of the payload. *)
Fixpoint first_count (payload : str) : option str :=
  match count_here payload with
  | Some digits => Some digits
  | None =>
    match payload with
    | [] => None
    | _ :: payload' => first_count payload'
    end
  end.

(** What a payload contributes: the number its first count reads as, and 0
    when it has no count or [int] rejects the digits. *)
Definition recovered_count (payload : str) : Z :=
  match first_count payload with
  | Some digits =>
    match py_int digits with
    | Ok n => n
    | Raise _ => 0
    end
  | None => 0
  end.

(** The two ways a count is introduced. *)
Definition count_marker (marker : str) : Prop :=
  marker = u "results="
  ∨ ∃ ws, ws ≠ [] ∧ forallb is_space ws = true ∧ marker = u "Найдено" ++ ws.

(** No count begins inside [pre] in the payload [pre ++ rest]. *)
Definition no_count_within (pre rest : str) : Prop :=
  ∀ k, (k < length pre)%nat → count_here (drop k (pre ++ rest)) = None.

(** [s] does not go on with a digit. *)
Definition no_digit_ahead (s : str) : Prop :=
  match s with
  | c :: _ => is_decimal c = false
  | [] => True
  end.

(** *** A log with counts *)

(** One attempt with a step count, a count on an error event, and a final
    count. *)
Definition counted_log : list str :=
  [u "100 | scanner_start | playlist=- | attempt=4, query=iptv, provider=ALL, mode=AUTO";
   u "110 | scanner_step_ok | playlist=- | attempt=4, provider=GITHUB, results=3";
   u "120 | scanner_provider_error | playlist=- | attempt=4, http 403, results=9";
   u "130 | scanner_finish | playlist=- | attempt=4, durationMs=30, results=5"].

Definition counted_start : Event :=
  mkEvent 100 (u "scanner_start")
          (u "attempt=4, query=iptv, provider=ALL, mode=AUTO") (Some 4).

Definition counted_step : Event :=
  mkEvent 110 (u "scanner_step_ok") (u "attempt=4, provider=GITHUB, results=3") (Some 4).

Definition counted_error : Event :=
  mkEvent 120 (u "scanner_provider_error") (u "attempt=4, http 403, results=9") (Some 4).

Definition counted_finish : Event :=
  mkEvent 130 (u "scanner_finish") (u "attempt=4, durationMs=30, results=5") (Some 4).

Definition counted_attempt : Attempt :=
  mkAttempt 4 counted_start [counted_step; counted_error] counted_finish.

Definition counted_row : Row :=
  {| row_attempt := 4;
     row_started_at := 100;
     row_finished_at := 130;
     row_query := u "iptv";
     row_provider := u "ALL";
     row_mode := u "AUTO";
     row_preset := u "-";
     row_found := 5;
     row_label := u "success";
     row_error_type := u "http_forbidden";
     row_error := u "attempt=4, http 403, results=9";
     row_statuses := [u "scanner_start"; u "scanner_step_ok";
                      u "scanner_provider_error"; u "scanner_finish"] |}.

(** *** The lines and the sections of the report *)

(** The text of a list of lines, each ended by a newline. *)
Definition lines_text (ls : list str) : str := ls ≫= (λ l, l ++ [NL]).

(** [items] ranks [keys]: each key comes once, with the number of its
    occurrences; the counts do not increase; and of two keys with the same
    count the one that occurs first in [keys] comes first. *)
Definition ranks (keys : list str) (items : list (str * nat)) : Prop :=
  NoDup (fst <$> items)
  ∧ (∀ k m, (k, m) ∈ items ↔ (0 < m)%nat ∧ m = occurrences k keys)
  ∧ (∀ i j a b, (i < j)%nat → items !! i = Some a → items !! j = Some b →
       (snd b ≤ snd a)%nat
       ∧ (snd a = snd b → ∃ pre post, keys = pre ++ fst a :: post ∧ fst b ∉ pre)).

(** The lines of a section that shows at most ten items, and says so when
    it has none. *)
Definition top_lines (items : list (str * nat)) : list str :=
  match items with
  | [] => [u "- нет данных"]
  | _ :: _ => item_line <$> take 10 items
  end.

(** *** A log where an attempt is started again *)

(** The docstring log, then attempt 6 started again and failing, started
    once more by [restart_line] and finished with nothing found. *)
Definition restart_before : list str :=
  docstring_log
  ++ [u "1771500540000 | scanner_start | playlist=- | attempt=6, query=iptv";
      u "1771500541000 | scanner_error | playlist=- | attempt=6, read timed out"].

Definition restart_line : str :=
  u "1771500542000 | scanner_start | playlist=- | attempt=6, query=free tv".

Definition restart_after : list str :=
  [u "1771500543000 | scanner_finish | playlist=- | attempt=6, results=0"].

Definition restart_row : Row :=
  {| row_attempt := 6;
     row_started_at := 1771500542000;
     row_finished_at := 1771500543000;
     row_query := u "free tv";
     row_provider := u "ALL";
     row_mode := u "AUTO";
     row_preset := u "-";
     row_found := 0;
     row_label := u "empty";
     row_error_type := [];
     row_error := [];
     row_statuses := [u "scanner_start"; u "scanner_finish"] |}.

(** * Properties *)

(** ** The loop as a fold over decoded events *)

Section Reconstruction.
Context `{StrLower}.

Lemma loop_body_decode (st : Loop) (line : str) :
  loop_body st line =
  oe ← decode_line line; Ok (match oe with Some e => handle st e | None => st end).
Proof.
  unfold loop_body, decode_line.
  destruct (re_match LINE_RE line) as [m|]; [|done].
  destruct (py_int (group 1 m)) as [ts|]; [|done]; simpl.
  by destruct (parse_attempt_id (strip (group 4 m))).
Qed.

Lemma for_each_run (lines : list str) (st : Loop) :
  for_each loop_body st lines = evs ← decode_all lines; Ok (run evs st).
Proof.
  revert st; induction lines as [|line lines IH]; intros st; [done|].
  simpl. rewrite loop_body_decode.
  destruct (decode_line line) as [[e|]|]; simpl; [| |done].
  - rewrite IH. by destruct (decode_all lines).
  - rewrite IH. by destruct (decode_all lines).
Qed.

Lemma parse_lines_run (lines : list str) :
  parse_lines lines = evs ← decode_all lines; Ok (emitted (run evs Loop0)).
Proof.
  unfold parse_lines. fold Loop0. rewrite for_each_run.
  by destruct (decode_all lines).
Qed.

Lemma parse_lines_Ok (lines : list str) (rows : list Row) :
  parse_lines lines = Ok rows ↔
  ∃ evs, decode_all lines = Ok evs ∧ rows = emitted (run evs Loop0).
Proof.
  rewrite parse_lines_run. destruct (decode_all lines) as [evs|]; simpl.
  - split; [intros [= <-]; eauto | intros (? & [= <-] & ->); done].
  - split; [done | intros (? & ? & _); done].
Qed.

Lemma run_app (a b : list Event) (st : Loop) : run (a ++ b) st = run b (run a st).
Proof. apply foldl_app. Qed.

Lemma run_snoc (evs : list Event) (e : Event) (st : Loop) :
  run (evs ++ [e]) st = handle (run evs st) e.
Proof. by rewrite run_app. Qed.

Lemma has_id_true (id : Z) (e : Event) : has_id id e = true ↔ ev_attempt e = Some id.
Proof. unfold has_id. by rewrite bool_decide_eq_true. Qed.

Lemma has_id_false (id : Z) (e : Event) : has_id id e = false ↔ ev_attempt e ≠ Some id.
Proof. unfold has_id. by rewrite bool_decide_eq_false. Qed.

Lemma start_not_finish (e : Event) : is_finish e = true → is_start e = false.
Proof.
  unfold is_finish, is_start, str_eqb.
  rewrite bool_decide_eq_true, bool_decide_eq_false. by intros ->.
Qed.

(** The four ways an event acts on the loop state. *)
Lemma handle_start (st : Loop) (e : Event) (id : Z) :
  is_start e = true → ev_attempt e = Some id →
  handle st e =
  {| attempts := <[id := open_attempt (ev_ts e) (ev_status e) (ev_msg e) id]> (attempts st);
     emitted := emitted st |}.
Proof. unfold handle, handle_event, is_start. by intros -> ->. Qed.

Lemma handle_ignored (st : Loop) (e : Event) :
  (ev_attempt e = None ∨ ∃ id, ev_attempt e = Some id ∧ is_start e = false
                                ∧ attempts st !! id = None) →
  handle st e = st.
Proof.
  unfold handle, handle_event, is_start.
  intros [->|(id & -> & -> & ->)]; [by destruct (str_eqb _ _)|done].
Qed.

Lemma handle_update (st : Loop) (e : Event) (id : Z) (state : AttemptState) :
  is_start e = false → is_finish e = false → ev_attempt e = Some id →
  attempts st !! id = Some state →
  handle st e =
  {| attempts := <[id := record state e]> (attempts st); emitted := emitted st |}.
Proof. unfold handle, handle_event, is_start, is_finish. by intros -> -> -> ->. Qed.

Lemma handle_finish (st : Loop) (e : Event) (id : Z) (state : AttemptState) :
  is_finish e = true → ev_attempt e = Some id →
  attempts st !! id = Some state →
  handle st e =
  {| attempts := delete id (attempts st);
     emitted := emitted st ++ [close_attempt (ev_ts e) (record state e)] |}.
Proof.
  intros Hf Hid Hst. pose proof (start_not_finish _ Hf) as Hs.
  unfold handle, handle_event. unfold is_start, is_finish in *.
  by rewrite Hs, Hid, Hst, Hf.
Qed.

(** An event leaves the states of the other ids alone. *)
Lemma handle_frame (st : Loop) (e : Event) (id : Z) :
  has_id id e = false → attempts (handle st e) !! id = attempts st !! id.
Proof.
  rewrite has_id_false. intros Hne.
  destruct (ev_attempt e) as [id'|] eqn:Hid; [|by rewrite handle_ignored; auto].
  assert (id' ≠ id) by congruence.
  destruct (is_start e) eqn:Hs.
  { rewrite (handle_start _ _ id') by done. simpl. by rewrite lookup_insert_ne. }
  destruct (attempts st !! id') as [state|] eqn:Hst;
    [|by rewrite handle_ignored; eauto 6].
  destruct (is_finish e) eqn:Hf.
  - rewrite (handle_finish _ _ id' state) by done. simpl. by rewrite lookup_delete_ne.
  - rewrite (handle_update _ _ id' state) by done. simpl. by rewrite lookup_insert_ne.
Qed.

(** Rows are only ever appended. *)
Lemma handle_emitted (st : Loop) (e : Event) :
  ∃ new, emitted (handle st e) = emitted st ++ new.
Proof.
  destruct (ev_attempt e) as [id|] eqn:Hid;
    [|exists []; rewrite handle_ignored, app_nil_r; auto].
  destruct (is_start e) eqn:Hs.
  { exists []. rewrite (handle_start _ _ id), app_nil_r; done. }
  destruct (attempts st !! id) as [state|] eqn:Hst;
    [|exists []; rewrite handle_ignored, app_nil_r; eauto 6].
  destruct (is_finish e) eqn:Hf.
  - eexists. by rewrite (handle_finish _ _ id state).
  - exists []. rewrite (handle_update _ _ id state), app_nil_r; done.
Qed.

Lemma run_emitted (evs : list Event) (st : Loop) :
  ∃ new, emitted (run evs st) = emitted st ++ new.
Proof.
  revert st; induction evs as [|e evs IH]; intros st.
  - exists []. by rewrite app_nil_r.
  - simpl. destruct (IH (handle st e)) as [n2 ->].
    destruct (handle_emitted st e) as [n1 ->].
    exists (n1 ++ n2). by rewrite app_assoc.
Qed.

(** The events between the start and the finish of an attempt fold into its
    state, whatever the events of other ids do in between. *)
Lemma run_body (id : Z) (mid : list Event) (st : Loop) (state : AttemptState) :
  attempts st !! id = Some state →
  Forall (λ e, is_start e = false ∧ is_finish e = false)
         (filter (λ e, has_id id e = true) mid) →
  attempts (run mid st) !! id
  = Some (foldl record state (filter (λ e, has_id id e = true) mid)).
Proof.
  revert st state; induction mid as [|e mid IH]; intros st state Hst Hmid; [done|].
  simpl. destruct (has_id id e) eqn:Hid.
  - rewrite filter_cons_True in Hmid |- * by done.
    inversion Hmid as [|? ? [Hs Hf] Hmid']; subst. simpl.
    apply IH; [|done].
    rewrite (handle_update st e id state) by (by try apply has_id_true).
    simpl. apply lookup_insert_eq.
  - rewrite filter_cons_False in Hmid |- * by (by rewrite Hid).
    apply IH; [|done]. by rewrite handle_frame.
Qed.

Lemma final_state_snoc (a : Attempt) :
  final_state a
  = record (foldl record
              (open_attempt (ev_ts (a_start a)) (ev_status (a_start a))
                            (ev_msg (a_start a)) (a_id a)) (a_body a))
           (a_finish a).
Proof. unfold final_state. by rewrite foldl_app. Qed.

(** Every closed attempt of the stream has its row in the output. *)
Lemma closed_attempt_emitted (evs : list Event) (a : Attempt) :
  closed_attempt evs a → row_of a ∈ emitted (run evs Loop0).
Proof.
  intros (pre & mid & post & -> & Hs & Hsid & Hf & Hfid & Hbody & Hall).
  rewrite has_id_true in Hsid, Hfid.
  rewrite run_app. simpl.
  set (st1 := run pre Loop0).
  rewrite (handle_start st1 _ (a_id a)) by done.
  set (st2 := {| attempts := _ |}).
  rewrite run_app. simpl.
  assert (attempts (run mid st2) !! a_id a
          = Some (foldl record
                    (open_attempt (ev_ts (a_start a)) (ev_status (a_start a))
                       (ev_msg (a_start a)) (a_id a)) (a_body a))) as Hlive.
  { rewrite Hbody. apply run_body; [apply lookup_insert_eq|by rewrite <- Hbody]. }
  rewrite (handle_finish _ _ (a_id a) _ Hf Hfid Hlive).
  set (st4 := {| attempts := _ |}).
  destruct (run_emitted post st4) as [new ->]. subst st4; simpl.
  unfold row_of. rewrite final_state_snoc. set_solver.
Qed.

Lemma closed_attempt_snoc (evs : list Event) (e : Event) (a : Attempt) :
  closed_attempt evs a → closed_attempt (evs ++ [e]) a.
Proof.
  intros (pre & mid & post & -> & Hrest).
  exists pre, mid, (post ++ [e]). split; [|done].
  by rewrite <- !app_assoc, <- !app_comm_cons, <- app_assoc.
Qed.

Lemma opened_by_skip (evs : list Event) (e : Event) (id : Z) (state : AttemptState) :
  has_id id e = false → opened_by evs id state → opened_by (evs ++ [e]) id state.
Proof.
  intros Hne (pre & s & mid & -> & Hs & Hid & Hall & ->).
  exists pre, s, (mid ++ [e]).
  rewrite filter_app, filter_cons_False, filter_nil, app_nil_r by (by rewrite Hne).
  by rewrite <- app_assoc.
Qed.

Lemma opened_by_record (evs : list Event) (e : Event) (id : Z) (state : AttemptState) :
  has_id id e = true → is_start e = false → is_finish e = false →
  opened_by evs id state → opened_by (evs ++ [e]) id (record state e).
Proof.
  intros Hid Hs Hf (pre & s & mid & -> & Hs' & Hid' & Hall & ->).
  exists pre, s, (mid ++ [e]).
  rewrite filter_app, filter_cons_True, filter_nil by done.
  rewrite <- app_assoc, foldl_app. repeat split; try done.
  apply Forall_app; split; [done|]. by repeat constructor.
Qed.

Lemma opened_by_closed (evs : list Event) (e : Event) (id : Z) (state : AttemptState) :
  has_id id e = true → is_finish e = true →
  opened_by evs id state →
  ∃ a, closed_attempt (evs ++ [e]) a
       ∧ close_attempt (ev_ts e) (record state e) = row_of a.
Proof.
  intros Hid Hf (pre & s & mid & -> & Hs' & Hid' & Hall & ->).
  exists (mkAttempt id s (filter (λ e, has_id id e = true) mid) e). split.
  - exists pre, mid, []. simpl. by rewrite <- app_assoc.
  - unfold row_of. by rewrite final_state_snoc.
Qed.

Lemma loop_invariant_step (evs : list Event) (e : Event) (st : Loop) :
  loop_invariant evs st → loop_invariant (evs ++ [e]) (handle st e).
Proof.
  intros [Hlive Hrows].
  assert (∀ row, row ∈ emitted st →
            ∃ a, closed_attempt (evs ++ [e]) a ∧ row = row_of a) as Hrows'.
  { intros row (a & Ha & ->)%Hrows. eauto using closed_attempt_snoc. }
  assert (∀ id state, has_id id e = false → attempts st !! id = Some state →
            opened_by (evs ++ [e]) id state) as Hlive'.
  { eauto using opened_by_skip. }
  destruct (ev_attempt e) as [id|] eqn:Hid.
  2:{ rewrite handle_ignored by auto. split; [|done].
      intros id' state. apply Hlive'. apply has_id_false. congruence. }
  assert (∀ id', id' ≠ id → has_id id' e = false) as Hother.
  { intros id' ?. apply has_id_false. congruence. }
  destruct (is_start e) eqn:Hs.
  { rewrite (handle_start _ _ id) by done. split; [|done]. simpl.
    intros id' state. destruct (decide (id' = id)) as [->|Hne].
    - rewrite lookup_insert_eq. intros [= <-].
      exists evs, e, []. repeat split; try done. by apply has_id_true.
    - rewrite lookup_insert_ne by done. auto. }
  destruct (attempts st !! id) as [state|] eqn:Hst.
  2:{ rewrite handle_ignored by eauto 6. split; [|done].
      intros id' state Hst'. apply Hlive'; [|done].
      apply Hother. congruence. }
  destruct (is_finish e) eqn:Hf.
  - rewrite (handle_finish _ _ id state) by done. split; simpl.
    + intros id' state'. destruct (decide (id' = id)) as [->|Hne].
      * by rewrite lookup_delete_eq.
      * rewrite lookup_delete_ne by done. auto.
    + intros row [Hin|Hin]%elem_of_app; [auto|].
      apply list_elem_of_singleton in Hin as ->.
      apply (opened_by_closed evs e id state); [by apply has_id_true|done|auto].
  - rewrite (handle_update _ _ id state) by done. split; [|done]. simpl.
    intros id' state'. destruct (decide (id' = id)) as [->|Hne].
    + rewrite lookup_insert_eq. intros [= <-].
      apply opened_by_record; [by apply has_id_true|done..|auto].
    + rewrite lookup_insert_ne by done. auto.
Qed.

Lemma loop_invariant_run (evs : list Event) : loop_invariant evs (run evs Loop0).
Proof.
  induction evs as [|e evs IH] using rev_ind.
  - split; simpl; [intros ?? Hl; by rewrite lookup_empty in Hl | intros ? Hin; set_solver].
  - rewrite run_snoc. by apply loop_invariant_step.
Qed.

(** Every row of the output is the row of a closed attempt of the stream. *)
Lemma emitted_closed_attempt (evs : list Event) (row : Row) :
  row ∈ emitted (run evs Loop0) → ∃ a, closed_attempt evs a ∧ row = row_of a.
Proof. apply loop_invariant_run. Qed.

(** ** The state of one attempt *)

Lemma record_statuses (state : AttemptState) (evs : list Event) :
  statuses (foldl record state evs) = statuses state ++ (ev_status <$> evs).
Proof.
  revert state; induction evs as [|e evs IH]; intros state; simpl.
  - by rewrite app_nil_r.
  - rewrite IH. simpl. by rewrite <- app_assoc.
Qed.

Lemma record_errors (state : AttemptState) (evs : list Event) :
  errors (foldl record state evs)
  = errors state ++ (ev_msg <$> filter (λ e, error_like e = true) evs).
Proof.
  revert state; induction evs as [|e evs IH]; intros state; simpl.
  - by rewrite app_nil_r.
  - rewrite IH. simpl. unfold error_like at 2.
    destruct (status_in (ev_status e) error_statuses) eqn:He.
    + rewrite filter_cons_True by done. simpl. by rewrite <- app_assoc.
    + rewrite filter_cons_False by (unfold error_like; by rewrite He). done.
Qed.

Lemma record_found (state : AttemptState) (evs : list Event) :
  found (foldl record state evs)
  = foldl Z.max (found state)
      ((λ e, parse_found_count (ev_msg e)) <$> filter (λ e, success_like e = true) evs).
Proof.
  revert state; induction evs as [|e evs IH]; intros state; simpl; [done|].
  rewrite IH. simpl.
  destruct (status_in (ev_status e) success_statuses) eqn:He.
  - rewrite filter_cons_True by done. done.
  - rewrite filter_cons_False by (unfold success_like; by rewrite He). done.
Qed.

Lemma record_fixed (state : AttemptState) (evs : list Event) :
  attempt_id (foldl record state evs) = attempt_id state
  ∧ started_at (foldl record state evs) = started_at state
  ∧ query (foldl record state evs) = query state
  ∧ provider (foldl record state evs) = provider state
  ∧ mode (foldl record state evs) = mode state
  ∧ preset (foldl record state evs) = preset state.
Proof.
  revert state; induction evs as [|e evs IH]; intros state; simpl; [done|].
  apply (IH (record state e)).
Qed.

(** What the start event fixes stays in the row: the fields captured at open
    time are never written again. *)
Lemma row_of_start_fields (a : Attempt) :
  let s := a_start a in
  row_attempt (row_of a) = a_id a
  ∧ row_started_at (row_of a) = ev_ts s
  ∧ row_finished_at (row_of a) = ev_ts (a_finish a)
  ∧ row_query (row_of a) = normalize_query (extract_first QUERY_RE (ev_msg s) [])
  ∧ row_provider (row_of a) = extract_first PROVIDER_RE (ev_msg s) (u "ALL")
  ∧ row_mode (row_of a) = extract_first MODE_RE (ev_msg s) (u "AUTO")
  ∧ row_preset (row_of a) = extract_first PRESET_RE (ev_msg s) (u "-").
Proof.
  unfold row_of, close_attempt, final_state; simpl.
  destruct (record_fixed
              (open_attempt (ev_ts (a_start a)) (ev_status (a_start a))
                            (ev_msg (a_start a)) (a_id a))
              (a_body a ++ [a_finish a])) as (-> & -> & -> & -> & -> & ->).
  done.
Qed.

Lemma final_statuses (a : Attempt) :
  statuses (final_state a)
  = ev_status (a_start a) :: (ev_status <$> a_body a) ++ [ev_status (a_finish a)].
Proof. unfold final_state. rewrite record_statuses. simpl. by rewrite fmap_app. Qed.

Lemma final_errors (a : Attempt) : errors (final_state a) = recorded_errors a.
Proof. unfold final_state. by rewrite record_errors. Qed.

Lemma final_found (a : Attempt) : found (final_state a) = foldl Z.max 0 (result_counts a).
Proof. unfold final_state. by rewrite record_found. Qed.

(** *** Result counts *)

Lemma digits_value_nonneg (ds : list N) : 0 ≤ digits_value ds.
Proof.
  unfold digits_value.
  assert (∀ acc, 0 ≤ acc → 0 ≤ foldl (λ acc d, 10 * acc + Z.of_N d) acc ds) as Hacc.
  { induction ds as [|d ds IH]; intros acc Hacc; simpl; [done|]. apply IH. lia. }
  by apply Hacc.
Qed.

Lemma py_int_nonneg (s : str) (n : Z) : py_int s = Ok n → 0 ≤ n.
Proof.
  unfold py_int. destruct (mapM decimal_value s) as [[|d ds]|]; [done| |done].
  case_bool_decide; [done|]. intros [= <-]. apply digits_value_nonneg.
Qed.

Lemma parse_found_count_nonneg (message : str) : 0 ≤ parse_found_count message.
Proof.
  unfold parse_found_count. destruct (re_search FOUND_RE message) as [m|]; [|done].
  destruct (py_int (group 1 m)) as [n|[]] eqn:Hn; [|done].
  by eapply py_int_nonneg.
Qed.

(** The running maximum from 0 over counts that are not negative is the
    largest of them. *)
Lemma foldl_max_upper (cs : list Z) (c0 : Z) :
  c0 ≤ foldl Z.max c0 cs ∧ ∀ c, c ∈ cs → c ≤ foldl Z.max c0 cs.
Proof.
  revert c0; induction cs as [|c cs IH]; intros c0; simpl.
  - split; [lia|]. intros c Hc. by apply elem_of_nil in Hc.
  - destruct (IH (Z.max c0 c)) as [H0 Hall]. split; [lia|].
    intros c' [->|Hin]%elem_of_cons; [lia|auto].
Qed.

Lemma foldl_max_elem (cs : list Z) (c0 : Z) :
  foldl Z.max c0 cs = c0 ∨ foldl Z.max c0 cs ∈ cs.
Proof.
  revert c0; induction cs as [|c cs IH]; intros c0; simpl; [by left|].
  destruct (IH (Z.max c0 c)) as [->|Hin]; [|right; by right].
  destruct (Z.max_spec c0 c) as [[_ ->]|[_ ->]]; [right; by left|by left].
Qed.

(** *** Events that come from lines *)

Lemma parse_attempt_id_nonempty (message : str) (id : Z) :
  parse_attempt_id message = Ok (Some id) → message ≠ [].
Proof. intros Hid ->. vm_compute in Hid. discriminate. Qed.

Lemma decode_line_attempt (line : str) (e : Event) :
  decode_line line = Ok (Some e) → parse_attempt_id (ev_msg e) = Ok (ev_attempt e).
Proof.
  unfold decode_line. destruct (re_match LINE_RE line) as [m|]; [|done].
  destruct (py_int (group 1 m)) as [ts|]; [|done]; simpl.
  destruct (parse_attempt_id (strip (group 4 m))) as [id|] eqn:Hid; [|done]; simpl.
  by intros [= <-].
Qed.

Lemma decode_all_attempt (lines : list str) (evs : list Event) :
  decode_all lines = Ok evs →
  Forall (λ e, parse_attempt_id (ev_msg e) = Ok (ev_attempt e)) evs.
Proof.
  revert evs; induction lines as [|line lines IH]; intros evs; simpl.
  - intros [= <-]. constructor.
  - destruct (decode_line line) as [oe|] eqn:Hl; [|done]; simpl.
    destruct (decode_all lines) as [evs'|]; [|done]; simpl.
    destruct oe as [e|]; intros [= <-]; [|auto].
    constructor; [by eapply decode_line_attempt|auto].
Qed.

Lemma closed_attempt_later (evs : list Event) (a : Attempt) (e : Event) :
  closed_attempt evs a → e ∈ later_events a →
  e ∈ evs ∧ ev_attempt e = Some (a_id a).
Proof.
  intros (pre & mid & post & -> & _ & _ & _ & Hfid & Hbody & _).
  unfold later_events. rewrite Hbody.
  intros [[Hin Hid]%list_elem_of_filter | ->%list_elem_of_singleton]%elem_of_app.
  - split; [set_solver|by apply has_id_true].
  - split; [set_solver|by apply has_id_true].
Qed.

Lemma recorded_error_nonempty (lines : list str) (a : Attempt) (err : str) :
  closed_attempt_of lines a → err ∈ recorded_errors a → err ≠ [].
Proof.
  intros (evs & Hdec & Ha) (e & -> & [_ He]%list_elem_of_filter)%list_elem_of_fmap.
  destruct (closed_attempt_later _ _ _ Ha He) as [Hin Hid].
  pose proof (decode_all_attempt _ _ Hdec) as Hwf.
  rewrite Forall_forall in Hwf. specialize (Hwf e Hin). rewrite Hid in Hwf.
  by eapply parse_attempt_id_nonempty.
Qed.

(** On a log with a closed attempt the pipeline returns, and the row of the
    attempt is among the rows. *)
Lemma closed_attempt_row (lines : list str) (a : Attempt) :
  closed_attempt_of lines a → ∃ rows, parse_lines lines = Ok rows ∧ row_of a ∈ rows.
Proof.
  intros (evs & Hdec & Ha). exists (emitted (run evs Loop0)).
  split; [apply parse_lines_Ok; eauto|by apply closed_attempt_emitted].
Qed.

Lemma row_closed_attempt (lines : list str) (rows : list Row) (row : Row) :
  parse_lines lines = Ok rows → row ∈ rows →
  ∃ a, closed_attempt_of lines a ∧ row = row_of a.
Proof.
  intros (evs & Hdec & ->)%parse_lines_Ok (a & Ha & ->)%emitted_closed_attempt.
  exists a. split; [by exists evs|done].
Qed.

(** ** Labels, counts, errors and statuses of the emitted rows *)

(** C1. The row of every attempt closed by a [scanner_finish] event is
    emitted, and its label is "success" when its found value is strictly
    positive, otherwise "failed" when an error-like event was recorded for
    the attempt, otherwise "empty"; so the label is "success" exactly when the
    found value is strictly positive. *)
Theorem label_of_closed_attempt (lines : list str) (a : Attempt) :
  closed_attempt_of lines a →
  ∃ rows,
    parse_lines lines = Ok rows
    ∧ row_of a ∈ rows
    ∧ row_label (row_of a)
      = (if bool_decide (0 < row_found (row_of a)) then u "success"
         else if existsb error_like (later_events a) then u "failed"
         else u "empty")
    ∧ (row_label (row_of a) = u "success" ↔ 0 < row_found (row_of a)).
Proof.
  intros Ha. destruct (closed_attempt_row lines a Ha) as (rows & Hrows & Hrow).
  exists rows. split; [done|]. split; [done|]. clear rows Hrows Hrow.
  assert (row_label (row_of a)
          = (if bool_decide (0 < row_found (row_of a)) then u "success"
             else if existsb error_like (later_events a) then u "failed"
             else u "empty")) as Hlabel.
  { unfold row_of, close_attempt; simpl. rewrite final_errors. unfold recorded_errors.
    assert (bool_decide (found (final_state a) > 0)
            = bool_decide (0 < found (final_state a))) as ->.
    { apply bool_decide_ext. lia. }
    case_bool_decide; [done|].
    destruct (existsb error_like (later_events a)) eqn:Hex.
    - apply existsb_exists in Hex as (e & Hin & He).
      apply list_elem_of_In in Hin.
      assert (e ∈ filter (λ e, error_like e = true) (later_events a)) as Hf
        by by apply list_elem_of_filter.
      destruct (filter _ (later_events a)); [by apply elem_of_nil in Hf|done].
    - destruct (filter _ (later_events a)) as [|e l] eqn:Hf; [done|].
      assert (e ∈ filter (λ e, error_like e = true) (later_events a)) as Hin
        by (rewrite Hf; left).
      apply list_elem_of_filter in Hin as [He Hin].
      assert (existsb error_like (later_events a) = true) as Hex'.
      { apply existsb_exists. exists e. split; [by apply list_elem_of_In|done]. }
      congruence. }
  split; [done|]. rewrite Hlabel.
  case_bool_decide; [done|].
  split; [|done]. intros Heq. exfalso. revert Heq. clear.
  destruct (existsb _ _); vm_compute; discriminate.
Qed.

(** C4. When error-like events were recorded for a closed attempt, the
    error_type of its row is the classification of the last recorded payload
    and its error is that payload cut to 1000 characters; when none was
    recorded both are the empty string. *)
Theorem error_of_closed_attempt (lines : list str) (a : Attempt) :
  closed_attempt_of lines a →
  ∃ rows,
    parse_lines lines = Ok rows
    ∧ row_of a ∈ rows
    ∧ match last (recorded_errors a) with
      | Some err =>
        row_error_type (row_of a) = classify_error err
        ∧ row_error (row_of a) = take 1000 err
        ∧ (length (row_error (row_of a)) ≤ 1000)%nat
      | None => row_error_type (row_of a) = [] ∧ row_error (row_of a) = []
      end.
Proof.
  intros Ha. destruct (closed_attempt_row lines a Ha) as (rows & Hrows & Hrow).
  exists rows. split; [done|]. split; [done|]. clear rows Hrows Hrow.
  unfold row_of, close_attempt; simpl. rewrite final_errors.
  destruct (last (recorded_errors a)) as [err|] eqn:Hlast; simpl; [|done].
  assert (err ≠ []) as Hne.
  { eapply recorded_error_nonempty; [done|].
    apply last_Some in Hlast as [l ->]. set_solver. }
  destruct err as [|c err]; [done|]. repeat split.
  rewrite length_take. lia.
Qed.

(** C10. The statuses of every emitted row start with "scanner_start" and end
    with "scanner_finish"; in particular they are not empty. *)
Theorem statuses_of_emitted_row (lines : list str) (rows : list Row) (row : Row) :
  parse_lines lines = Ok rows → row ∈ rows →
  row_statuses row ≠ []
  ∧ head (row_statuses row) = Some (u "scanner_start")
  ∧ last (row_statuses row) = Some (u "scanner_finish").
Proof.
  intros Hrows Hrow.
  destruct (row_closed_attempt _ _ _ Hrows Hrow) as (a & (evs & _ & Ha) & ->).
  destruct Ha as (pre & mid & post & _ & Hs & _ & Hf & _).
  unfold is_start, is_finish, str_eqb in *.
  apply bool_decide_eq_true in Hs, Hf.
  unfold row_of, close_attempt; simpl. rewrite final_statuses, Hs, Hf.
  repeat split; [done|]. by rewrite app_comm_cons, last_snoc.
Qed.

(** ** Lines outside the line shape *)

Lemma loop_body_junk (st : Loop) (junk : str) :
  re_match LINE_RE junk = None → loop_body st junk = Ok st.
Proof. unfold loop_body. by intros ->. Qed.

Lemma for_each_interspersed (lines lines' : list str) (st : Loop) :
  interspersed lines lines' →
  for_each loop_body st lines' = for_each loop_body st lines.
Proof.
  intros Hi. revert st.
  induction Hi as [|line lines lines' _ IH|junk lines lines' Hjunk _ IH]; intros st.
  - done.
  - simpl. destruct (loop_body st line) as [st'|]; simpl; [apply IH|done].
  - simpl. rewrite loop_body_junk by done. simpl. apply IH.
Qed.

(** C5. Lines that do not match the line shape, put in at any positions,
    leave the result of [parse_lines] as it is. *)
Theorem garbage_lines_ignored (lines lines' : list str) :
  interspersed lines lines' → parse_lines lines' = parse_lines lines.
Proof. intros Hi. unfold parse_lines. by rewrite (for_each_interspersed lines lines'). Qed.

(** ** Attempts left open *)

Lemma keyed_handle (st : Loop) (e : Event) : keyed st → keyed (handle st e).
Proof.
  intros Hk.
  destruct (ev_attempt e) as [id|] eqn:Hid; [|by rewrite handle_ignored; auto].
  destruct (is_start e) eqn:Hs.
  { rewrite (handle_start _ _ id) by done. intros id' state; simpl.
    destruct (decide (id' = id)) as [->|Hne].
    - rewrite lookup_insert_eq. by intros [= <-].
    - rewrite lookup_insert_ne by done. apply Hk. }
  destruct (attempts st !! id) as [state|] eqn:Hst;
    [|by rewrite handle_ignored; eauto 6].
  destruct (is_finish e) eqn:Hf.
  - rewrite (handle_finish _ _ id state) by done. intros id' state'; simpl.
    destruct (decide (id' = id)) as [->|Hne].
    + by rewrite lookup_delete_eq.
    + rewrite lookup_delete_ne by done. apply Hk.
  - rewrite (handle_update _ _ id state) by done. intros id' state'; simpl.
    destruct (decide (id' = id)) as [->|Hne].
    + rewrite lookup_insert_eq. intros [= <-]. simpl. by apply Hk.
    + rewrite lookup_insert_ne by done. apply Hk.
Qed.

Lemma rows_of_id_app (id : Z) (rows rows' : list Row) :
  rows_of_id id (rows ++ rows') = rows_of_id id rows ++ rows_of_id id rows'.
Proof. apply filter_app. Qed.

(** Without a finish event of [id], no row of [id] is appended. *)
Lemma handle_no_finish (id : Z) (st : Loop) (e : Event) :
  keyed st → ¬ (is_finish e = true ∧ has_id id e = true) →
  rows_of_id id (emitted (handle st e)) = rows_of_id id (emitted st).
Proof.
  intros Hk Hnf.
  destruct (ev_attempt e) as [id'|] eqn:Hid; [|by rewrite handle_ignored; auto].
  destruct (is_start e) eqn:Hs; [by rewrite (handle_start _ _ id')|].
  destruct (attempts st !! id') as [state|] eqn:Hst;
    [|by rewrite handle_ignored; eauto 6].
  destruct (is_finish e) eqn:Hf; [|by rewrite (handle_update _ _ id' state)].
  rewrite (handle_finish _ _ id' state) by done. simpl.
  rewrite rows_of_id_app. unfold rows_of_id at 2.
  rewrite filter_cons_False, filter_nil, app_nil_r; [done|].
  simpl. rewrite (Hk _ _ Hst). intros ->. apply Hnf. split; [done|].
  by apply has_id_true.
Qed.

Lemma run_no_finish (id : Z) (evs : list Event) (st : Loop) :
  keyed st → Forall (λ e, ¬ (is_finish e = true ∧ has_id id e = true)) evs →
  rows_of_id id (emitted (run evs st)) = rows_of_id id (emitted st).
Proof.
  revert st; induction evs as [|e evs IH]; intros st Hk Hall; [done|].
  inversion Hall; subst. simpl. rewrite IH by auto using keyed_handle.
  by apply handle_no_finish.
Qed.

Lemma keyed_run (evs : list Event) (st : Loop) : keyed st → keyed (run evs st).
Proof.
  revert st; induction evs as [|e evs IH]; intros st Hk; [done|].
  simpl. apply IH. by apply keyed_handle.
Qed.

Lemma decode_all_app_eq (l1 l2 : list str) :
  decode_all (l1 ++ l2)
  = evs1 ← decode_all l1; evs2 ← decode_all l2; Ok (evs1 ++ evs2).
Proof.
  induction l1 as [|line l1 IH]; simpl.
  - by destruct (decode_all l2).
  - destruct (decode_line line) as [oe|]; simpl; [|done]. rewrite IH.
    destruct (decode_all l1) as [evs1|]; simpl; [|done].
    destruct (decode_all l2) as [evs2|]; simpl; [|done].
    by destruct oe.
Qed.

Lemma decode_all_app (l1 l2 : list str) (evs : list Event) :
  decode_all (l1 ++ l2) = Ok evs ↔
  ∃ evs1 evs2, decode_all l1 = Ok evs1 ∧ decode_all l2 = Ok evs2 ∧ evs = evs1 ++ evs2.
Proof.
  rewrite decode_all_app_eq.
  destruct (decode_all l1) as [evs1|]; simpl;
    [|split; [done|by intros (? & ? & ? & _)]].
  destruct (decode_all l2) as [evs2|]; simpl;
    [|split; [done|by intros (? & ? & _ & ? & _)]].
  split; [intros [= <-]; eauto|by intros (? & ? & [= <-] & [= <-] & ->)].
Qed.

Lemma decode_all_no_finish (id : Z) (lines : list str) (evs : list Event) :
  Forall (λ line, ¬ finishes id line) lines → decode_all lines = Ok evs →
  Forall (λ e, ¬ (is_finish e = true ∧ has_id id e = true)) evs.
Proof.
  revert evs; induction lines as [|line lines IH]; intros evs Hall; simpl.
  - intros [= <-]. constructor.
  - inversion Hall as [|? ? Hline Hrest]; subst.
    destruct (decode_line line) as [oe|] eqn:Hl; [|done]; simpl.
    destruct (decode_all lines) as [evs'|]; [|done]; simpl.
    destruct oe as [e|]; intros [= <-]; [|auto].
    constructor; [|auto]. intros [Hf Hid]. apply Hline. by exists e.
Qed.

(** C6. A start event of [id] that no finish event of [id] follows adds no
    row: on a log whose lines all decode, the pipeline returns, the rows of
    [id] are those emitted before that start, and the attempt left open at
    the end of the stream raises nothing. *)
Theorem unfinished_attempt_discarded
    (id : Z) (before after : list str) (line : str) (evs : list Event) :
  starts id line → Forall (λ l, ¬ finishes id l) after →
  decode_all (before ++ line :: after) = Ok evs →
  ∃ rows rows0,
    parse_lines (before ++ line :: after) = Ok rows
    ∧ parse_lines before = Ok rows0
    ∧ rows_of_id id rows = rows_of_id id rows0.
Proof.
  intros (e & He & Hs & Hid) Hafter Hdec.
  exists (emitted (run evs Loop0)).
  assert (parse_lines (before ++ line :: after) = Ok (emitted (run evs Loop0))) as Hrows.
  { apply parse_lines_Ok. eauto. }
  apply decode_all_app in Hdec as (evs1 & evs2 & Hdec1 & Hdec2 & ->).
  simpl in Hdec2. rewrite He in Hdec2. simpl in Hdec2.
  destruct (decode_all after) as [evs3|] eqn:Hdec3; [|done].
  injection Hdec2 as <-.
  exists (emitted (run evs1 Loop0)). split; [done|]. split.
  { apply parse_lines_Ok. eauto. }
  rewrite run_app. simpl.
  assert (keyed (run evs1 Loop0)) as Hk.
  { apply keyed_run. intros ?? Hl. simpl in Hl. by rewrite lookup_empty in Hl. }
  rewrite run_no_finish;
    [|by apply keyed_handle|by eapply decode_all_no_finish].
  apply handle_no_finish; [done|].
  intros [Hf _]. apply start_not_finish in Hf. congruence.
Qed.

(** ** Classification of errors *)

Lemma find_first {A} (P : A → bool) (l : list A) (i : nat) (x : A) :
  l !! i = Some x → P x = true →
  (∀ j y, (j < i)%nat → l !! j = Some y → P y = false) →
  find P l = Some x.
Proof.
  revert i; induction l as [|a l IH]; intros i Hi Hx Hbefore; [done|].
  destruct i as [|i]; simpl in *.
  - injection Hi as ->. by rewrite Hx.
  - rewrite (Hbefore 0%nat a) by (done || lia).
    apply (IH i); [done..|]. intros j y Hj Hy. apply (Hbefore (S j)); [lia|done].
Qed.

Lemma find_none {A} (P : A → bool) (l : list A) :
  (∀ x, x ∈ l → P x = false) → find P l = None.
Proof.
  induction l as [|a l IH]; intros Hall; [done|]. simpl.
  rewrite Hall by left. apply IH. intros x Hx. apply Hall. by right.
Qed.

(** C2. [classify_error] looks for the markers in the lowered message and
    returns the first category, in the order dns, timeout, rate_limit,
    http_forbidden, http_unauthorized, tls_ssl, network_io, that has one of
    its markers there, and "other" when none has; when two categories match,
    the earlier one wins. *)
Theorem classify_error_priority (message : str) :
  classify_error message = classify_by_priority message
  ∧ (∀ i category,
       classification !! i = Some category →
       category_matches (str_lower message) category = true →
       (∀ j earlier, (j < i)%nat → classification !! j = Some earlier →
                     category_matches (str_lower message) earlier = false) →
       classify_error message = snd category)
  ∧ ((∀ category, category ∈ classification →
                  category_matches (str_lower message) category = false) →
     classify_error message = u "other")
  ∧ (snd <$> classification
     = [u "dns"; u "timeout"; u "rate_limit"; u "http_forbidden";
        u "http_unauthorized"; u "tls_ssl"; u "network_io"]).
Proof.
  assert (classify_error message = classify_by_priority message) as Heq.
  { unfold classify_error, classify_by_priority, classification, category_matches.
    cbn [find existsb fst snd]. generalize (str_lower message); intros lowered.
    repeat match goal with
           | |- context [contains ?m lowered] =>
             destruct (contains m lowered); cbn [orb]; try reflexivity
           end. }
  split; [done|]. rewrite Heq. unfold classify_by_priority. repeat split.
  - intros i category Hi Hm Hbefore. by rewrite (find_first _ _ i category).
  - intros Hnone. by rewrite find_none.
Qed.

(** ** The report and the export for no attempt *)

(** C9. For no completed attempt the report is the title and the sentence
    that no completed attempt was found, it has none of the breakdown
    sections, and nothing is exported. *)
Theorem empty_report :
  build_summary []
  = u "# AI training summary" ++ [NL; NL]
    ++ u "Нет завершённых попыток scanner_finish в логе." ++ [NL]
  ∧ contains (u "Нет завершённых попыток") (build_summary []) = true
  ∧ forallb (λ marker, negb (contains marker (build_summary []))) breakdown_markers = true
  ∧ export_lines [] = []
  ∧ main_outputs [] = Ok ([], build_summary []).
Proof. repeat split; vm_compute; reflexivity. Qed.

(** ** The matcher on the patterns of the program *)

Lemma rmatch_Lit {R} (l : str) (i : nat) (s : str) (cs : caps)
    (k : nat → str → caps → option R) :
  rmatch (Lit l) i s cs k
  = if starts_with l s then k (i + length l)%nat (drop (length l) s) cs else None.
Proof.
  revert i s; induction l as [|c l IH]; intros i s; simpl.
  - by rewrite Nat.add_0_r.
  - destruct s as [|a s]; [done|]. simpl.
    destruct (N.eqb_spec c a) as [->|Hne]; simpl; [|done].
    rewrite IH. by rewrite Nat.add_succ_r.
Qed.

(** A continuation that accepts the longest run is called with it. *)
Lemma star_longest {R} (p : N → bool) (i : nat) (s : str)
    (k : nat → str → option R) (x : R) :
  k (i + length (prefix_by p s))%nat (lstrip_by p s) = Some x →
  star p i s k = Some x.
Proof.
  revert i; induction s as [|c s IH]; intros i; simpl.
  - by rewrite Nat.add_0_r.
  - destruct (p c); simpl; [|by rewrite Nat.add_0_r].
    rewrite Nat.add_succ_r. intros Hk. by rewrite (IH (S i) Hk).
Qed.

Lemma take_prefix_by (p : N → bool) (s : str) :
  take (length (prefix_by p s)) s = prefix_by p s.
Proof. induction s as [|c s IH]; simpl; [done|]. destruct (p c); simpl; congruence. Qed.

(** ** The query of a start payload *)

Lemma query_re_here (i : nat) (s : str) :
  rmatch QUERY_RE i s [] (λ _ _ cs, Some cs)
  = (λ value, [(1%nat, value)]) <$> query_field_here s.
Proof.
  unfold QUERY_RE, query_field_here, Seqs. cbn [foldr].
  cbn [rmatch]. rewrite rmatch_Lit.
  destruct (starts_with (u "query=") s); [|done].
  change (length (u "query=")) with 6%nat.
  destruct (drop 6 s) as [|c t]; [done|]. cbn [rmatch Plus prefix_by].
  destruct (cls_not_comma_bar c); [|done].
  erewrite star_longest; [|reflexivity]. simpl.
  replace (S (i + 6 + length (prefix_by cls_not_comma_bar t)) - (i + 6))%nat
    with (S (length (prefix_by cls_not_comma_bar t))) by lia.
  simpl. by rewrite take_prefix_by.
Qed.

Lemma query_re_search (i : nat) (s : str) :
  search_from QUERY_RE i s = (λ value, [(1%nat, value)]) <$> first_query_field s.
Proof.
  revert i; induction s as [|c s IH]; intros i.
  - done.
  - cbn [search_from first_query_field]. rewrite query_re_here.
    destruct (query_field_here (c :: s)); [done|]. simpl. apply IH.
Qed.

Lemma extract_first_query (payload : str) :
  extract_first QUERY_RE payload [] = default [] (strip <$> first_query_field payload).
Proof.
  unfold extract_first, re_search. rewrite query_re_search.
  by destruct (first_query_field payload).
Qed.

Lemma length_lstrip_by (p : N → bool) (s : str) : (length (lstrip_by p s) ≤ length s)%nat.
Proof. induction s as [|c s IH]; simpl; [done|]. destruct (p c); simpl; lia. Qed.

Lemma collapse_ws_run (c : N) (s : str) :
  is_space c = true → collapse_ws (c :: s) = 32%N :: collapse_ws (lstrip_by is_space s).
Proof.
  revert c; induction s as [|c' s IH]; intros c Hc.
  - cbn [collapse_ws lstrip_by]. rewrite Hc. reflexivity.
  - destruct (is_space c') eqn:Hc'.
    + cbn [lstrip_by]. rewrite Hc', <- (IH c' Hc').
      change (collapse_ws (c :: c' :: s))
        with (if is_space c
              then if is_space c' then collapse_ws (c' :: s)
                   else 32%N :: collapse_ws (c' :: s)
              else c :: collapse_ws (c' :: s)).
      by rewrite Hc, Hc'.
    + cbn [lstrip_by]. rewrite Hc'.
      change (collapse_ws (c :: c' :: s))
        with (if is_space c
              then if is_space c' then collapse_ws (c' :: s)
                   else 32%N :: collapse_ws (c' :: s)
              else c :: collapse_ws (c' :: s)).
      by rewrite Hc, Hc'.
Qed.

Lemma sub_from_spaces (fuel i : nat) (s : str) :
  (length s < fuel)%nat → sub_from fuel SPACES_RE (u " ") i s = collapse_ws s.
Proof.
  revert i s; induction fuel as [|fuel IH]; intros i s Hlen; [lia|].
  destruct s as [|c s]; [done|].
  cbn [sub_from SPACES_RE Plus rmatch].
  destruct (is_space c) eqn:Hc.
  - erewrite star_longest; [|reflexivity]. cbv beta iota.
    rewrite bool_decide_eq_false_2 by lia.
    rewrite IH by (pose proof (length_lstrip_by is_space s); simpl in Hlen; lia).
    by rewrite collapse_ws_run.
  - rewrite IH by (simpl in Hlen; lia). simpl. by rewrite Hc.
Qed.

Lemma re_sub_spaces (s : str) : re_sub SPACES_RE (u " ") s = collapse_ws s.
Proof. unfold re_sub. apply sub_from_spaces. lia. Qed.

(** *** Stripping *)

Lemma lstrip_by_snoc (p : N → bool) (s : str) (c : N) :
  lstrip_by p (s ++ [c])
  = match lstrip_by p s with
    | [] => if p c then [] else [c]
    | r => r ++ [c]
    end.
Proof.
  induction s as [|a s IH]; simpl; [done|].
  destruct (p a); [done|]. done.
Qed.

Lemma rstrip_by_cons (p : N → bool) (c : N) (s : str) :
  rstrip_by p (c :: s)
  = match rstrip_by p s with
    | [] => if p c then [] else [c]
    | r => c :: r
    end.
Proof.
  unfold rstrip_by. rewrite reverse_cons, lstrip_by_snoc.
  destruct (lstrip_by p (reverse s)) as [|a r] eqn:Hr.
  - by destruct (p c).
  - rewrite reverse_snoc. destruct (reverse (a :: r)) eqn:Hrev; [|done].
    apply (f_equal length) in Hrev. rewrite length_reverse in Hrev. done.
Qed.

Lemma lstrip_by_id (p : N → bool) (s : str) :
  match s with c :: _ => p c = false | [] => True end → lstrip_by p s = s.
Proof. destruct s as [|c s]; [done|]. simpl. by intros ->. Qed.

Lemma rstrip_by_id (p : N → bool) (s : str) :
  match last s with Some c => p c = false | None => True end → rstrip_by p s = s.
Proof.
  induction s as [|c s IH]; [done|]. rewrite rstrip_by_cons.
  destruct s as [|c' s]; simpl.
  - by intros ->.
  - intros Hlast. rewrite IH by done. done.
Qed.

Lemma rstrip_by_head (p : N → bool) (s : str) :
  match s with c :: _ => p c = false | [] => True end →
  match rstrip_by p s with c :: _ => p c = false | [] => True end.
Proof.
  destruct s as [|c s]; [done|]. intros Hc. rewrite rstrip_by_cons.
  destruct (rstrip_by p s); [by rewrite Hc|done].
Qed.

Lemma lstrip_by_head (p : N → bool) (s : str) :
  match lstrip_by p s with c :: _ => p c = false | [] => True end.
Proof.
  induction s as [|c s IH]; [done|]. simpl. destruct (p c) eqn:Hc; [done|]. done.
Qed.

Lemma rstrip_by_last (p : N → bool) (s : str) :
  match last (rstrip_by p s) with Some c => p c = false | None => True end.
Proof.
  induction s as [|c s IH]; [done|]. rewrite rstrip_by_cons.
  destruct (rstrip_by p s) as [|a r] eqn:Hr.
  - destruct (p c) eqn:Hc; [done|]. done.
  - by rewrite last_cons_cons.
Qed.

Lemma strip_by_idemp (p : N → bool) (s : str) :
  strip_by p (strip_by p s) = strip_by p s.
Proof.
  unfold strip_by.
  rewrite (lstrip_by_id p (rstrip_by p (lstrip_by p s)))
    by (apply rstrip_by_head, lstrip_by_head).
  apply rstrip_by_id, rstrip_by_last.
Qed.

Lemma strip_by_id (p : N → bool) (s : str) :
  match s with c :: _ => p c = false | [] => True end →
  match last s with Some c => p c = false | None => True end →
  strip_by p s = s.
Proof. intros Hh Hl. unfold strip_by. rewrite lstrip_by_id by done. by apply rstrip_by_id. Qed.

Lemma collapse_ws_id (s : str) : single_spaced s = true → collapse_ws s = s.
Proof.
  induction s as [|c s IH]; [done|]. cbn [single_spaced collapse_ws].
  destruct (is_space c) eqn:Hc.
  - intros [[Hsp Hnext]%andb_true_iff Hrest]%andb_true_iff.
    apply N.eqb_eq in Hsp as ->.
    destruct s as [|c' s]; [done|]. apply negb_true_iff in Hnext. rewrite Hnext.
    by rewrite IH.
  - simpl. intros Hrest. by rewrite IH.
Qed.

Lemma normalize_query_extract (payload : str) :
  normalize_query (extract_first QUERY_RE payload [])
  = match first_query_field payload with
    | Some value => strip_by query_punct (collapse_ws (strip value))
    | None => []
    end.
Proof.
  unfold normalize_query. rewrite extract_first_query, re_sub_spaces.
  destruct (first_query_field payload) as [value|]; simpl; [|done].
  unfold strip. by rewrite strip_by_idemp.
Qed.

Lemma normalize_query_tidy (value : str) :
  no_leading_punct value = true → no_trailing_punct value = true →
  single_spaced value = true →
  strip_by query_punct (collapse_ws (strip value)) = value.
Proof.
  unfold no_leading_punct, no_trailing_punct. intros Hh Hl Hs.
  unfold strip.
  rewrite (strip_by_id is_space value), (collapse_ws_id _ Hs),
    (strip_by_id query_punct value); try done.
  - destruct value; [done|]. by apply andb_true_iff in Hh as [_ ?%negb_true_iff].
  - destruct (last value); [|done]. by apply andb_true_iff in Hl as [_ ?%negb_true_iff].
  - destruct value; [done|]. by apply andb_true_iff in Hh as [?%negb_true_iff _].
  - destruct (last value); [|done]. by apply andb_true_iff in Hl as [?%negb_true_iff _].
Qed.

(** C8, as the code has it. The query a start event stores for its attempt
    is the value of the first [query=...] field of the payload (up to the
    next comma or bar), stripped of whitespace at both ends, its whitespace
    runs collapsed to one space, then stripped at both ends of blanks,
    commas, periods and semicolons; with no such field it is empty. A value
    with no punctuation or whitespace at either end and single-space-separated
    words is stored verbatim. *)
Theorem query_of_start_event (st : Loop) (e : Event) (id : Z) :
  is_start e = true → ev_attempt e = Some id →
  ∃ state,
    attempts (handle st e) !! id = Some state
    ∧ query state
      = match first_query_field (ev_msg e) with
        | Some value => strip_chars (u " ,.;") (collapse_ws (strip value))
        | None => []
        end
    ∧ (∀ value,
         first_query_field (ev_msg e) = Some value →
         no_leading_punct value = true → no_trailing_punct value = true →
         single_spaced value = true →
         query state = value).
Proof.
  intros Hs Hid. rewrite (handle_start st e id Hs Hid). simpl.
  eexists. split; [apply lookup_insert_eq|]. simpl.
  rewrite normalize_query_extract. split; [done|].
  intros value -> Hh Hl Hsp. by apply normalize_query_tidy.
Qed.

(** ** Soundness of the matcher *)

Lemma star_inv {R} (p : N → bool) (i : nat) (s : str)
    (k : nat → str → option R) (x : R) :
  star p i s k = Some x →
  ∃ run s', s = run ++ s' ∧ forallb p run = true
            ∧ k (i + length run)%nat s' = Some x.
Proof.
  revert i; induction s as [|c s IH]; intros i; simpl.
  - intros Hk. exists [], []. by rewrite Nat.add_0_r.
  - destruct (p c) eqn:Hc.
    + destruct (star p (S i) s k) as [y|] eqn:Hstar.
      * intros [= ->]. apply IH in Hstar as (run & s' & -> & Hrun & Hk).
        exists (c :: run), s'. simpl. rewrite Hc, Hrun, Nat.add_succ_r. done.
      * intros Hk. exists [], (c :: s). by rewrite Nat.add_0_r.
    + intros Hk. exists [], (c :: s). by rewrite Nat.add_0_r.
Qed.

(** Whatever the matcher answers, it got from its continuation at the end
    of a match. *)
Lemma rmatch_matches {R} (r : regex) (i : nat) (s : str) (cs : caps)
    (k : nat → str → caps → option R) (x : R) :
  rmatch r i s cs k = Some x →
  ∃ i' s' cs', matches r i s cs i' s' cs' ∧ k i' s' cs' = Some x.
Proof.
  revert i s cs k; induction r as [|p|r1 IH1 r2 IH2|r1 IH1 r2 IH2|p|n r IH| |];
    intros i s cs k; simpl.
  - intros Hk. by exists i, s, cs.
  - destruct s as [|c s]; [done|]. destruct (p c) eqn:Hc; [|done].
    intros Hk. exists (S i), s, cs. split; [by exists c|done].
  - intros (i1 & s1 & cs1 & H1 & (i' & s' & cs' & H2 & Hk)%IH2)%IH1.
    exists i', s', cs'. split; [by exists i1, s1, cs1|done].
  - destruct (rmatch r1 i s cs k) as [y|] eqn:Hr1.
    + intros [= ->]. apply IH1 in Hr1 as (i' & s' & cs' & H1 & Hk).
      exists i', s', cs'. auto.
    + intros (i' & s' & cs' & H2 & Hk)%IH2. exists i', s', cs'. auto.
  - intros (run & s' & -> & Hrun & Hk)%star_inv.
    exists (i + length run)%nat, s', cs. split; [by exists run|done].
  - intros (i' & s' & cs1 & Hr & Hk)%IH.
    exists i', s', ((n, take (i' - i) s) :: cs1). split; [by exists cs1|done].
  - case_bool_decide; [|done]. intros Hk. by exists i, s, cs.
  - destruct s as [|c [|c' s]]; [| |done].
    + intros Hk. exists i, [], cs. auto.
    + destruct (N.eqb_spec c NL) as [->|]; [|done].
      intros Hk. exists i, [NL], cs. auto.
Qed.

(** A match consumes a prefix of what is left of the subject. *)
Lemma matches_consumed (r : regex) (i : nat) (s : str) (cs : caps)
    (i' : nat) (s' : str) (cs' : caps) :
  matches r i s cs i' s' cs' →
  ∃ read, s = read ++ s' ∧ i' = (i + length read)%nat.
Proof.
  revert i s cs i' s' cs'; induction r as [|p|r1 IH1 r2 IH2|r1 IH1 r2 IH2|p|n r IH| |];
    intros i s cs i' s' cs'; simpl.
  - intros (-> & -> & _). exists []. by rewrite Nat.add_0_r.
  - intros (c & -> & _ & -> & _). exists [c]. simpl. split; [done|lia].
  - intros (i1 & s1 & cs1 & (read1 & -> & ->)%IH1 & (read2 & -> & ->)%IH2).
    exists (read1 ++ read2). rewrite length_app, <- app_assoc. split; [done|lia].
  - intros [Hm|Hm]; eauto.
  - intros (run & -> & _ & -> & _). by exists run.
  - intros (cs1 & Hm & _). eauto.
  - intros (_ & -> & -> & _). exists []. by rewrite Nat.add_0_r.
  - intros (_ & -> & -> & _). exists []. by rewrite Nat.add_0_r.
Qed.

(** The text of a group over a repeated class: characters of the class,
    read from what was left. *)
Lemma matches_group_plus (p : N → bool) (n i : nat) (s : str) (cs : caps)
    (i' : nat) (s' : str) (cs' : caps) :
  matches (Group n (Plus p)) i s cs i' s' cs' →
  ∃ text, cs' = (n, text) :: cs ∧ text ≠ []
          ∧ forallb p text = true ∧ s = text ++ s'.
Proof.
  simpl. intros (cs1 & (i1 & s1 & cs2 & (c & -> & Hc & -> & ->)
                        & (run & -> & Hrun & -> & ->)) & ->).
  exists (c :: run).
  replace (S i + length run - i)%nat with (S (length run)) by lia.
  simpl. rewrite take_app_length, Hc, Hrun. done.
Qed.

Lemma matches_group_star (p : N → bool) (n i : nat) (s : str) (cs : caps)
    (i' : nat) (s' : str) (cs' : caps) :
  matches (Group n (Star p)) i s cs i' s' cs' →
  ∃ text, cs' = (n, text) :: cs ∧ forallb p text = true ∧ s = text ++ s'.
Proof.
  simpl. intros (cs1 & (run & -> & Hrun & -> & ->) & ->).
  exists run. replace (i + length run - i)%nat with (length run) by lia.
  by rewrite take_app_length.
Qed.

Lemma matches_Lit (l : str) (i : nat) (s : str) (cs : caps)
    (i' : nat) (s' : str) (cs' : caps) :
  matches (Lit l) i s cs i' s' cs' → cs' = cs ∧ s = l ++ s'.
Proof.
  revert i s; induction l as [|c l IH]; intros i s; simpl.
  - by intros (_ & -> & ->).
  - intros (i1 & s1 & cs1 & (a & -> & ->%N.eqb_eq & -> & ->) & [-> ->]%IH). done.
Qed.

Lemma matches_Star (p : N → bool) (i : nat) (s : str) (cs : caps)
    (i' : nat) (s' : str) (cs' : caps) :
  matches (Star p) i s cs i' s' cs' → cs' = cs ∧ ∃ run, s = run ++ s'.
Proof. simpl. intros (run & -> & _ & _ & ->). eauto. Qed.

Lemma matches_Seqs_cons (r : regex) (rs : list regex) (i : nat) (s : str) (cs : caps)
    (i' : nat) (s' : str) (cs' : caps) :
  matches (Seqs (r :: rs)) i s cs i' s' cs' →
  ∃ i1 s1 cs1, matches r i s cs i1 s1 cs1 ∧ matches (Seqs rs) i1 s1 cs1 i' s' cs'.
Proof. done. Qed.

(** The groups of a line that matches [LINE_RE]. *)
Lemma line_re_groups (line : str) (m : caps) :
  re_match LINE_RE line = Some m →
  ∃ ts status playlist msg,
    m = [(4%nat, msg); (3%nat, playlist); (2%nat, status); (1%nat, ts)]
    ∧ ts ≠ [] ∧ forallb is_decimal ts = true
    ∧ (length ts ≤ length line)%nat ∧ (length msg ≤ length line)%nat.
Proof.
  unfold re_match. intros (i' & s' & cs' & Hm & [= ->])%rmatch_matches.
  unfold LINE_RE in Hm.
  apply matches_Seqs_cons in Hm as (i1 & s1 & cs1 & (_ & -> & -> & ->) & Hm).
  apply matches_Seqs_cons in Hm as (i2 & s2 & cs2 & [-> [ws0 ->]]%matches_Star & Hm).
  apply matches_Seqs_cons in Hm
    as (i3 & s3 & cs3 & (ts & -> & Hts & Hdec & ->)%matches_group_plus & Hm).
  apply matches_Seqs_cons in Hm as (i4 & s4 & cs4 & [-> [ws1 ->]]%matches_Star & Hm).
  apply matches_Seqs_cons in Hm as (i5 & s5 & cs5 & [-> ->]%matches_Lit & Hm).
  apply matches_Seqs_cons in Hm as (i6 & s6 & cs6 & [-> [ws2 ->]]%matches_Star & Hm).
  apply matches_Seqs_cons in Hm
    as (i7 & s7 & cs7 & (status & -> & _ & _ & ->)%matches_group_plus & Hm).
  apply matches_Seqs_cons in Hm as (i8 & s8 & cs8 & [-> [ws3 ->]]%matches_Star & Hm).
  apply matches_Seqs_cons in Hm as (i9 & s9 & cs9 & [-> ->]%matches_Lit & Hm).
  apply matches_Seqs_cons in Hm as (i10 & s10 & cs10 & [-> [ws4 ->]]%matches_Star & Hm).
  apply matches_Seqs_cons in Hm as (i11 & s11 & cs11 & [-> ->]%matches_Lit & Hm).
  apply matches_Seqs_cons in Hm
    as (i12 & s12 & cs12 & (playlist & -> & _ & ->)%matches_group_star & Hm).
  apply matches_Seqs_cons in Hm as (i13 & s13 & cs13 & [-> ->]%matches_Lit & Hm).
  apply matches_Seqs_cons in Hm as (i14 & s14 & cs14 & [-> [ws5 ->]]%matches_Star & Hm).
  apply matches_Seqs_cons in Hm
    as (i15 & s15 & cs15 & (msg & -> & _ & ->)%matches_group_star & Hm).
  apply matches_Seqs_cons in Hm as (i16 & s16 & cs16 & (_ & -> & -> & ->) & Hm).
  destruct Hm as (-> & -> & ->).
  exists ts, status, playlist, msg. repeat split; try done.
  - rewrite !length_app. lia.
  - rewrite !length_app. lia.
Qed.

(** The digits of the first [attempt=] field, when the search finds one. *)
Lemma attempt_re_groups (i : nat) (message : str) (m : caps) :
  search_from ATTEMPT_RE i message = Some m →
  ∃ digits, m = [(1%nat, digits)] ∧ digits ≠ []
            ∧ forallb is_decimal digits = true
            ∧ (length digits ≤ length message)%nat.
Proof.
  revert i; induction message as [|c message IH]; intros i.
  - intros Hsearch. exfalso. revert Hsearch. clear. vm_compute. discriminate.
  - cbn [search_from].
    destruct (rmatch ATTEMPT_RE i (c :: message) [] (λ _ _ cs, Some cs)) as [m'|] eqn:Hm.
    + intros [= ->]. apply rmatch_matches in Hm as (i' & s' & cs' & Hm & [= ->]).
      unfold ATTEMPT_RE in Hm.
      apply matches_Seqs_cons in Hm as (i1 & s1 & cs1 & [-> Hs]%matches_Lit & Hm).
      apply matches_Seqs_cons in Hm
        as (i2 & s2 & cs2 & (digits & -> & Hne & Hdec & ->)%matches_group_plus & Hm).
      destruct Hm as (-> & -> & ->).
      exists digits. repeat split; try done.
      rewrite Hs, !length_app. lia.
    + intros (digits & -> & Hne & Hdec & Hlen)%IH.
      exists digits. repeat split; try done. simpl. lia.
Qed.

Lemma py_int_digits (digits : str) :
  digits ≠ [] → forallb is_decimal digits = true →
  (length digits ≤ int_max_str_digits)%nat →
  ∃ n, py_int digits = Ok n.
Proof.
  intros Hne Hdec Hlen. unfold py_int.
  assert (is_Some (mapM decimal_value digits)) as [ds Hds].
  { apply mapM_is_Some. apply Forall_forall. intros c Hc.
    rewrite forallb_forall in Hdec. apply list_elem_of_In, Hdec in Hc.
    unfold is_decimal in Hc. by apply bool_decide_eq_true in Hc. }
  rewrite Hds. destruct ds as [|d ds].
  - apply length_mapM in Hds. by destruct digits.
  - rewrite bool_decide_eq_false_2 by lia. eauto.
Qed.

Lemma length_rstrip_by (p : N → bool) (s : str) : (length (rstrip_by p s) ≤ length s)%nat.
Proof.
  unfold rstrip_by. rewrite length_reverse.
  etrans; [apply length_lstrip_by|]. by rewrite length_reverse.
Qed.

Lemma length_strip (s : str) : (length (strip s) ≤ length s)%nat.
Proof.
  unfold strip, strip_by.
  etrans; [apply length_rstrip_by|]. apply length_lstrip_by.
Qed.

(** ** When the pipeline returns, and when it raises *)

(** On a line of at most 4300 characters no [int] call can fail. *)
Lemma decode_line_short (line : str) :
  (length line ≤ int_max_str_digits)%nat → ∃ oe, decode_line line = Ok oe.
Proof.
  intros Hlen. unfold decode_line.
  destruct (re_match LINE_RE line) as [m|] eqn:Hm; [|eauto].
  apply line_re_groups in Hm
    as (ts & status & playlist & msg & -> & Hts & Hdec & Hlts & Hlmsg).
  change (group 1 _) with ts. change (group 2 _) with status.
  change (group 4 _) with msg.
  destruct (py_int_digits ts) as [n ->]; [done..|lia|]. simpl.
  unfold parse_attempt_id, re_search.
  destruct (search_from ATTEMPT_RE 0 (strip msg)) as [m|] eqn:Hsearch; simpl; [|eauto].
  apply attempt_re_groups in Hsearch as (digits & -> & Hne & Hdec' & Hld).
  change (group 1 _) with digits.
  pose proof (length_strip msg).
  destruct (py_int_digits digits) as [id ->]; [done..|lia|]. simpl. eauto.
Qed.

Lemma decode_all_short (lines : list str) :
  Forall (λ line, (length line ≤ int_max_str_digits)%nat) lines →
  ∃ evs, decode_all lines = Ok evs.
Proof.
  induction 1 as [|line lines Hline _ [evs IH]]; simpl; [eauto|].
  destruct (decode_line_short line Hline) as [oe ->]. rewrite IH. simpl. eauto.
Qed.

(** The pipeline returns on every log whose lines have at most 4300
    characters: it can only raise through [int] on a longer run of digits. *)
Lemma pipeline_returns_on_short_lines (lines : list str) :
  Forall (λ line, (length line ≤ int_max_str_digits)%nat) lines →
  ∃ rows, parse_lines lines = Ok rows
          ∧ main_outputs lines = Ok (export_lines rows, build_summary rows).
Proof.
  intros [evs Hevs]%decode_all_short.
  exists (emitted (run evs Loop0)).
  assert (parse_lines lines = Ok (emitted (run evs Loop0))) as Hrows.
  { apply parse_lines_Ok. eauto. }
  split; [done|]. unfold main_outputs. by rewrite Hrows.
Qed.

(** ** Numbers too long for [int] *)

(** C7 fails on these inputs: a timestamp or an attempt id of 4301 digits
    makes [parse_lines] raise [ValueError], while a result count of that
    length is caught by [parse_found_count] and read as 0. *)
Theorem long_number_raises :
  parse_lines [long_timestamp_line] = Raise ValueError
  ∧ parse_lines [long_attempt_line] = Raise ValueError
  ∧ match parse_lines long_count_lines with
    | Ok rows => row_found <$> rows = [0]
    | Raise _ => False
    end.
Proof. split; [|split]; vm_compute; reflexivity. Qed.

(** ** Runs of a character class *)

Lemma prefix_by_app (p : N → bool) (a b : str) :
  forallb p a = true →
  prefix_by p (a ++ b) = a ++ prefix_by p b ∧ lstrip_by p (a ++ b) = lstrip_by p b.
Proof.
  induction a as [|c a IH]; [done|]. cbn [forallb].
  intros [Hc Ha]%andb_true_iff. destruct (IH Ha) as [IH1 IH2].
  rewrite <- app_comm_cons. cbn [prefix_by lstrip_by]. by rewrite Hc, IH1, IH2.
Qed.

Lemma prefix_by_stop (p : N → bool) (a : str) (c : N) (b : str) :
  forallb p a = true → p c = false →
  prefix_by p (a ++ c :: b) = a ∧ lstrip_by p (a ++ c :: b) = c :: b.
Proof.
  intros Ha Hc. destruct (prefix_by_app p a (c :: b) Ha) as [-> ->].
  cbn [prefix_by lstrip_by]. by rewrite Hc, app_nil_r.
Qed.

Lemma prefix_by_all (p : N → bool) (a : str) :
  forallb p a = true → prefix_by p a = a ∧ lstrip_by p a = [].
Proof.
  intros Ha. destruct (prefix_by_app p a [] Ha) as [H1 H2].
  rewrite app_nil_r in H1, H2. by rewrite H1, H2, app_nil_r.
Qed.

(** Digits are not whitespace. *)
Lemma is_space_cases (c : N) :
  is_space c = true →
  ((9 ≤ c ≤ 13) ∨ (28 ≤ c ≤ 32) ∨ c = 133 ∨ c = 160 ∨ c = 5760
   ∨ (8192 ≤ c ≤ 8202) ∨ c = 8232 ∨ c = 8233 ∨ c = 8239 ∨ c = 8287 ∨ c = 12288)%N.
Proof.
  unfold is_space.
  rewrite !orb_true_iff, !andb_true_iff, !N.leb_le, !N.eqb_eq. tauto.
Qed.

Lemma decimal_not_space (c : N) : is_decimal c = true → is_space c = false.
Proof.
  unfold is_decimal, decimal_value. intros [z Hz]%bool_decide_eq_true.
  apply fmap_Some in Hz as (zero & Hfind & _).
  apply find_some in Hfind as [Hin [Hlo Hhi]%andb_true_iff].
  apply N.leb_le in Hlo. apply N.ltb_lt in Hhi.
  assert (Forall (λ z, ∀ c, (z ≤ c < z + 10)%N → is_space c = false) decimal_zeros)
    as Hall.
  { unfold decimal_zeros.
    repeat constructor; intros c' Hc'; (destruct (is_space c') eqn:Hsp; [|done]);
      apply is_space_cases in Hsp; lia. }
  rewrite Forall_forall in Hall. apply (Hall zero); [by apply list_elem_of_In|lia].
Qed.

Lemma py_int_Ok_digits (s : str) (n : Z) :
  py_int s = Ok n → forallb is_decimal s = true ∧ ∃ c t, s = c :: t.
Proof.
  unfold py_int. destruct (mapM decimal_value s) as [[|d ds]|] eqn:Hm; [done| |done].
  intros _. split.
  - apply forallb_forall. intros c Hc%list_elem_of_In.
    assert (is_Some (mapM decimal_value s)) as Hsome by eauto.
    apply mapM_is_Some in Hsome. rewrite Forall_forall in Hsome.
    unfold is_decimal. apply bool_decide_eq_true. by apply Hsome.
  - apply length_mapM in Hm. destruct s as [|c t]; [done|eauto].
Qed.

(** ** The result count of a payload *)

Lemma starts_with_app (l s : str) : starts_with l (l ++ s) = true.
Proof. induction l as [|c l IH]; simpl; [done|]. by rewrite N.eqb_refl. Qed.

Lemma prefix_by_ahead (p : N → bool) (a b : str) :
  forallb p a = true →
  match b with c :: _ => p c = false | [] => True end →
  prefix_by p (a ++ b) = a ∧ lstrip_by p (a ++ b) = b.
Proof.
  intros Ha Hb. destruct b as [|c b].
  - rewrite app_nil_r. by apply prefix_by_all.
  - by apply prefix_by_stop.
Qed.

(** A greedy run of a class whose continuation fails on every subject that
    begins in the class stops at the end of the run. *)
Lemma star_backtrack {R} (p : N → bool) (i : nat) (s : str)
    (k : nat → str → option R) (f : str → option R) :
  (∀ j t, k j t = f t) → (∀ c t, p c = true → f (c :: t) = None) →
  star p i s k = f (lstrip_by p s).
Proof.
  intros Hk Hf. revert i; induction s as [|c s IH]; intros i; simpl; [done|].
  destruct (p c) eqn:Hc; [|done].
  rewrite IH. destruct (f (lstrip_by p s)); [done|].
  by rewrite Hk, Hf.
Qed.

Lemma rmatch_digits (j : nat) (t : str) (cs : caps) :
  rmatch (Seq (Group 1 (Plus is_decimal)) Eps) j t cs (λ _ _ cs', Some cs')
  = (λ digits, (1%nat, digits) :: cs) <$> digits_here t.
Proof.
  unfold digits_here. destruct t as [|c t]; [done|].
  cbn [rmatch Plus prefix_by]. destruct (is_decimal c); [|done].
  apply star_longest.
  replace (S j + length (prefix_by is_decimal t) - j)%nat
    with (S (length (prefix_by is_decimal t))) by lia.
  cbn [take]. by rewrite take_prefix_by.
Qed.

Lemma digits_here_space (c : N) (t : str) :
  is_space c = true → digits_here (c :: t) = None.
Proof.
  intros Hc. unfold digits_here. cbn [prefix_by].
  destruct (is_decimal c) eqn:Hd; [|done].
  apply decimal_not_space in Hd. congruence.
Qed.

Lemma found_re_here (i : nat) (s : str) :
  rmatch FOUND_RE i s [] (λ _ _ cs, Some cs)
  = (λ digits, [(1%nat, digits)]) <$> count_here s.
Proof.
  unfold FOUND_RE, count_here, Seqs. cbn [foldr].
  change (rmatch (Seq (Alt ?a ?b) ?r) i s [] ?k)
    with (match rmatch a i s [] (λ i' s' cs', rmatch r i' s' cs' k) with
          | Some x => Some x
          | None => rmatch b i s [] (λ i' s' cs', rmatch r i' s' cs' k)
          end).
  rewrite rmatch_Lit. change (length (u "results=")) with 8%nat.
  destruct (starts_with (u "results=") s) eqn:Hres.
  - rewrite rmatch_digits. destruct (digits_here (drop 8 s)); [done|].
    cbn [rmatch]. rewrite rmatch_Lit.
    assert (starts_with (u "Найдено") s = false) as ->; [|done].
    destruct s as [|c s]; [done|].
    revert Hres. change (u "results=") with (114%N :: u "esults=").
    change (u "Найдено") with (1053%N :: u "айдено"). cbn [starts_with].
    destruct (N.eqb_spec 114 c) as [<-|]; [done|]. done.
  - change (rmatch (Seq ?a ?b) i s [] ?k)
      with (rmatch a i s [] (λ i' s' cs', rmatch b i' s' cs' k)).
    rewrite rmatch_Lit. change (length (u "Найдено")) with 7%nat.
    destruct (starts_with (u "Найдено") s); [|done].
    destruct (drop 7 s) as [|c t]; [done|].
    cbn [rmatch Plus prefix_by lstrip_by]. destruct (is_space c); [|done].
    rewrite (star_backtrack is_space _ t _
               (λ t', (λ digits, [(1%nat, digits)]) <$> digits_here t')).
    + done.
    + intros j t'. apply rmatch_digits.
    + intros c' t' Hc'. by rewrite digits_here_space.
Qed.

Lemma found_re_search (i : nat) (s : str) :
  search_from FOUND_RE i s = (λ digits, [(1%nat, digits)]) <$> first_count s.
Proof.
  revert i; induction s as [|c s IH]; intros i.
  - cbn [search_from first_count]. rewrite found_re_here.
    by destruct (count_here []).
  - cbn [search_from first_count]. rewrite found_re_here.
    destruct (count_here (c :: s)); [done|]. simpl. apply IH.
Qed.

Lemma parse_found_count_recovered (message : str) :
  parse_found_count message = recovered_count message.
Proof.
  unfold parse_found_count, recovered_count, re_search. rewrite found_re_search.
  destruct (first_count message) as [digits|]; [|done]. simpl.
  change (group 1 [(1%nat, digits)]) with digits.
  by destruct (py_int digits) as [n|[]].
Qed.

Lemma first_count_skip (pre rest : str) :
  no_count_within pre rest → first_count (pre ++ rest) = first_count rest.
Proof.
  induction pre as [|c pre IH]; intros Hno; [done|].
  rewrite <- app_comm_cons. cbn [first_count].
  pose proof (Hno 0%nat ltac:(simpl; lia)) as H0. simpl in H0. rewrite H0.
  apply IH. intros k Hk. apply (Hno (S k)). simpl. lia.
Qed.

Lemma digits_here_run (digits rest : str) :
  digits ≠ [] → forallb is_decimal digits = true → no_digit_ahead rest →
  digits_here (digits ++ rest) = Some digits.
Proof.
  intros Hne Hd Hrest. unfold digits_here.
  destruct (prefix_by_ahead is_decimal digits rest Hd) as [-> _].
  { by destruct rest. }
  by destruct digits.
Qed.

Lemma count_here_marker (marker digits rest : str) :
  count_marker marker → digits ≠ [] → forallb is_decimal digits = true →
  no_digit_ahead rest →
  count_here (marker ++ digits ++ rest) = Some digits.
Proof.
  intros [->|(ws & Hws & Hsp & ->)] Hne Hd Hrest; unfold count_here.
  - rewrite starts_with_app. change 8%nat with (length (u "results=")).
    rewrite drop_app_length. by apply digits_here_run.
  - rewrite <- app_assoc.
    assert (starts_with (u "results=") (u "Найдено" ++ ws ++ digits ++ rest) = false)
      as -> by reflexivity.
    rewrite starts_with_app. change 7%nat with (length (u "Найдено")).
    rewrite drop_app_length.
    destruct digits as [|d digits]; [done|].
    assert (is_space d = false) as Hd0.
    { apply decimal_not_space. cbn [forallb] in Hd.
      by apply andb_true_iff in Hd as [? _]. }
    change ((d :: digits) ++ rest) with (d :: (digits ++ rest)).
    destruct (prefix_by_stop is_space ws d (digits ++ rest) Hsp Hd0) as [-> ->].
    destruct ws as [|w ws]; [done|].
    by apply (digits_here_run (d :: digits) rest).
Qed.

(** C3. The found value of the row of a closed attempt is the maximum of the
    result counts of its success-like events ([scanner_ok], [scanner_step_ok],
    [scanner_finish]), taken in arrival order from 0; events of other statuses
    do not enter it. The count of a payload is the number written after its
    first "results=" or "Найдено" marker, as [int] reads it; a payload
    without a count, or with one that [int] rejects, counts for 0. *)
Theorem found_of_closed_attempt (lines : list str) (a : Attempt) :
  closed_attempt_of lines a →
  ∃ rows,
    parse_lines lines = Ok rows
    ∧ row_of a ∈ rows
    ∧ row_found (row_of a) = foldl Z.max 0 (result_counts a)
    ∧ row_found (row_of a) ∈ result_counts a
    ∧ (∀ c, c ∈ result_counts a → c ≤ row_found (row_of a))
    ∧ (∀ e, success_like e = true ↔
            ev_status e ∈ [u "scanner_ok"; u "scanner_finish"; u "scanner_step_ok"])
    ∧ (∀ message,
         (∀ m n, re_search FOUND_RE message = Some m → py_int (group 1 m) ≠ Ok n) →
         parse_found_count message = 0)
    ∧ result_counts a
      = (λ e, recovered_count (ev_msg e))
        <$> filter (λ e, success_like e = true) (later_events a)
    ∧ (∀ message, parse_found_count message = recovered_count message)
    ∧ (∀ pre marker digits rest n,
         count_marker marker → no_count_within pre (marker ++ digits ++ rest) →
         py_int digits = Ok n → no_digit_ahead rest →
         parse_found_count (pre ++ marker ++ digits ++ rest) = n).
Proof.
  intros Ha. destruct (closed_attempt_row lines a Ha) as (rows & Hrows & Hrow).
  exists rows. split; [done|]. split; [done|]. clear rows Hrows Hrow.
  assert (row_found (row_of a) = foldl Z.max 0 (result_counts a)) as Hfound
    by apply final_found.
  split; [done|]. rewrite Hfound.
  split; [|split; [|split; [|split; [|split; [|split]]]]].
  - destruct (foldl_max_elem (result_counts a) 0) as [H0|Hin]; [|done].
    rewrite H0.
    assert (parse_found_count (ev_msg (a_finish a)) ∈ result_counts a) as Hfin.
    { destruct Ha as (evs & _ & pre & mid & post & _ & _ & _ & Hf & _).
      unfold result_counts, later_events.
      rewrite filter_app, fmap_app. apply elem_of_app; right.
      rewrite filter_cons_True; [by left|].
      unfold success_like, status_in. apply bool_decide_eq_true.
      unfold is_finish, str_eqb in Hf. apply bool_decide_eq_true in Hf as ->.
      set_solver. }
    pose proof (proj2 (foldl_max_upper (result_counts a) 0) _ Hfin) as Hle.
    pose proof (parse_found_count_nonneg (ev_msg (a_finish a))) as Hge.
    replace 0 with (parse_found_count (ev_msg (a_finish a))) at 1 by lia. done.
  - apply foldl_max_upper.
  - intros e. unfold success_like, status_in. by rewrite bool_decide_eq_true.
  - intros message Hno. unfold parse_found_count.
    destruct (re_search FOUND_RE message) as [m|]; [|done].
    destruct (py_int (group 1 m)) as [n|[]] eqn:Hn; [|done].
    by destruct (Hno m n).
  - unfold result_counts. apply list_fmap_ext. intros ? e _.
    apply parse_found_count_recovered.
  - apply parse_found_count_recovered.
  - intros pre marker digits rest n Hmarker Hpre Hint Hrest.
    destruct (py_int_Ok_digits digits n Hint) as [Hd (c & t & Hc)].
    rewrite parse_found_count_recovered. unfold recovered_count.
    rewrite first_count_skip by done.
    assert (first_count (marker ++ digits ++ rest) = Some digits) as ->.
    { assert (count_here (marker ++ digits ++ rest) = Some digits) as Hhere
        by (apply count_here_marker; [done|by subst digits|done|done]).
      destruct (marker ++ digits ++ rest); cbn [first_count]; by rewrite Hhere. }
    by rewrite Hint.
Qed.

End Reconstruction.

(** * The properties on the log of the module docstring *)

Lemma docstring_log_rows : parse_lines (H := ascii_lower) docstring_log = Ok [docstring_row].
Proof. vm_compute. reflexivity. Qed.

Lemma docstring_log_attempt : closed_attempt_of docstring_log docstring_attempt.
Proof.
  exists [docstring_start; docstring_fatal; docstring_finish].
  split; [vm_compute; reflexivity|].
  exists [], [docstring_fatal], [].
  split; [reflexivity|].
  split; [vm_compute; reflexivity|].
  split; [vm_compute; reflexivity|].
  split; [vm_compute; reflexivity|].
  split; [vm_compute; reflexivity|].
  split; [vm_compute; reflexivity|].
  constructor; [|constructor]. split; vm_compute; reflexivity.
Defined.

Lemma label_of_closed_attempt_witness :
  parse_lines (H := ascii_lower) docstring_log = Ok [docstring_row]
  ∧ closed_attempt_of docstring_log docstring_attempt
  ∧ row_label (row_of (H := ascii_lower) docstring_attempt) = u "failed".
Proof.
  split; [vm_compute; reflexivity|]. split; [apply docstring_log_attempt|].
  destruct (label_of_closed_attempt (H := ascii_lower)
              docstring_log docstring_attempt) as (rows & _ & _ & -> & _).
  - apply docstring_log_attempt.
  - vm_compute. reflexivity.
Defined.

Lemma counted_log_attempt : closed_attempt_of counted_log counted_attempt.
Proof.
  exists [counted_start; counted_step; counted_error; counted_finish].
  split; [vm_compute; reflexivity|].
  exists [], [counted_step; counted_error], [].
  split; [reflexivity|].
  split; [vm_compute; reflexivity|].
  split; [vm_compute; reflexivity|].
  split; [vm_compute; reflexivity|].
  split; [vm_compute; reflexivity|].
  split; [vm_compute; reflexivity|].
  constructor; [|constructor; [|constructor]]; split; vm_compute; reflexivity.
Defined.

Lemma found_of_closed_attempt_witness :
  parse_lines (H := ascii_lower) counted_log = Ok [counted_row]
  ∧ closed_attempt_of counted_log counted_attempt
  ∧ result_counts counted_attempt = [3; 5]
  ∧ parse_found_count (ev_msg counted_error) = 9
  ∧ row_found (row_of (H := ascii_lower) counted_attempt) = 5.
Proof.
  split; [vm_compute; reflexivity|]. split; [apply counted_log_attempt|].
  split; [vm_compute; reflexivity|]. split; [vm_compute; reflexivity|].
  destruct (found_of_closed_attempt (H := ascii_lower)
              counted_log counted_attempt) as (rows & _ & _ & -> & _).
  - apply counted_log_attempt.
  - vm_compute. reflexivity.
Defined.

Lemma error_of_closed_attempt_witness :
  parse_lines (H := ascii_lower) docstring_log = Ok [docstring_row]
  ∧ closed_attempt_of docstring_log docstring_attempt
  ∧ row_error_type (row_of (H := ascii_lower) docstring_attempt)
    = classify_error (H := ascii_lower) (ev_msg docstring_fatal)
  ∧ row_error_type (row_of (H := ascii_lower) docstring_attempt) = u "dns".
Proof.
  split; [vm_compute; reflexivity|]. split; [apply docstring_log_attempt|].
  pose proof (error_of_closed_attempt (H := ascii_lower)
                docstring_log docstring_attempt) as Herr.
  destruct Herr as (rows & _ & _ & Herr).
  - apply docstring_log_attempt.
  - change (last (recorded_errors docstring_attempt))
      with (Some (ev_msg docstring_fatal)) in Herr.
    destruct Herr as (Htype & _). split; [exact Htype|].
    vm_compute. reflexivity.
Defined.

Lemma statuses_of_emitted_row_witness :
  parse_lines (H := ascii_lower) docstring_log = Ok [docstring_row]
  ∧ docstring_row ∈ [docstring_row]
  ∧ head (row_statuses docstring_row) = Some (u "scanner_start")
  ∧ last (row_statuses docstring_row) = Some (u "scanner_finish").
Proof.
  split; [vm_compute; reflexivity|]. split; [left|].
  apply (statuses_of_emitted_row (H := ascii_lower) docstring_log [docstring_row]).
  - vm_compute. reflexivity.
  - left.
Defined.

Lemma noisy_log_interspersed : interspersed docstring_log noisy_log.
Proof.
  apply interspersed_junk; [vm_compute; reflexivity|].
  apply interspersed_keep, interspersed_keep.
  apply interspersed_junk; [vm_compute; reflexivity|].
  apply interspersed_keep, interspersed_nil.
Defined.

Lemma garbage_lines_ignored_witness :
  interspersed docstring_log noisy_log
  ∧ parse_lines (H := ascii_lower) noisy_log = parse_lines (H := ascii_lower) docstring_log.
Proof.
  split; [apply noisy_log_interspersed|].
  apply (garbage_lines_ignored (H := ascii_lower)). apply noisy_log_interspersed.
Defined.

Lemma open_start_line_starts : starts 7 open_start_line.
Proof.
  exists open_start. split; [vm_compute; reflexivity|].
  split; vm_compute; reflexivity.
Defined.

Lemma open_tail_no_finish : Forall (λ l, ¬ finishes 7 l) open_tail.
Proof.
  constructor; [|constructor].
  intros (e & He & Hf & _). vm_compute in He. injection He as <-.
  vm_compute in Hf. discriminate Hf.
Defined.

Lemma unfinished_attempt_discarded_witness :
  starts 7 open_start_line
  ∧ Forall (λ l, ¬ finishes 7 l) open_tail
  ∧ decode_all (docstring_log ++ open_start_line :: open_tail)
    = Ok [docstring_start; docstring_fatal; docstring_finish; open_start; open_step]
  ∧ ∃ rows rows0,
      parse_lines (H := ascii_lower) (docstring_log ++ open_start_line :: open_tail)
      = Ok rows
      ∧ parse_lines (H := ascii_lower) docstring_log = Ok rows0
      ∧ rows_of_id 7 rows = rows_of_id 7 rows0.
Proof.
  split; [apply open_start_line_starts|]. split; [apply open_tail_no_finish|].
  split; [vm_compute; reflexivity|].
  apply (unfinished_attempt_discarded (H := ascii_lower) 7 docstring_log open_tail
           open_start_line
           [docstring_start; docstring_fatal; docstring_finish; open_start; open_step]).
  - apply open_start_line_starts.
  - apply open_tail_no_finish.
  - vm_compute. reflexivity.
Defined.

Lemma query_of_start_event_witness :
  is_start docstring_start = true
  ∧ ev_attempt docstring_start = Some 6
  ∧ ∃ state,
      attempts (handle (H := ascii_lower) Loop0 docstring_start) !! 6 = Some state
      ∧ query state
        = match first_query_field (ev_msg docstring_start) with
          | Some value => strip_chars (u " ,.;") (collapse_ws (strip value))
          | None => []
          end.
Proof.
  split; [vm_compute; reflexivity|]. split; [reflexivity|].
  destruct (query_of_start_event (H := ascii_lower) Loop0 docstring_start 6)
    as (state & Hstate & Hquery & _).
  - vm_compute. reflexivity.
  - reflexivity.
  - exists state. split; [exact Hstate|exact Hquery].
Defined.

(** C8 as stated does not hold: a period at the head of the value is
    stripped too, and a value with a period at its end, no punctuation at
    its head and a single word is not stored verbatim. *)
Lemma query_not_as_stated :
  ¬ (∀ payload value ts id,
       first_query_field payload = Some value →
       query (open_attempt ts (u "scanner_start") payload id)
       = collapse_and_strip_trailing value)
  ∧ ¬ (∀ payload value ts id,
         first_query_field payload = Some value →
         no_leading_punct value = true → single_spaced value = true →
         query (open_attempt ts (u "scanner_start") payload id) = value).
Proof.
  split.
  - intros Hclaim.
    specialize (Hclaim (u "attempt=1, query=.m3u, provider=ALL") (u ".m3u") 100 1).
    vm_compute in Hclaim. specialize (Hclaim eq_refl). discriminate Hclaim.
  - intros Hclaim.
    specialize (Hclaim (ev_msg docstring_start) (u "m3u.") 100 6).
    vm_compute in Hclaim. specialize (Hclaim eq_refl eq_refl eq_refl).
    discriminate Hclaim.
Qed.

(** * Scenarios of the specification *)

Example scenario_success :
  parse_lines (H := ascii_lower)
    [u "100|scanner_start|playlist=-|attempt=1, query=foo, provider=ALL, mode=AUTO";
     u "200|scanner_finish|playlist=-|attempt=1, results=5"]
  = Ok [{| row_attempt := 1; row_started_at := 100; row_finished_at := 200;
           row_query := u "foo"; row_provider := u "ALL"; row_mode := u "AUTO";
           row_preset := u "-"; row_found := 5; row_label := u "success";
           row_error_type := []; row_error := [];
           row_statuses := [u "scanner_start"; u "scanner_finish"] |}].
Proof. vm_compute. reflexivity. Qed.

Example scenario_unfinished :
  parse_lines (H := ascii_lower)
    [u "100|scanner_start|playlist=-|attempt=3, query=foo"] = Ok [].
Proof. vm_compute. reflexivity. Qed.

(** Two attempts whose events alternate close each with its own count and
    errors. *)
Example scenario_interleaved :
  (λ row, (row_attempt row, row_found row, row_label row, row_error_type row))
  <$> match parse_lines (H := ascii_lower)
              [u "1|scanner_start|playlist=-|attempt=1, query=a";
               u "2|scanner_start|playlist=-|attempt=2, query=b";
               u "3|scanner_step_ok|playlist=-|attempt=1, results=4";
               u "4|scanner_timeout|playlist=-|attempt=2, read timed out";
               u "5|scanner_finish|playlist=-|attempt=1, results=2";
               u "6|scanner_finish|playlist=-|attempt=2, results=0"] with
      | Ok rows => rows
      | Raise _ => []
      end
  = [(1, 4, u "success", []); (2, 0, u "failed", u "timeout")].
Proof. vm_compute. reflexivity. Qed.

(** A second start of a live id drops the state of the first. *)
Example scenario_reopened :
  (λ row, (row_started_at row, row_found row, row_statuses row))
  <$> match parse_lines (H := ascii_lower)
              [u "1|scanner_start|playlist=-|attempt=1, query=a";
               u "2|scanner_ok|playlist=-|attempt=1, results=9";
               u "3|scanner_start|playlist=-|attempt=1, query=a";
               u "4|scanner_finish|playlist=-|attempt=1, results=0"] with
      | Ok rows => rows
      | Raise _ => []
      end
  = [(3, 0, [u "scanner_start"; u "scanner_finish"])].
Proof. vm_compute. reflexivity. Qed.

(** With markers of two categories in one message the earlier category is
    returned, whatever the case of the letters. *)
Example classify_two_categories :
  classify_error (H := ascii_lower) (u "SSL handshake Timed Out") = u "timeout"
  ∧ classify_error (H := ascii_lower) (u "HTTP 403: rate exceeded") = u "rate_limit"
  ∧ classify_error (H := ascii_lower) (u "java.net.UnknownHostException: timeout") = u "dns"
  ∧ classify_error (H := ascii_lower) (u "connection reset") = u "other".
Proof. repeat split; vm_compute; reflexivity. Qed.

(** The report of the docstring log. *)
Example docstring_summary :
  contains (u "- Всего попыток: 1") (build_summary [docstring_row]) = true
  ∧ contains (u "- Ошибок: 1") (build_summary [docstring_row]) = true
  ∧ contains (u "- `dns`: 1") (build_summary [docstring_row]) = true
  ∧ contains (u "- `ALL`: 1") (build_summary [docstring_row]) = true.
Proof. repeat split; vm_compute; reflexivity. Qed.

Section Further.
Context `{StrLower}.

(** * Further properties of the reconstruction *)

(** ** Output of a prefix, number of rows *)

Lemma handle_emitted_by (st : Loop) (e : Event) :
  emitted (handle st e) = emitted st ++ emitted_by st e.
Proof.
  unfold emitted_by.
  destruct (ev_attempt e) as [id|] eqn:Hid;
    [|by rewrite handle_ignored, app_nil_r; auto].
  destruct (is_start e) eqn:Hs.
  { rewrite (handle_start _ _ id) by done. simpl. by rewrite app_nil_r. }
  destruct (attempts st !! id) as [state|] eqn:Hst;
    [|by rewrite handle_ignored, app_nil_r; eauto 6].
  destruct (is_finish e) eqn:Hf.
  - by rewrite (handle_finish _ _ id state).
  - rewrite (handle_update _ _ id state) by done. simpl. by rewrite app_nil_r.
Qed.

(** X1. The rows of a prefix of the log are a prefix of the rows of the
    log: a row once emitted is never changed or withdrawn by later lines. *)
Theorem rows_of_prefix (lines more : list str) (rows : list Row) :
  parse_lines (lines ++ more) = Ok rows →
  ∃ rows0 new, parse_lines lines = Ok rows0 ∧ rows = rows0 ++ new.
Proof.
  intros (evs & Hdec & ->)%parse_lines_Ok.
  apply decode_all_app in Hdec as (evs1 & evs2 & Hdec1 & Hdec2 & ->).
  rewrite run_app. destruct (run_emitted evs2 (run evs1 Loop0)) as [new Hnew].
  exists (emitted (run evs1 Loop0)), new. split; [|done].
  apply parse_lines_Ok. eauto.
Qed.

Lemma handle_balance (st : Loop) (e : Event) :
  (length (emitted (handle st e)) + size (attempts (handle st e))
   ≤ length (emitted st) + size (attempts st) + (if opens e then 1 else 0))%nat
  ∧ (length (emitted (handle st e))
     ≤ length (emitted st) + (if is_finish e then 1 else 0))%nat.
Proof.
  destruct (ev_attempt e) as [id|] eqn:Hid.
  2:{ rewrite handle_ignored by auto. destruct (opens e), (is_finish e); split; lia. }
  destruct (is_start e) eqn:Hs.
  { assert (opens e = true) as ->.
    { unfold opens. rewrite Hs, Hid. by apply bool_decide_eq_true_2. }
    rewrite (handle_start _ _ id) by done. simpl. split; [|lia].
    destruct (attempts st !! id) as [old|] eqn:Hold.
    - rewrite map_size_insert_Some by eauto. lia.
    - rewrite map_size_insert_None by done. lia. }
  destruct (attempts st !! id) as [state|] eqn:Hst.
  2:{ rewrite handle_ignored by eauto 6.
      destruct (opens e), (is_finish e); split; lia. }
  destruct (is_finish e) eqn:Hf.
  - rewrite (handle_finish _ _ id state) by done. simpl.
    rewrite length_app. simpl.
    assert (is_Some (attempts st !! id)) as Hsome by eauto.
    pose proof (map_size_delete_Some id (attempts st) Hsome).
    pose proof (map_size_ne_0_lookup_2 (attempts st) id Hsome).
    destruct (opens e); split; lia.
  - rewrite (handle_update _ _ id state) by done. simpl.
    rewrite map_size_insert_Some by eauto. destruct (opens e); split; lia.
Qed.

Lemma run_balance (evs : list Event) (st : Loop) :
  (length (emitted (run evs st)) + size (attempts (run evs st))
   ≤ length (emitted st) + size (attempts st) + length (filter (λ e, opens e = true) evs))%nat
  ∧ (length (emitted (run evs st))
     ≤ length (emitted st) + length (filter (λ e, is_finish e = true) evs))%nat.
Proof.
  revert st; induction evs as [|e evs IH]; intros st; simpl; [lia|].
  destruct (IH (handle st e)) as [IH1 IH2].
  destruct (handle_balance st e) as [H1 H2].
  rewrite !filter_cons.
  destruct (opens e), (is_finish e); repeat case_decide; try done; simpl; split; lia.
Qed.

(** X2. There are no more rows than finish events, and no more than start
    events that carry an attempt id. *)
Theorem rows_bounded (lines : list str) (rows : list Row) :
  parse_lines lines = Ok rows →
  ∃ evs, decode_all lines = Ok evs
         ∧ (length rows ≤ length (filter (λ e, is_finish e = true) evs))%nat
         ∧ (length rows ≤ length (filter (λ e, opens e = true) evs))%nat.
Proof.
  intros (evs & Hdec & ->)%parse_lines_Ok. exists evs. split; [done|].
  destruct (run_balance evs Loop0) as [H1 H2]. simpl in *.
  rewrite map_size_empty in H1. split; lia.
Qed.

(** ** Every row has its start and its finish line *)

Lemma decode_all_split (lines : list str) (evs1 evs2 : list Event) (e : Event) :
  decode_all lines = Ok (evs1 ++ e :: evs2) →
  ∃ l1 line l2,
    lines = l1 ++ line :: l2
    ∧ decode_all l1 = Ok evs1 ∧ decode_line line = Ok (Some e)
    ∧ decode_all l2 = Ok evs2.
Proof.
  revert evs1; induction lines as [|l lines IH]; intros evs1; simpl.
  - intros [= Hnil]. by destruct evs1.
  - destruct (decode_line l) as [oe|] eqn:Hl; [|done]; simpl.
    destruct (decode_all lines) as [evs'|] eqn:Hrest; [|done]; simpl.
    destruct oe as [e0|].
    + destruct evs1 as [|e1 evs1]; simpl; intros [= -> ->].
      * exists [], l, lines. by rewrite Hl.
      * destruct (IH evs1 eq_refl) as (l1 & line & l2 & -> & H1 & Hline & H2).
        exists (l :: l1), line, l2. simpl. by rewrite Hl, H1.
    + intros [= ->].
      destruct (IH evs1 eq_refl) as (l1 & line & l2 & -> & H1 & Hline & H2).
      exists (l :: l1), line, l2. simpl. by rewrite Hl, H1.
Qed.

(** X3. Every row comes from a start line and a later finish line of its
    attempt id, and its two timestamps are those of these two lines; so an
    id that no start line opened has no row. *)
Theorem row_has_start_and_finish (lines : list str) (rows : list Row) (row : Row) :
  parse_lines lines = Ok rows → row ∈ rows →
  ∃ before line_s between line_f after es ef,
    lines = before ++ line_s :: between ++ line_f :: after
    ∧ decode_line line_s = Ok (Some es) ∧ is_start es = true
    ∧ ev_attempt es = Some (row_attempt row) ∧ ev_ts es = row_started_at row
    ∧ decode_line line_f = Ok (Some ef) ∧ is_finish ef = true
    ∧ ev_attempt ef = Some (row_attempt row) ∧ ev_ts ef = row_finished_at row.
Proof.
  intros Hrows Hrow.
  destruct (row_closed_attempt _ _ _ Hrows Hrow) as (a & (evs & Hdec & Ha) & ->).
  destruct Ha as (pre & mid & post & -> & Hs & Hsid & Hf & Hfid & _).
  apply has_id_true in Hsid, Hfid.
  apply decode_all_split in Hdec as (before & line_s & rest & -> & _ & Hls & Hrest).
  apply decode_all_split in Hrest as (between & line_f & after & -> & _ & Hlf & _).
  destruct (row_of_start_fields a) as (Hid & Hts & Htf & _).
  exists before, line_s, between, line_f, after, (a_start a), (a_finish a).
  rewrite Hid, Hts, Htf. done.
Qed.

(** ** One attempt id at a time *)

Lemma emitted_by_own_id (id : Z) (st : Loop) (e : Event) :
  keyed st →
  rows_of_id id (emitted_by st e) = if has_id id e then emitted_by st e else [].
Proof.
  intros Hk. unfold emitted_by.
  destruct (ev_attempt e) as [id'|] eqn:Hid; [|by destruct (has_id id e)].
  destruct (is_start e); [by destruct (has_id id e)|].
  destruct (attempts st !! id') as [state|] eqn:Hst; [|by destruct (has_id id e)].
  destruct (is_finish e); [|by destruct (has_id id e)].
  unfold rows_of_id. rewrite filter_cons, filter_nil. simpl.
  rewrite (Hk _ _ Hst). unfold has_id. rewrite Hid.
  case_decide as Hd; case_bool_decide as Hb; try done; congruence.
Qed.

Lemma handle_rows_of_id (id : Z) (st : Loop) (e : Event) :
  keyed st →
  rows_of_id id (emitted (handle st e))
  = rows_of_id id (emitted st) ++ (if has_id id e then emitted_by st e else []).
Proof.
  intros Hk. by rewrite handle_emitted_by, rows_of_id_app, emitted_by_own_id.
Qed.

(** On an event of [id], what happens to [id] depends on the state of [id]
    alone. *)
Lemma handle_own_id (id : Z) (st st' : Loop) (e : Event) :
  has_id id e = true → attempts st !! id = attempts st' !! id →
  attempts (handle st e) !! id = attempts (handle st' e) !! id
  ∧ emitted_by st e = emitted_by st' e.
Proof.
  intros Hid%has_id_true Heq. unfold emitted_by. rewrite Hid, <- Heq.
  split; [|done].
  destruct (is_start e) eqn:Hs.
  { rewrite !(handle_start _ _ id) by done. simpl. by rewrite !lookup_insert_eq. }
  destruct (attempts st !! id) as [state|] eqn:Hst.
  2:{ rewrite !handle_ignored by eauto 6. congruence. }
  symmetry in Heq.
  destruct (is_finish e) eqn:Hf.
  - rewrite !(handle_finish _ _ id state) by done. simpl.
    by rewrite !lookup_delete_eq.
  - rewrite !(handle_update _ _ id state) by done. simpl.
    by rewrite !lookup_insert_eq.
Qed.

Lemma run_only_id (id : Z) (evs : list Event) (st st' : Loop) :
  keyed st → attempts st !! id = attempts st' !! id →
  rows_of_id id (emitted st) = emitted st' →
  rows_of_id id (emitted (run evs st))
  = emitted (run (filter (λ e, has_id id e = true) evs) st').
Proof.
  revert st st'; induction evs as [|e evs IH]; intros st st' Hk Hatt Hrows; [done|].
  simpl. rewrite filter_cons. destruct (has_id id e) eqn:Hid.
  - rewrite decide_True by done. simpl.
    destruct (handle_own_id id st st' e Hid Hatt) as [Hatt' Hby].
    apply IH; [by apply keyed_handle|done|].
    by rewrite handle_rows_of_id, Hid, Hrows, Hby, handle_emitted_by.
  - rewrite decide_False by done.
    apply IH; [by apply keyed_handle|by rewrite handle_frame|].
    by rewrite handle_rows_of_id, Hid, app_nil_r.
Qed.

Lemma decode_all_filter (id : Z) (lines : list str) (evs : list Event) :
  decode_all lines = Ok evs →
  decode_all (filter (λ line, line_has_id id line = true) lines)
  = Ok (filter (λ e, has_id id e = true) evs).
Proof.
  revert evs; induction lines as [|line lines IH]; intros evs; simpl.
  - by intros [= <-].
  - destruct (decode_line line) as [oe|] eqn:Hl; [|done]; simpl.
    destruct (decode_all lines) as [evs'|]; [|done]; simpl.
    assert (line_has_id id line
            = match oe with Some e => has_id id e | None => false end) as Hline.
    { unfold line_has_id. by rewrite Hl. }
    rewrite filter_cons.
    destruct oe as [e|]; intros [= <-].
    + rewrite filter_cons. destruct (has_id id e) eqn:Hid.
      * rewrite !decide_True by done. simpl. by rewrite Hl, (IH evs').
      * rewrite !decide_False by (by rewrite ?Hline). by apply IH.
    + rewrite decide_False by (by rewrite Hline). by apply IH.
Qed.

Lemma keyed_Loop0 : keyed Loop0.
Proof. intros ?? Hl. simpl in Hl. by rewrite lookup_empty in Hl. Qed.

(** X4. Attempts are kept apart by their id: the rows of [id] are what the
    log gives once every line that does not carry [id] is removed, whatever
    the lines of other attempts in between. *)
Theorem rows_of_id_alone (id : Z) (lines : list str) (rows : list Row) :
  parse_lines lines = Ok rows →
  parse_lines (filter (λ line, line_has_id id line = true) lines)
  = Ok (rows_of_id id rows).
Proof.
  intros (evs & Hdec & ->)%parse_lines_Ok. apply parse_lines_Ok.
  exists (filter (λ e, has_id id e = true) evs).
  split; [by apply decode_all_filter|].
  by apply run_only_id; [apply keyed_Loop0|..].
Qed.

(** ** A start line begins anew *)

Lemma run_same_id (id : Z) (evs : list Event) (st st' : Loop) :
  keyed st → keyed st' → attempts st !! id = attempts st' !! id →
  ∃ new,
    rows_of_id id (emitted (run evs st)) = rows_of_id id (emitted st) ++ new
    ∧ rows_of_id id (emitted (run evs st')) = rows_of_id id (emitted st') ++ new.
Proof.
  revert st st'; induction evs as [|e evs IH]; intros st st' Hk Hk' Hatt.
  - exists []. by rewrite !app_nil_r.
  - simpl.
    assert (attempts (handle st e) !! id = attempts (handle st' e) !! id
            ∧ (if has_id id e then emitted_by st e else [])
              = (if has_id id e then emitted_by st' e else [])) as [Hatt' Hby].
    { destruct (has_id id e) eqn:Hid; [by apply handle_own_id|].
      by rewrite !handle_frame. }
    destruct (IH (handle st e) (handle st' e)) as (new & -> & ->);
      [by apply keyed_handle..|done|].
    rewrite !handle_rows_of_id by done. rewrite Hby, <- !app_assoc. eauto.
Qed.

(** X5. A start line of [id] begins the attempt anew, dropping whatever the
    log held for [id] before: the rows of [id] are those of the lines before
    that start line followed by those of the log that begins at it. *)
Theorem start_line_begins_anew
    (id : Z) (before after : list str) (line : str) (rows : list Row) :
  starts id line → parse_lines (before ++ line :: after) = Ok rows →
  ∃ rows0 rows1,
    parse_lines before = Ok rows0
    ∧ parse_lines (line :: after) = Ok rows1
    ∧ rows_of_id id rows = rows_of_id id rows0 ++ rows_of_id id rows1.
Proof.
  intros (e & He & Hs & Hid%has_id_true) (evs & Hdec & ->)%parse_lines_Ok.
  apply decode_all_app in Hdec as (evs1 & evs2 & Hdec1 & Hdec2 & ->).
  exists (emitted (run evs1 Loop0)), (emitted (run evs2 Loop0)).
  split; [apply parse_lines_Ok; eauto|]. split; [apply parse_lines_Ok; eauto|].
  simpl in Hdec2. rewrite He in Hdec2. simpl in Hdec2.
  destruct (decode_all after) as [evs3|]; [|done]. injection Hdec2 as <-.
  rewrite run_app. simpl.
  destruct (run_same_id id evs3 (handle (run evs1 Loop0) e) (handle Loop0 e))
    as (new & -> & ->).
  - apply keyed_handle, keyed_run, keyed_Loop0.
  - apply keyed_handle, keyed_Loop0.
  - rewrite !(handle_start _ _ id) by done. simpl. by rewrite !lookup_insert_eq.
  - rewrite !(handle_start _ _ id) by done. done.
Qed.

(** ** Fields read from a payload *)

Lemma contains_here (needle hay : str) :
  starts_with needle hay = true → contains needle hay = true.
Proof. intros Hs. destruct hay; simpl; by rewrite Hs. Qed.

Lemma contains_app (needle pre post : str) :
  contains needle (pre ++ needle ++ post) = true.
Proof.
  induction pre as [|c pre IH]; simpl.
  - apply contains_here. induction needle as [|c needle IH]; simpl; [done|].
    by rewrite N.eqb_refl, IH.
  - rewrite IH. apply orb_true_r.
Qed.

(** The group of a pattern [marker(c+)] that a search finds: characters of
    the class, at least one, right after an occurrence of the marker. *)
Lemma field_re_groups (marker : str) (p : N → bool) (i : nat) (s : str) (m : caps) :
  search_from (Seqs [Lit marker; Group 1 (Plus p)]) i s = Some m →
  ∃ text pre post,
    m = [(1%nat, text)] ∧ text ≠ [] ∧ forallb p text = true
    ∧ s = pre ++ marker ++ text ++ post.
Proof.
  revert i; induction s as [|c s IH]; intros i; cbn [search_from].
  - destruct (rmatch _ i [] [] _) as [m'|] eqn:Hm; [|done].
    intros [= ->]. apply rmatch_matches in Hm as (i' & s' & cs' & Hm & [= ->]).
    apply matches_Seqs_cons in Hm as (i1 & s1 & cs1 & [-> Hs]%matches_Lit & Hm).
    apply matches_Seqs_cons in Hm
      as (i2 & s2 & cs2 & (text & -> & Hne & Hp & ->)%matches_group_plus & Hm).
    destruct Hm as (-> & -> & ->). exists text, [], s2. by repeat split.
  - destruct (rmatch _ i (c :: s) [] _) as [m'|] eqn:Hm.
    + intros [= ->]. apply rmatch_matches in Hm as (i' & s' & cs' & Hm & [= ->]).
      apply matches_Seqs_cons in Hm as (i1 & s1 & cs1 & [-> Hs]%matches_Lit & Hm).
      apply matches_Seqs_cons in Hm
        as (i2 & s2 & cs2 & (text & -> & Hne & Hp & ->)%matches_group_plus & Hm).
      destruct Hm as (-> & -> & ->). exists text, [], s2. by repeat split.
    + intros (text & pre & post & -> & Hne & Hp & ->)%IH.
      by exists text, (c :: pre), post.
Qed.

Lemma printable_not_space (c : N) : (33 ≤ c ≤ 126)%N → is_space c = false.
Proof.
  intros Hc. destruct (is_space c) eqn:Hsp; [|done]. exfalso.
  unfold is_space in Hsp.
  rewrite !orb_true_iff, !andb_true_iff, !N.leb_le, !N.eqb_eq in Hsp. lia.
Qed.

Lemma in_range_bounds (lo hi : string) (a b c : N) :
  u lo = [a] → u hi = [b] → in_range lo hi c = true → (a ≤ c ≤ b)%N.
Proof.
  unfold in_range. intros -> ->. intros [?%N.leb_le ?%N.leb_le]%andb_true_iff. lia.
Qed.

Lemma is_char_eq (ch : string) (a c : N) : u ch = [a] → is_char ch c = true → c = a.
Proof. unfold is_char. intros ->. by intros [= ->]%bool_decide_eq_true. Qed.

Lemma cls_upper_printable (c : N) : cls_upper c = true → (33 ≤ c ≤ 126)%N.
Proof.
  unfold cls_upper. rewrite !orb_true_iff.
  intros [Hr|Hc].
  - apply (in_range_bounds _ _ 65 90)%N in Hr; [lia|done..].
  - apply (is_char_eq _ 95%N) in Hc; [lia|done].
Qed.

Lemma cls_preset_printable (c : N) : cls_preset c = true → (33 ≤ c ≤ 126)%N.
Proof.
  unfold cls_preset. rewrite !orb_true_iff.
  intros [[[[[Hr|Hr]|Hr]|Hc]|Hc]|Hc].
  - apply (in_range_bounds _ _ 97 122)%N in Hr; [lia|done..].
  - apply (in_range_bounds _ _ 65 90)%N in Hr; [lia|done..].
  - apply (in_range_bounds _ _ 48 57)%N in Hr; [lia|done..].
  - apply (is_char_eq _ 95%N) in Hc; [lia|done].
  - apply N.eqb_eq in Hc. lia.
  - apply (is_char_eq _ 45%N) in Hc; [lia|done].
Qed.

Lemma cls_word_printable (c : N) : cls_word c = true → (33 ≤ c ≤ 126)%N.
Proof.
  unfold cls_word. rewrite !orb_true_iff.
  intros [[[Hr|Hr]|Hr]|Hc].
  - apply (in_range_bounds _ _ 97 122)%N in Hr; [lia|done..].
  - apply (in_range_bounds _ _ 65 90)%N in Hr; [lia|done..].
  - apply (in_range_bounds _ _ 48 57)%N in Hr; [lia|done..].
  - apply (is_char_eq _ 95%N) in Hc; [lia|done].
Qed.

(** A text of printable ASCII characters has nothing to strip. *)
Lemma strip_printable (p : N → bool) (text : str) :
  (∀ c, p c = true → (33 ≤ c ≤ 126)%N) → forallb p text = true →
  strip text = text.
Proof.
  intros Hp Hall. rewrite forallb_forall in Hall.
  apply strip_by_id.
  - destruct text as [|c text]; [done|].
    apply printable_not_space, Hp, Hall. by left.
  - destruct (last text) as [c|] eqn:Hlast; [|done].
    apply printable_not_space, Hp, Hall.
    apply last_Some in Hlast as [l ->]. apply in_or_app. right. by left.
Qed.

(** What [extract_first] returns for a pattern [marker(c+)] over a class of
    printable characters: the default, or a text of the class that is not
    empty. *)
Lemma extract_first_shape (marker : str) (p : N → bool) (text default : str) :
  (∀ c, p c = true → (33 ≤ c ≤ 126)%N) →
  let found := extract_first (Seqs [Lit marker; Group 1 (Plus p)]) text default in
  found = default ∨ (found ≠ [] ∧ forallb p found = true).
Proof.
  intros Hp. unfold extract_first, re_search.
  destruct (search_from _ 0 text) as [m|] eqn:Hm; [|by left].
  apply field_re_groups in Hm as (value & pre & post & -> & Hne & Hall & _).
  change (group 1 _) with value. rewrite (strip_printable p) by done. by right.
Qed.

(** X6. The provider and the mode of every row are non-empty words over
    [A-Z_], and its preset a non-empty word over letters, digits, underscore,
    backslash and hyphen: the value read from the start line, or the
    default. *)
Theorem row_provider_mode_preset (lines : list str) (rows : list Row) (row : Row) :
  parse_lines lines = Ok rows → row ∈ rows →
  (row_provider row ≠ [] ∧ forallb cls_upper (row_provider row) = true)
  ∧ (row_mode row ≠ [] ∧ forallb cls_upper (row_mode row) = true)
  ∧ (row_preset row ≠ [] ∧ forallb cls_preset (row_preset row) = true).
Proof.
  intros Hrows Hrow.
  destruct (row_closed_attempt _ _ _ Hrows Hrow) as (a & _ & ->).
  destruct (row_of_start_fields a) as (_ & _ & _ & _ & -> & -> & ->).
  pose proof (extract_first_shape (u "provider=") cls_upper (ev_msg (a_start a))
                (u "ALL") cls_upper_printable) as Hprovider.
  pose proof (extract_first_shape (u "mode=") cls_upper (ev_msg (a_start a))
                (u "AUTO") cls_upper_printable) as Hmode.
  pose proof (extract_first_shape (u "preset=") cls_preset (ev_msg (a_start a))
                (u "-") cls_preset_printable) as Hpreset.
  cbv zeta in Hprovider, Hmode, Hpreset.
  fold PROVIDER_RE in Hprovider. fold MODE_RE in Hmode. fold PRESET_RE in Hpreset.
  split; [|split].
  - destruct Hprovider as [->|?]; [by vm_compute|done].
  - destruct Hmode as [->|?]; [by vm_compute|done].
  - destruct Hpreset as [->|?]; [by vm_compute|done].
Qed.

(** ** What a row can hold *)

Lemma classify_error_category (message : str) :
  classify_error message ∈ error_categories.
Proof.
  unfold classify_error, error_categories.
  repeat match goal with
         | |- context [if ?b then _ else _] => destruct b
         end; set_solver.
Qed.

Lemma error_categories_nonempty (tag : str) : tag ∈ error_categories → tag ≠ [].
Proof.
  unfold error_categories. rewrite !elem_of_cons, elem_of_nil.
  intros [->|[->|[->|[->|[->|[->|[->|[->|[]]]]]]]]]; vm_compute; discriminate.
Qed.

Lemma decode_line_numbers (line : str) (e : Event) :
  decode_line line = Ok (Some e) →
  0 ≤ ev_ts e ∧ ∀ id, ev_attempt e = Some id → 0 ≤ id.
Proof.
  unfold decode_line. destruct (re_match LINE_RE line) as [m|]; [|done].
  destruct (py_int (group 1 m)) as [ts|] eqn:Hts; [|done]; simpl.
  unfold parse_attempt_id.
  destruct (re_search ATTEMPT_RE (strip (group 4 m))) as [m'|]; simpl.
  - destruct (py_int (group 1 m')) as [id|] eqn:Hid; [|done]; simpl.
    intros [= <-]; simpl. split; [by eapply py_int_nonneg|].
    intros ? [= <-]. by eapply py_int_nonneg.
  - intros [= <-]; simpl. split; [by eapply py_int_nonneg|done].
Qed.

Lemma row_found_nonneg (lines : list str) (rows : list Row) (row : Row) :
  parse_lines lines = Ok rows → row ∈ rows → 0 ≤ row_found row.
Proof.
  intros Hrows Hrow.
  destruct (row_closed_attempt _ _ _ Hrows Hrow) as (a & _ & ->).
  unfold row_of, close_attempt; simpl. rewrite final_found.
  destruct (foldl_max_upper (result_counts a) 0) as [H0 _]. done.
Qed.

Lemma row_label_three (lines : list str) (rows : list Row) (row : Row) :
  parse_lines lines = Ok rows → row ∈ rows →
  row_label row ∈ [u "success"; u "failed"; u "empty"].
Proof.
  intros Hrows Hrow.
  destruct (row_closed_attempt _ _ _ Hrows Hrow) as (a & _ & ->).
  unfold row_of, close_attempt; simpl.
  case_bool_decide; [by left|].
  destruct (errors (final_state a)); [by do 2 right; left|by right; left].
Qed.

(** X7. Every number of a row is non-negative: the attempt id, the two
    timestamps and the found count. *)
Theorem row_numbers_nonnegative (lines : list str) (rows : list Row) (row : Row) :
  parse_lines lines = Ok rows → row ∈ rows →
  0 ≤ row_attempt row ∧ 0 ≤ row_started_at row
  ∧ 0 ≤ row_finished_at row ∧ 0 ≤ row_found row.
Proof.
  intros Hrows Hrow. split; [|split; [|split]].
  4: by eapply row_found_nonneg.
  all: destruct (row_closed_attempt _ _ _ Hrows Hrow) as (a & (evs & Hdec & Ha) & ->).
  all: destruct Ha as (pre & mid & post & -> & _ & Hsid & _ & _ & _).
  all: apply has_id_true in Hsid.
  all: apply decode_all_split in Hdec as (l1 & ls & rest & _ & _ & Hes & Hrest).
  all: apply decode_all_split in Hrest as (l2 & lf & l3 & _ & _ & Hef & _).
  all: destruct (row_of_start_fields a) as (Hid & Hts & Htf & _).
  all: destruct (decode_line_numbers _ _ Hes) as [Hs Hpos].
  all: destruct (decode_line_numbers _ _ Hef) as [Hf _].
  - rewrite Hid. by apply Hpos.
  - by rewrite Hts.
  - by rewrite Htf.
Qed.

(** X8. The label of a row can be read off its other fields: it is one of
    the three labels, "success" exactly when found is positive, "failed"
    exactly when found is 0 and the error is not empty, "empty" exactly when
    found is 0 and the error is empty. The error type is one of the eight
    tags or empty, and it is empty exactly when the error is. *)
Theorem row_label_from_fields (lines : list str) (rows : list Row) (row : Row) :
  parse_lines lines = Ok rows → row ∈ rows →
  row_label row ∈ [u "success"; u "failed"; u "empty"]
  ∧ (row_label row = u "success" ↔ 0 < row_found row)
  ∧ (row_label row = u "failed" ↔ row_found row = 0 ∧ row_error row ≠ [])
  ∧ (row_label row = u "empty" ↔ row_found row = 0 ∧ row_error row = [])
  ∧ (row_error_type row = [] ∨ row_error_type row ∈ error_categories)
  ∧ (row_error_type row = [] ↔ row_error row = []).
Proof.
  intros Hrows Hrow.
  pose proof (row_found_nonneg _ _ _ Hrows Hrow) as Hfound.
  destruct (row_closed_attempt _ _ _ Hrows Hrow) as (a & Ha & ->).
  assert (∀ err, last (errors (final_state a)) = Some err → err ≠ []) as Hne.
  { intros err Hlast. eapply recorded_error_nonempty; [done|].
    rewrite <- final_errors. apply last_Some in Hlast as [l ->]. set_solver. }
  assert (u "success" ≠ u "failed" ∧ u "success" ≠ u "empty"
          ∧ u "failed" ≠ u "empty") as (Hsf & Hse & Hfe)
    by (repeat split; vm_compute; discriminate).
  revert Hfound. unfold row_of, close_attempt; simpl.
  generalize (found (final_state a)); intros n Hn.
  set (S := u "success") in *. set (F := u "failed") in *. set (E := u "empty") in *.
  clearbody S F E.
  assert (bool_decide (n > 0) = bool_decide (0 < n)) as -> by (apply bool_decide_ext; lia).
  destruct (errors (final_state a)) as [|err0 errs] eqn:Herrs.
  - cbn [last default take]. case_bool_decide.
    + split; [by left|]. split; [done|]. split; [split; [congruence|lia]|].
      split; [split; [congruence|lia]|]. split; [by left|done].
    + assert (n = 0) by lia. subst n.
      split; [by do 2 right; left|]. split; [split; [congruence|lia]|].
      split; [split; [congruence|by intros [_ ?]]|]. split; [done|].
      split; [by left|done].
  - destruct (last (err0 :: errs)) as [err|] eqn:Hlast; [|by apply last_None in Hlast].
    specialize (Hne err eq_refl). cbn [default].
    destruct err as [|c err]; [done|]. cbn [take].
    pose proof (classify_error_category (c :: err)) as Hcat.
    pose proof (error_categories_nonempty _ Hcat) as Hcat'.
    case_bool_decide.
    + split; [by left|]. split; [done|]. split; [split; [congruence|lia]|].
      split; [split; [congruence|lia]|]. split; [by right|done].
    + assert (n = 0) by lia. subst n.
      split; [by right; left|]. split; [split; [congruence|lia]|].
      split; [done|]. split; [split; [congruence|by intros [_ ?]]|].
      split; [by right|done].
Qed.

(** ** Statuses and errors of a row *)

(** X9. The statuses of a row are the status of the start line followed by
    those of every later event of the attempt, in arrival order; and the row
    carries an error exactly when one of its statuses is error-like. *)
Theorem row_statuses_complete (lines : list str) (a : Attempt) :
  closed_attempt_of lines a →
  ∃ rows,
    parse_lines lines = Ok rows ∧ row_of a ∈ rows
    ∧ row_statuses (row_of a)
      = u "scanner_start" :: (ev_status <$> a_body a) ++ [u "scanner_finish"]
    ∧ length (row_statuses (row_of a)) = (2 + length (a_body a))%nat
    ∧ (row_error (row_of a) ≠ [] ↔
       ∃ status, status ∈ row_statuses (row_of a) ∧ status ∈ error_statuses).
Proof.
  intros Ha. destruct (closed_attempt_row lines a Ha) as (rows & Hrows & Hrow).
  exists rows. split; [done|]. split; [done|].
  assert (row_statuses (row_of a)
          = u "scanner_start" :: (ev_status <$> a_body a) ++ [u "scanner_finish"])
    as Hst.
  { destruct Ha as (evs & _ & pre & mid & post & _ & Hs & _ & Hf & _).
    unfold is_start, is_finish, str_eqb in *. apply bool_decide_eq_true in Hs, Hf.
    unfold row_of, close_attempt; simpl. by rewrite final_statuses, Hs, Hf. }
  split; [done|]. split.
  { rewrite Hst. simpl. rewrite length_app, length_fmap. simpl. lia. }
  assert (row_error (row_of a) ≠ [] ↔ recorded_errors a ≠ []) as ->.
  { unfold row_of, close_attempt; simpl. rewrite final_errors.
    destruct (last (recorded_errors a)) as [err|] eqn:Hlast; simpl.
    - assert (err ≠ []) as Hne.
      { eapply recorded_error_nonempty; [done|].
        apply last_Some in Hlast as [l ->]. set_solver. }
      split; [|by destruct err].
      intros _ Hnil. by rewrite Hnil in Hlast.
    - apply last_None in Hlast. by rewrite Hlast. }
  assert (row_statuses (row_of a) = u "scanner_start" :: (ev_status <$> later_events a))
    as ->.
  { rewrite Hst. unfold later_events. rewrite fmap_app. simpl.
    destruct Ha as (evs & _ & pre & mid & post & _ & _ & _ & Hf & _).
    unfold is_finish, str_eqb in Hf. apply bool_decide_eq_true in Hf. by rewrite Hf. }
  unfold recorded_errors. split.
  - intros Hne.
    destruct (filter (λ e, error_like e = true) (later_events a)) as [|e l] eqn:Hfil;
      [done|].
    assert (e ∈ filter (λ e, error_like e = true) (later_events a)) as Hin
      by (rewrite Hfil; left).
    apply list_elem_of_filter in Hin as [He Hin].
    exists (ev_status e). split.
    + right. apply list_elem_of_fmap. eauto.
    + unfold error_like, status_in in He. by apply bool_decide_eq_true in He.
  - intros (status & [->|Hin]%elem_of_cons & Herr).
    + exfalso. revert Herr. clear. unfold error_statuses.
      rewrite !elem_of_cons, elem_of_nil.
      intros [?|[?|[?|[?|[?|[?|[?|[]]]]]]]]; discriminate.
    + apply list_elem_of_fmap in Hin as (e & -> & Hin).
      assert (e ∈ filter (λ e, error_like e = true) (later_events a)) as Hfil.
      { apply list_elem_of_filter. split; [|done].
        unfold error_like, status_in. by apply bool_decide_eq_true. }
      intros Hnil. apply fmap_nil_inv in Hnil. rewrite Hnil in Hfil.
      by apply elem_of_nil in Hfil.
Qed.

(** ** Events that are ignored *)

Lemma parse_lines_skip (before after : list str) (line : str) (e : Event) :
  decode_line line = Ok (Some e) →
  (∀ evs, decode_all before = Ok evs → handle (run evs Loop0) e = run evs Loop0) →
  parse_lines (before ++ line :: after) = parse_lines (before ++ after).
Proof.
  intros Hline Hskip. rewrite !parse_lines_run, !decode_all_app_eq. simpl.
  rewrite Hline. simpl.
  destruct (decode_all before) as [evs1|]; simpl; [|done].
  destruct (decode_all after) as [evs2|]; simpl; [|done].
  rewrite !run_app. simpl. by rewrite Hskip.
Qed.

(** X10. An event line whose message holds no attempt id changes nothing,
    wherever it stands and whatever its status; a message without the text
    "attempt=" is such a message. *)
Theorem event_without_id_ignored (before after : list str) (line : str) (e : Event) :
  decode_line line = Ok (Some e) →
  contains (u "attempt=") (ev_msg e) = false →
  ev_attempt e = None
  ∧ parse_lines (before ++ line :: after) = parse_lines (before ++ after).
Proof.
  intros Hline Hno.
  assert (ev_attempt e = None) as Hid.
  { apply decode_line_attempt in Hline. unfold parse_attempt_id, re_search in Hline.
    destruct (search_from ATTEMPT_RE 0 (ev_msg e)) as [m|] eqn:Hm.
    - apply field_re_groups in Hm as (text & pre & post & _ & _ & _ & Hmsg).
      rewrite Hmsg, contains_app in Hno. done.
    - by injection Hline as <-. }
  split; [done|]. apply (parse_lines_skip _ _ _ e Hline).
  intros evs _. apply handle_ignored. by left.
Qed.

Lemma never_started_not_live (id : Z) (lines : list str) (evs : list Event) :
  decode_all lines = Ok evs → Forall (λ l, ¬ starts id l) lines →
  attempts (run evs Loop0) !! id = None.
Proof.
  intros Hdec Hnone.
  destruct (attempts (run evs Loop0) !! id) as [state|] eqn:Hlive; [|done].
  exfalso. destruct (loop_invariant_run evs) as [Hinv _].
  destruct (Hinv id state Hlive) as (pre & s & mid & -> & Hs & Hid & _).
  apply decode_all_split in Hdec as (l1 & line & l2 & -> & _ & Hline & _).
  rewrite Forall_forall in Hnone. apply (Hnone line).
  - apply elem_of_app. right. by left.
  - by exists s.
Qed.

(** X11. An event of an attempt id that no earlier line has started changes
    nothing, unless it is itself a start: a stray finish or error line emits
    no row and leaves no state behind. *)
Theorem stray_event_ignored
    (id : Z) (before after : list str) (line : str) (e : Event) :
  decode_line line = Ok (Some e) → ev_attempt e = Some id → is_start e = false →
  Forall (λ l, ¬ starts id l) before →
  parse_lines (before ++ line :: after) = parse_lines (before ++ after).
Proof.
  intros Hline Hid Hs Hnone. apply (parse_lines_skip _ _ _ e Hline).
  intros evs Hdec. apply handle_ignored. right. exists id.
  repeat split; [done..|]. by eapply never_started_not_live.
Qed.

(** ** Exactly when the pipeline raises *)

Lemma py_int_too_long (digits : str) :
  digits ≠ [] → forallb is_decimal digits = true →
  (int_max_str_digits < length digits)%nat → py_int digits = Raise ValueError.
Proof.
  intros Hne Hdec Hlen. unfold py_int.
  assert (is_Some (mapM decimal_value digits)) as [ds Hds].
  { apply mapM_is_Some. apply Forall_forall. intros c Hc.
    rewrite forallb_forall in Hdec. apply list_elem_of_In, Hdec in Hc.
    unfold is_decimal in Hc. by apply bool_decide_eq_true in Hc. }
  rewrite Hds. destruct ds as [|d ds].
  - apply length_mapM in Hds. by destruct digits.
  - by rewrite bool_decide_eq_true_2 by lia.
Qed.

Lemma decode_line_raises (line : str) :
  decode_line line = Raise ValueError ↔ too_long_number line.
Proof.
  unfold decode_line, too_long_number.
  destruct (re_match LINE_RE line) as [m|] eqn:Hm.
  2:{ split; [done|]. by intros (m & ? & _). }
  pose proof Hm as Hgroups. apply line_re_groups in Hgroups
    as (ts & status & playlist & msg & Hcaps & Hts & Hdec & _ & _).
  assert (group 1 m = ts) as Hg1 by by rewrite Hcaps.
  assert (group 4 m = msg) as Hg4 by by rewrite Hcaps.
  rewrite Hg1, Hg4.
  destruct (decide (int_max_str_digits < length ts)%nat) as [Hlong|Hshort].
  { rewrite py_int_too_long by done. simpl. split; [|done].
    intros _. exists m. split; [done|]. left. by rewrite Hg1. }
  destruct (py_int_digits ts) as [n ->]; [done..|lia|]. simpl.
  unfold parse_attempt_id.
  destruct (re_search ATTEMPT_RE (strip msg)) as [m'|] eqn:Hsearch; simpl.
  2:{ split; [done|]. intros (m0 & [= <-] & [Hlong|(m' & Hm' & _)]).
      - rewrite Hg1 in Hlong. lia.
      - rewrite Hg4 in Hm'. congruence. }
  pose proof Hsearch as Hd. apply attempt_re_groups in Hd
    as (digits & Hcaps' & Hne & Hdec' & _).
  assert (group 1 m' = digits) as Hg1' by by rewrite Hcaps'.
  rewrite Hg1'.
  destruct (decide (int_max_str_digits < length digits)%nat) as [Hlong'|Hshort'].
  - rewrite py_int_too_long by done. simpl. split; [|done].
    intros _. exists m. split; [done|]. right. exists m'.
    rewrite Hg4, Hg1'. done.
  - destruct (py_int_digits digits) as [id ->]; [done..|lia|]. simpl.
    split; [done|]. intros (m0 & [= <-] & [Hlong|(m'' & Hm'' & Hlong)]).
    + rewrite Hg1 in Hlong. lia.
    + rewrite Hg4, Hsearch in Hm''. injection Hm'' as <-.
      rewrite Hg1' in Hlong. lia.
Qed.

Lemma decode_all_raises (lines : list str) :
  decode_all lines = Raise ValueError ↔ Exists too_long_number lines.
Proof.
  induction lines as [|line lines IH]; simpl.
  - split; [done|]. intros Hex. inversion Hex.
  - rewrite Exists_cons, <- IH, <- decode_line_raises.
    destruct (decode_line line) as [oe|[]]; simpl; [|by split; auto].
    destruct (decode_all lines) as [evs|[]]; simpl.
    + split; [done|]. by intros [?|?].
    + split; [by right|done].
Qed.

(** X12. [parse_lines] raises exactly when some line of the line shape has
    a timestamp, or a first attempt id in its message, of more than 4300
    digits; the exception is then [ValueError], and in every other case the
    rows are returned. *)
Theorem parse_lines_raises_iff (lines : list str) :
  (parse_lines lines = Raise ValueError ↔ Exists too_long_number lines)
  ∧ (¬ Exists too_long_number lines → ∃ rows, parse_lines lines = Ok rows).
Proof.
  assert (parse_lines lines = Raise ValueError ↔ Exists too_long_number lines) as Hiff.
  { rewrite <- decode_all_raises, parse_lines_run.
    by destruct (decode_all lines) as [evs|[]]. }
  split; [done|]. intros Hno.
  destruct (parse_lines lines) as [rows|[]]; [eauto|].
  exfalso. by apply Hno, Hiff.
Qed.

(** ** The normal form of a query *)

Lemma single_spaced_cons (c : N) (s : str) :
  single_spaced (c :: s)
  = (if is_space c
     then (c =? 32)%N && match s with
                         | c' :: _ => negb (is_space c')
                         | [] => false
                         end
     else true)
    && single_spaced s.
Proof. done. Qed.

Lemma single_spaced_tail (c : N) (s : str) :
  single_spaced (c :: s) = true → single_spaced s = true.
Proof. cbn [single_spaced]. by intros [_ ?]%andb_true_iff. Qed.

Lemma single_spaced_space (c : N) (s : str) :
  single_spaced (c :: s) = true → is_space c = true →
  c = 32%N ∧ ∃ c' s', s = c' :: s' ∧ is_space c' = false.
Proof.
  cbn [single_spaced]. intros [Hc _]%andb_true_iff Hsp. rewrite Hsp in Hc.
  apply andb_true_iff in Hc as [->%N.eqb_eq Hnext]. split; [done|].
  destruct s as [|c' s']; [done|]. apply negb_true_iff in Hnext. eauto.
Qed.

Lemma single_spaced_last (s : str) (c : N) :
  single_spaced s = true → last s = Some c → is_space c = false.
Proof.
  induction s as [|a s IH]; [done|]. intros Hss Hlast.
  destruct s as [|b s].
  - injection Hlast as ->. destruct (is_space c) eqn:Hsp; [|done].
    by destruct (single_spaced_space _ _ Hss Hsp) as (_ & ? & ? & ? & _).
  - apply IH; [by eapply single_spaced_tail|done].
Qed.

Lemma single_spaced_lstrip (p : N → bool) (s : str) :
  single_spaced s = true → single_spaced (lstrip_by p s) = true.
Proof.
  induction s as [|c s IH]; [done|]. intros Hss. cbn [lstrip_by].
  destruct (p c); [|done]. apply IH. by eapply single_spaced_tail.
Qed.

Lemma rstrip_by_keeps_head (p : N → bool) (s : str) (c : N) (r : str) :
  rstrip_by p s = c :: r → ∃ t, s = c :: t.
Proof.
  destruct s as [|a t]; [done|]. rewrite rstrip_by_cons.
  destruct (rstrip_by p t); [destruct (p a)|]; intros [= <- _]; eauto.
  all: try done.
Qed.

Lemma space_is_punct (c : N) : c = 32%N → query_punct c = true.
Proof. by intros ->. Qed.

Lemma single_spaced_rstrip (s : str) :
  single_spaced s = true → single_spaced (rstrip_by query_punct s) = true.
Proof.
  induction s as [|c s IH]; [done|]. intros Hss.
  pose proof (IH (single_spaced_tail _ _ Hss)) as IH'.
  rewrite rstrip_by_cons.
  destruct (rstrip_by query_punct s) as [|c' r] eqn:Hr.
  - destruct (query_punct c) eqn:Hp; [done|]. rewrite single_spaced_cons.
    destruct (is_space c) eqn:Hsp; [|done].
    destruct (single_spaced_space _ _ Hss Hsp) as [-> _]. done.
  - apply rstrip_by_keeps_head in Hr as Hhead. destruct Hhead as [t ->].
    rewrite single_spaced_cons, IH', andb_true_r.
    destruct (is_space c) eqn:Hsp; [|done].
    destruct (single_spaced_space _ _ Hss Hsp) as (-> & c2 & s2 & [= <- <-] & ->).
    done.
Qed.

Lemma collapse_ws_single_spaced (s : str) :
  match last s with Some c => is_space c = false | None => True end →
  single_spaced (collapse_ws s) = true.
Proof.
  induction s as [|c s IH]; [done|]. intros Hlast.
  assert (s ≠ [] → single_spaced (collapse_ws s) = true) as IH'.
  { intros Hne. apply IH. destruct s; [done|]. by rewrite last_cons_cons in Hlast. }
  destruct (is_space c) eqn:Hc.
  - destruct s as [|c' s]; [simpl in Hlast; congruence|].
    change (collapse_ws (c :: c' :: s))
      with (if is_space c
            then if is_space c' then collapse_ws (c' :: s)
                 else 32%N :: collapse_ws (c' :: s)
            else c :: collapse_ws (c' :: s)).
    rewrite Hc. destruct (is_space c') eqn:Hc'; [by apply IH'|].
    assert (collapse_ws (c' :: s) = c' :: collapse_ws s) as Heq.
    { cbn [collapse_ws]. by rewrite Hc'. }
    rewrite single_spaced_cons, IH' by done. rewrite Heq.
    change (is_space 32) with true. cbn. by rewrite Hc'.
  - assert (collapse_ws (c :: s) = c :: collapse_ws s) as ->.
    { cbn [collapse_ws]. by rewrite Hc. }
    rewrite single_spaced_cons, Hc. simpl.
    destruct s as [|c' s]; [done|]. by apply IH'.
Qed.

Lemma punct_head_of_single_spaced (s : str) :
  single_spaced s = true →
  match s with c :: _ => query_punct c = false | [] => True end →
  no_leading_punct s = true.
Proof.
  destruct s as [|c s]; [done|]. intros Hss Hp. unfold no_leading_punct.
  rewrite Hp. destruct (is_space c) eqn:Hsp; [|done].
  destruct (single_spaced_space _ _ Hss Hsp) as [-> _]. done.
Qed.

Lemma punct_last_of_single_spaced (s : str) :
  single_spaced s = true →
  match last s with Some c => query_punct c = false | None => True end →
  no_trailing_punct s = true.
Proof.
  unfold no_trailing_punct. intros Hss Hp.
  destruct (last s) as [c|] eqn:Hlast; [|done].
  by rewrite Hp, (single_spaced_last s c).
Qed.

Lemma normalize_query_eq (raw : str) :
  normalize_query raw = strip_by query_punct (collapse_ws (strip raw)).
Proof. unfold normalize_query. by rewrite re_sub_spaces. Qed.

(** X13. [normalize_query] returns a text in normal form: no blank, comma,
    period, semicolon or other whitespace at either end, and no whitespace
    inside but single spaces between words. A text in this form is left as
    it is, so normalizing twice is normalizing once, and the query of every
    emitted row is in this form. *)
Theorem normalize_query_normal_form (raw : str) :
  let q := normalize_query raw in
  no_leading_punct q = true ∧ no_trailing_punct q = true ∧ single_spaced q = true
  ∧ normalize_query q = q
  ∧ (∀ lines rows row,
       parse_lines lines = Ok rows → row ∈ rows →
       normalize_query (row_query row) = row_query row).
Proof.
  assert (∀ raw, let q := normalize_query raw in
            no_leading_punct q = true ∧ no_trailing_punct q = true
            ∧ single_spaced q = true ∧ normalize_query q = q) as Hnormal.
  { clear raw. intros raw q.
    assert (single_spaced q = true) as Hss.
    { subst q. rewrite normalize_query_eq. unfold strip_by at 1.
      apply single_spaced_rstrip, single_spaced_lstrip, collapse_ws_single_spaced.
      unfold strip, strip_by. apply rstrip_by_last. }
    assert (no_leading_punct q = true) as Hlead.
    { apply punct_head_of_single_spaced; [done|].
      subst q. rewrite normalize_query_eq. unfold strip_by at 1.
      apply rstrip_by_head, lstrip_by_head. }
    assert (no_trailing_punct q = true) as Htrail.
    { apply punct_last_of_single_spaced; [done|].
      subst q. rewrite normalize_query_eq. unfold strip_by at 1.
      apply rstrip_by_last. }
    repeat split; try done.
    rewrite normalize_query_eq. by apply normalize_query_tidy. }
  intros q. destruct (Hnormal raw) as (H1 & H2 & H3 & H4).
  repeat split; try done.
  intros lines rows row Hrows Hrow.
  destruct (row_closed_attempt _ _ _ Hrows Hrow) as (a & _ & ->).
  destruct (row_of_start_fields a) as (_ & _ & _ & -> & _).
  apply Hnormal.
Qed.

(** ** The counts of the report *)

Lemma with_label_partition (entries : list Row) (l1 l2 l3 : str) :
  l1 ≠ l2 → l1 ≠ l3 → l2 ≠ l3 →
  Forall (λ row, row_label row ∈ [l1; l2; l3]) entries →
  (length (with_label l1 entries) + length (with_label l2 entries)
   + length (with_label l3 entries) = length entries)%nat.
Proof.
  intros H12 H13 H23. unfold with_label.
  induction 1 as [|row entries Hrow _ IH]; [done|].
  rewrite !filter_cons. simpl.
  apply elem_of_cons in Hrow as [->|Hrow].
  { rewrite decide_True, !decide_False by done. simpl. lia. }
  apply elem_of_cons in Hrow as [->|Hrow].
  { rewrite decide_False, decide_True, decide_False by done. simpl. lia. }
  apply list_elem_of_singleton in Hrow as ->.
  rewrite !decide_False, decide_True by done. simpl. lia.
Qed.

(** ** Counters *)

Lemma str_eqb_eq (a b : str) : str_eqb a b = true ↔ a = b.
Proof. unfold str_eqb. apply bool_decide_eq_true. Qed.

Lemma counter_incr_keys (key : str) (c : list (str * nat)) :
  fst <$> counter_incr key c
  = (fst <$> c) ++ (if bool_decide (key ∈ fst <$> c) then [] else [key]).
Proof.
  induction c as [|[k n] c IH]; [done|]. cbn [counter_incr].
  destruct (str_eqb k key) eqn:Hk.
  - apply str_eqb_eq in Hk as ->. rewrite !fmap_cons. cbn [fst].
    rewrite bool_decide_eq_true_2 by left. by rewrite app_nil_r.
  - rewrite !fmap_cons, IH. cbn [fst]. rewrite <- app_comm_cons. f_equal. f_equal.
    assert (bool_decide (key ∈ fst <$> c) = bool_decide (key ∈ k :: (fst <$> c))) as ->;
      [|done].
    apply bool_decide_ext. rewrite elem_of_cons.
    split; [auto|]. intros [->|?]; [|done].
    unfold str_eqb in Hk. by apply bool_decide_eq_false in Hk.
Qed.

Lemma counter_incr_NoDup (key : str) (c : list (str * nat)) :
  NoDup (fst <$> c) → NoDup (fst <$> counter_incr key c).
Proof.
  intros Hnd. rewrite counter_incr_keys. case_bool_decide as Hin.
  - by rewrite app_nil_r.
  - apply NoDup_app. split; [done|]. split; [|apply NoDup_singleton].
    intros k Hk ->%list_elem_of_singleton. done.
Qed.

Lemma counter_incr_elem (key : str) (c : list (str * nat)) (k : str) (n : nat) :
  NoDup (fst <$> c) →
  (k, n) ∈ counter_incr key c ↔
  (k ≠ key ∧ (k, n) ∈ c)
  ∨ (k = key ∧ ((∃ n', n = S n' ∧ (key, n') ∈ c)
                ∨ (n = 1%nat ∧ key ∉ fst <$> c))).
Proof.
  induction c as [|[k0 n0] c IH]; intros Hnd; cbn [counter_incr].
  - rewrite list_elem_of_singleton, fmap_nil.
    pose proof (not_elem_of_nil key). pose proof (not_elem_of_nil (key, n)).
    split; [intros [= -> ->]; auto|].
    intros [[_ Hin]|[-> [(n' & _ & Hin)|[-> _]]]]; [|..|done];
      by apply elem_of_nil in Hin.
  - rewrite fmap_cons in Hnd |- *. cbn [fst] in *.
    apply NoDup_cons in Hnd as [Hk0 Hnd]. specialize (IH Hnd).
    assert (∀ m, (k0, m) ∉ c) as Hfresh.
    { intros m Hm. apply Hk0. apply list_elem_of_fmap. by exists (k0, m). }
    rewrite not_elem_of_cons.
    destruct (str_eqb k0 key) eqn:Hk.
    + apply str_eqb_eq in Hk as ->. rewrite !elem_of_cons. split.
      * intros [Heq|Hin].
        -- simplify_eq. right. split; [done|]. left. exists n0.
           split; [done|]. by left.
        -- left. split; [intros ->; by apply (Hfresh n)|]. by right.
      * intros [[Hne [Heq|Hin]]|[-> [(n' & -> & [Heq|Hin]%elem_of_cons)|[_ [Hnot _]]]]];
          [| | | |done].
        -- congruence.
        -- by right.
        -- simplify_eq. by left.
        -- by destruct (Hfresh n').
    + assert (k0 ≠ key) as Hne.
      { unfold str_eqb in Hk. by apply bool_decide_eq_false in Hk. }
      rewrite !elem_of_cons, IH. split.
      * intros [Heq|[[Hk' Hin]|[-> [(n' & -> & Hin)|[-> Hnot]]]]].
        -- simplify_eq. left. split; [done|]. by left.
        -- left. split; [done|]. by right.
        -- right. split; [done|]. left. exists n'. split; [done|]. by right.
        -- right. split; [done|]. right. auto.
      * intros [[Hk' [Heq|Hin]]|[-> [(n' & -> & [Heq|Hin]%elem_of_cons)|[-> [_ Hnot]]]]].
        -- by left.
        -- right. left. done.
        -- congruence.
        -- right. right. split; [done|]. left. eauto.
        -- right. right. split; [done|]. right. done.
Qed.

Lemma occurrences_snoc (key k : str) (keys : list str) :
  occurrences k (keys ++ [key])
  = (occurrences k keys + if bool_decide (key = k) then 1 else 0)%nat.
Proof.
  unfold occurrences. rewrite filter_app, length_app, filter_cons, filter_nil.
  case_decide; case_bool_decide; simpl; try done.
Qed.

(** What a counter holds after counting [keys]: each key once, with the
    number of its occurrences. *)
Lemma Counter_spec (keys : list str) :
  NoDup (fst <$> Counter keys)
  ∧ ∀ k n, (k, n) ∈ Counter keys ↔ (0 < n)%nat ∧ n = occurrences k keys.
Proof.
  unfold Counter. induction keys as [|key keys IH] using rev_ind.
  - split; [constructor|]. intros k n. simpl. unfold occurrences. simpl.
    split; [by intros ?%elem_of_nil|lia].
  - destruct IH as [Hnd Hspec]. rewrite foldl_app. simpl.
    split; [by apply counter_incr_NoDup|].
    intros k n. rewrite counter_incr_elem by done.
    rewrite occurrences_snoc. split.
    + intros [[Hne Hin]|[-> [(n' & -> & Hin)|[-> Hnot]]]].
      * apply Hspec in Hin. rewrite bool_decide_eq_false_2 by done. lia.
      * apply Hspec in Hin. rewrite bool_decide_eq_true_2 by done. lia.
      * rewrite bool_decide_eq_true_2 by done.
        destruct (occurrences key keys) as [|m] eqn:Hocc; [lia|].
        exfalso. apply Hnot. apply list_elem_of_fmap. exists (key, S m).
        split; [done|]. apply Hspec. lia.
    + intros [Hpos ->]. case_bool_decide as Hk.
      * subst k. right. split; [done|].
        destruct (occurrences key keys) as [|m] eqn:Hocc.
        -- right. split; [done|]. intros ([k' n'] & Hk' & Hin)%list_elem_of_fmap.
           simpl in Hk'. subst k'. apply Hspec in Hin. lia.
        -- left. exists (S m). split; [lia|]. apply Hspec. lia.
      * left. split; [congruence|]. apply Hspec. lia.
Qed.

(** ** The order of [most_common] *)

Lemma insert_by_count_perm (x : str * nat) (l : list (str * nat)) :
  insert_by_count x l ≡ₚ x :: l.
Proof.
  induction l as [|y l IH]; simpl; [done|].
  destruct (snd y <=? snd x)%nat; [done|]. rewrite IH. apply Permutation_swap.
Qed.

Lemma most_common_all_perm (c : list (str * nat)) : most_common_all c ≡ₚ c.
Proof.
  unfold most_common_all. induction c as [|x c IH]; simpl; [done|].
  by rewrite insert_by_count_perm, IH.
Qed.

Lemma insert_by_count_ties (n : nat) (x : str * nat) (l : list (str * nat)) :
  filter (λ z, snd z = n) (insert_by_count x l)
  = filter (λ z, snd z = n) (x :: l).
Proof.
  induction l as [|y l IH]; simpl; [done|].
  destruct (snd y <=? snd x)%nat eqn:Hle; [done|].
  apply Nat.leb_gt in Hle.
  rewrite (filter_cons _ y), IH, !filter_cons.
  repeat case_decide; try done; lia.
Qed.

Lemma insert_by_count_sorted (x : str * nat) (l : list (str * nat)) :
  (∀ i j a b, (i < j)%nat → l !! i = Some a → l !! j = Some b → (snd b ≤ snd a)%nat) →
  ∀ i j a b, (i < j)%nat → insert_by_count x l !! i = Some a →
             insert_by_count x l !! j = Some b → (snd b ≤ snd a)%nat.
Proof.
  induction l as [|y l IH]; intros Hsorted i j a b Hij; simpl.
  - destruct i, j; simpl; try done; lia.
  - destruct (snd y <=? snd x)%nat eqn:Hle.
    + apply Nat.leb_le in Hle. destruct i as [|i]; simpl.
      * intros [= <-]. destruct j as [|j]; [lia|]. simpl.
        destruct j as [|j]; simpl; [by intros [= <-]|].
        intros Hb. specialize (Hsorted 0%nat (S j) y b). simpl in Hsorted.
        etrans; [apply Hsorted; [lia|done..]|done].
      * destruct j as [|j]; [lia|]. simpl. apply Hsorted. lia.
    + apply Nat.leb_gt in Hle.
      assert (∀ b, b ∈ insert_by_count x l → (snd b ≤ snd y)%nat) as Hbelow.
      { intros b' Hb'. rewrite insert_by_count_perm in Hb'.
        apply elem_of_cons in Hb' as [->|Hb']; [lia|].
        apply list_elem_of_lookup in Hb' as [k Hk].
        apply (Hsorted 0%nat (S k) y b'); [lia|done..]. }
      destruct i as [|i]; simpl.
      * intros [= <-]. destruct j as [|j]; [lia|]. simpl.
        intros Hb. apply Hbelow. by eapply list_elem_of_lookup_2.
      * destruct j as [|j]; [lia|]. simpl. apply IH; [|lia].
        intros i' j' a' b' Hij' Ha' Hb'.
        apply (Hsorted (S i') (S j')); [lia|done..].
Qed.

Lemma most_common_all_sorted (c : list (str * nat)) (i j : nat) (a b : str * nat) :
  (i < j)%nat → most_common_all c !! i = Some a → most_common_all c !! j = Some b →
  (snd b ≤ snd a)%nat.
Proof.
  unfold most_common_all. revert i j a b.
  induction c as [|x c IH]; simpl; [by intros [] [] |].
  by apply insert_by_count_sorted.
Qed.

Lemma most_common_all_ties (n : nat) (c : list (str * nat)) :
  filter (λ z, snd z = n) (most_common_all c) = filter (λ z, snd z = n) c.
Proof.
  unfold most_common_all. induction c as [|x c IH]; simpl; [done|].
  by rewrite insert_by_count_ties, !filter_cons, IH.
Qed.

(** ** The lines of the report *)

Lemma join_lines (sep : str) (parts : list str) :
  parts ≠ [] → join sep parts ++ sep = parts ≫= (λ p, p ++ sep).
Proof.
  induction parts as [|p parts IH]; [done|]. intros _.
  destruct parts as [|p' parts].
  - simpl. by rewrite app_nil_r.
  - change (join sep (p :: p' :: parts)) with (p ++ sep ++ join sep (p' :: parts)).
    rewrite <- !app_assoc, IH by done.
    by rewrite (bind_cons _ p), <- app_assoc.
Qed.

Lemma build_summary_lines (entries : list Row) :
  entries ≠ [] → build_summary entries = summary_lines entries ≫= (λ p, p ++ [NL]).
Proof.
  intros Hne. rewrite <- join_lines by (unfold summary_lines; simpl; congruence).
  by destruct entries.
Qed.

Lemma last_bind_lines (parts : list str) :
  parts ≠ [] → last (parts ≫= (λ p, p ++ [NL])) = Some NL.
Proof.
  induction parts as [|p parts IH] using rev_ind; [done|]. intros _.
  rewrite bind_app. simpl. rewrite app_nil_r, !app_assoc. apply last_snoc.
Qed.

Lemma has_line_bind (line : str) (parts : list str) :
  line ∈ parts → has_line line (parts ≫= (λ p, p ++ [NL])).
Proof.
  intros (a & b & ->)%list_elem_of_split.
  exists (a ≫= (λ p, p ++ [NL])), (b ≫= (λ p, p ++ [NL])). split.
  - rewrite bind_app. simpl. by rewrite <- !app_assoc.
  - destruct a as [|p a]; [by left|]. right. by apply last_bind_lines.
Qed.

Lemma occurrences_fmap {A} (f : A → str) (key : str) (l : list A) :
  occurrences key (f <$> l) = length (filter (λ x, f x = key) l).
Proof.
  unfold occurrences. induction l as [|x l IH]; [done|].
  rewrite fmap_cons, !filter_cons. repeat case_decide; simpl; congruence.
Qed.

Lemma ranked_item_line (f : Row → str) (entries : list Row) (row : Row) :
  row ∈ entries →
  item_line (f row, length (filter (λ r, f r = f row) entries))
  ∈ item_line <$> most_common_all (Counter (f <$> entries)).
Proof.
  intros Hrow. apply list_elem_of_fmap. eexists. split; [done|].
  rewrite most_common_all_perm. apply Counter_spec.
  rewrite occurrences_fmap. split; [|done].
  assert (row ∈ filter (λ r, f r = f row) entries) as Hin
    by by apply list_elem_of_filter.
  destruct (filter _ entries); [by apply elem_of_nil in Hin|simpl; lia].
Qed.

(** X16. The report of a list of entries that is not empty has the line
    of the total, and for the provider and for the mode of every entry a
    line with the number of entries that have it. *)
Theorem report_counts_every_entry (entries : list Row) (row : Row) :
  entries ≠ [] → row ∈ entries →
  has_line (u "- Всего попыток: " ++ repr_int (Z.of_nat (length entries)))
           (build_summary entries)
  ∧ has_line
      (item_line (row_provider row,
                  length (filter (λ r, row_provider r = row_provider row) entries)))
      (build_summary entries)
  ∧ has_line
      (item_line (row_mode row,
                  length (filter (λ r, row_mode r = row_mode row) entries)))
      (build_summary entries).
Proof.
  intros Hne Hrow. rewrite build_summary_lines by done.
  pose proof (ranked_item_line row_provider entries row Hrow) as Hp.
  pose proof (ranked_item_line row_mode entries row Hrow) as Hm.
  unfold summary_lines. cbv zeta.
  split; [|split]; apply has_line_bind.
  - do 2 right. left.
  - rewrite !elem_of_app. do 5 right. by left.
  - rewrite !elem_of_app. do 7 right. by left.
Qed.

(** ** The counts at the head of the report *)

(** X14. The report opens with its title, an empty line and the four
    counts: the number of rows, and the numbers of rows labelled success,
    empty and failed. On the rows of a log these three add up to the first:
    every attempt is counted once. *)
Theorem summary_counts_add_up (lines : list str) (rows : list Row) :
  parse_lines lines = Ok rows → rows ≠ [] →
  let count label := length (with_label label rows) in
  (∃ rest,
     build_summary rows
     = lines_text
         ([u "# AI training summary";
           [];
           u "- Всего попыток: " ++ repr_int (Z.of_nat (length rows));
           u "- Успешных (found>0): " ++ repr_int (Z.of_nat (count (u "success")));
           u "- Пустых (found=0, без явной ошибки): "
             ++ repr_int (Z.of_nat (count (u "empty")));
           u "- Ошибок: " ++ repr_int (Z.of_nat (count (u "failed")))]
          ++ rest))
  ∧ (count (u "success") + count (u "empty") + count (u "failed") = length rows)%nat.
Proof.
  intros Hrows Hne count. split.
  - rewrite build_summary_lines by done. unfold summary_lines. cbv zeta.
    eexists. unfold lines_text, count. f_equal.
  - apply with_label_partition; try (vm_compute; discriminate).
    apply Forall_forall. intros row Hrow.
    pose proof (row_label_three _ _ _ Hrows Hrow) as Hlabel.
    revert Hlabel. generalize (row_label row). intros l.
    rewrite !elem_of_cons, !elem_of_nil. tauto.
Qed.

(** ** The order of the items in the report *)

Lemma Counter_keys_elem (key : str) (keys : list str) :
  key ∈ fst <$> Counter keys ↔ key ∈ keys.
Proof.
  destruct (Counter_spec keys) as [_ Hspec]. split.
  - intros ([k m] & -> & Hin)%list_elem_of_fmap. apply Hspec in Hin as [Hpos ->].
    simpl. unfold occurrences in Hpos.
    destruct (filter (λ k0, k0 = k) keys) as [|k' l] eqn:Hf; [simpl in Hpos; lia|].
    assert (k' ∈ filter (λ k0, k0 = k) keys) as Hk' by (rewrite Hf; left).
    by apply list_elem_of_filter in Hk' as [-> ?].
  - intros Hin. apply list_elem_of_fmap. exists (key, occurrences key keys).
    split; [done|]. apply Hspec. split; [|done]. unfold occurrences.
    assert (key ∈ filter (λ k0, k0 = key) keys) as Hf
      by by apply list_elem_of_filter.
    destruct (filter _ keys); [by apply elem_of_nil in Hf|simpl; lia].
Qed.

(** The keys of a counter stand in the order of their first occurrence. *)
Lemma Counter_keys_order (keys k1 k2 : list str) (x : str) :
  fst <$> Counter keys = k1 ++ x :: k2 →
  ∃ pre post, keys = pre ++ x :: post ∧ ∀ y, y ∈ pre → y ∈ k1.
Proof.
  revert k1 k2; induction keys as [|key keys IH] using rev_ind; intros k1 k2.
  - intros Heq. by destruct k1.
  - unfold Counter. rewrite foldl_app. simpl. fold (Counter keys).
    rewrite counter_incr_keys. case_bool_decide as Hin.
    + rewrite app_nil_r. intros (pre & post & -> & Hpre)%IH.
      exists pre, (post ++ [key]). by rewrite <- app_assoc.
    + destruct k2 as [|z k2 _] using rev_ind.
      * intros [Hk1 ->]%(app_inj_tail _ k1). exists keys, []. split; [done|].
        intros y Hy. rewrite <- Hk1. by apply Counter_keys_elem.
      * rewrite app_comm_cons, app_assoc.
        intros [(pre & post & -> & Hpre)%IH _]%app_inj_tail.
        exists pre, (post ++ [key]). by rewrite <- app_assoc.
Qed.

Lemma filter_split_inv {A} (P : A → Prop) `{∀ x, Decision (P x)}
    (l x y : list A) (a : A) :
  filter P l = x ++ a :: y →
  ∃ l1 l2, l = l1 ++ a :: l2 ∧ filter P l1 = x ∧ filter P l2 = y.
Proof.
  revert x; induction l as [|c l IH]; intros x.
  - intros Heq. by destruct x.
  - rewrite filter_cons. case_decide as Hc.
    + destruct x as [|c' x]; simpl.
      * intros [= -> Hy]. by exists [], l.
      * intros [= -> (l1 & l2 & -> & Hx & Hy)%IH]. exists (c' :: l1), l2.
        rewrite filter_cons, decide_True by done. by rewrite Hx.
    + intros (l1 & l2 & -> & Hx & Hy)%IH. exists (c :: l1), l2.
      by rewrite filter_cons, decide_False.
Qed.

Lemma lookup_two_split {A} (l : list A) (i j : nat) (a b : A) :
  (i < j)%nat → l !! i = Some a → l !! j = Some b →
  ∃ l1 l2 l3, l = l1 ++ a :: l2 ++ b :: l3.
Proof.
  intros Hij Ha Hb.
  pose proof (take_drop_middle l i a Ha) as Hl.
  assert (drop (S i) l !! (j - S i)%nat = Some b) as Hb'.
  { rewrite lookup_drop. by replace (S i + (j - S i))%nat with j by lia. }
  pose proof (take_drop_middle _ _ _ Hb') as Hl'.
  exists (take i l), (take (j - S i) (drop (S i) l)),
         (drop (S (j - S i)) (drop (S i) l)).
  by rewrite Hl', Hl.
Qed.

(** [most_common] ranks the keys that were counted. *)
Lemma most_common_ranks (keys : list str) :
  ranks keys (most_common_all (Counter keys)).
Proof.
  destruct (Counter_spec keys) as [Hnd Hspec].
  split; [by rewrite most_common_all_perm|].
  split; [intros k m; by rewrite most_common_all_perm|].
  intros i j a b Hij Ha Hb.
  split; [by eapply most_common_all_sorted|]. intros Htie.
  destruct (lookup_two_split _ _ _ _ _ Hij Ha Hb) as (l1 & l2 & l3 & Hl).
  pose proof (most_common_all_ties (snd a) (Counter keys)) as Hties.
  rewrite Hl in Hties.
  rewrite filter_app, filter_cons, decide_True in Hties by done.
  rewrite filter_app, (filter_cons _ b), decide_True in Hties by done.
  symmetry in Hties.
  apply filter_split_inv in Hties as (c1 & c2 & HC & _ & Hc2).
  apply filter_split_inv in Hc2 as (c21 & c22 & -> & _ & _).
  assert (fst <$> Counter keys
          = (fst <$> c1) ++ fst a :: ((fst <$> c21) ++ fst b :: (fst <$> c22))) as Hkeys
    by by rewrite HC, fmap_app, fmap_cons, fmap_app, fmap_cons.
  destruct (Counter_keys_order _ _ _ _ Hkeys) as (pre & post & Hpre & Hin).
  exists pre, post. split; [done|]. intros Hb'%Hin.
  rewrite Hkeys in Hnd. apply NoDup_app in Hnd as (_ & Hdisj & _).
  apply (Hdisj _ Hb'). right. apply elem_of_app. right. left.
Qed.

Lemma top_lines_most_common (c : list (str * nat)) :
  match c with
  | _ :: _ => item_line <$> most_common 10 c
  | [] => [u "- нет данных"]
  end = top_lines (most_common_all c).
Proof.
  destruct c as [|x c]; [done|]. unfold top_lines, most_common.
  destruct (most_common_all (x :: c)) as [|y l] eqn:Hm; [|done].
  pose proof (most_common_all_perm (x :: c)) as Hperm. rewrite Hm in Hperm.
  by apply Permutation_nil_cons in Hperm.
Qed.

(** X15. After its counts the report lists, under their four headings, the
    queries of the successful entries and the error types of the failed
    ones (the first ten of each, or a line that says there are none), then
    every provider and every mode of the entries. Each list is ranked: a key
    comes once, with the number of its occurrences, by non-increasing
    count, and keys of equal count in the order of their first occurrence. *)
Theorem report_sections_ranked (entries : list Row) :
  entries ≠ [] →
  ∃ queries reasons providers modes before after,
    build_summary entries
    = lines_text
        (before
         ++ [u "## Топ успешных запросов"] ++ top_lines queries
         ++ [[]; u "## Частые причины ошибок"] ++ top_lines reasons
         ++ [[]; u "## Распределение по provider"] ++ (item_line <$> providers)
         ++ [[]; u "## Распределение по mode"] ++ (item_line <$> modes)
         ++ [[]; u "## Рекомендация по обучению"] ++ after)
    ∧ ranks (filter (λ q, nonempty q = true)
                    (row_query <$> with_label (u "success") entries)) queries
    ∧ ranks (filter (λ t, nonempty t = true)
                    (row_error_type <$> with_label (u "failed") entries)) reasons
    ∧ ranks (row_provider <$> entries) providers
    ∧ ranks (row_mode <$> entries) modes.
Proof.
  intros Hne.
  eexists _, _, _, _, _, _.
  split; [|split; [|split; [|split]]]; [|apply most_common_ranks..].
  rewrite build_summary_lines by done. unfold summary_lines. cbv zeta.
  rewrite !top_lines_most_common. unfold lines_text. f_equal.
  change [?a; ?b; ?c; ?d; ?e; ?f; ?g; ?h]
    with ([a; b; c; d; e; f; g] ++ [h]).
  rewrite <- (app_assoc [_; _; _; _; _; _; _]).
  f_equal.
Qed.

(** ** The export *)

Lemma utf8_ascii (bs : list N) : Forall (λ b, (b < 128)%N) bs → utf8 bs = bs.
Proof.
  induction 1 as [|b bs Hb _ IH]; [done|]. cbn [utf8].
  apply N.ltb_lt in Hb. by rewrite Hb, IH.
Qed.

Lemma string_of_uint_digits (d : Decimal.uint) :
  Forall (λ c, (48 ≤ c ≤ 57)%N)
         (map N_of_ascii (list_ascii_of_string (NilEmpty.string_of_uint d))).
Proof.
  induction d; simpl; constructor; try done; cbv; split; discriminate.
Qed.

Lemma repr_int_chars (n : Z) : Forall (λ c, (45 ≤ c ≤ 57)%N) (repr_int n).
Proof.
  unfold repr_int, u.
  assert (Forall (λ c, (45 ≤ c ≤ 57)%N)
            (map N_of_ascii (list_ascii_of_string (NilEmpty.string_of_int (Z.to_int n)))))
    as Hchars.
  { destruct (Z.to_int n) as [d|d]; simpl.
    - eapply Forall_impl; [apply string_of_uint_digits|]. simpl. lia.
    - constructor; [cbv; split; discriminate|].
      eapply Forall_impl; [apply string_of_uint_digits|]. simpl. lia. }
  rewrite utf8_ascii; [done|]. eapply Forall_impl; [exact Hchars|]. simpl. lia.
Qed.

Lemma no_newline_app (a b : str) :
  forallb (λ c, negb (c =? NL)%N) (a ++ b)
  = forallb (λ c, negb (c =? NL)%N) a && forallb (λ c, negb (c =? NL)%N) b.
Proof. apply forallb_app. Qed.

Lemma repr_int_no_newline (n : Z) : forallb (λ c, negb (c =? NL)%N) (repr_int n) = true.
Proof.
  apply forallb_forall. intros c Hc%list_elem_of_In.
  pose proof (repr_int_chars n) as Hall. rewrite Forall_forall in Hall.
  specialize (Hall c Hc). apply negb_true_iff, N.eqb_neq. unfold NL. lia.
Qed.

Lemma json_escape_no_newline (c : N) :
  forallb (λ c, negb (c =? NL)%N) (json_escape c) = true.
Proof.
  unfold json_escape, hex_digit.
  repeat match goal with
         | |- context [if (?a =? ?b)%N then _ else _] => destruct (N.eqb_spec a b)
         | |- context [if (?a <? ?b)%N then _ else _] => destruct (N.ltb_spec a b)
         end; try reflexivity; cbn [forallb]; rewrite ?andb_true_r;
    repeat (apply andb_true_intro; split); try reflexivity;
    apply negb_true_iff, N.eqb_neq; unfold NL; try lia;
    clear; match goal with |- (_ + ?x)%N ≠ _ => generalize x end; intros; lia.
Qed.

Lemma json_str_no_newline (s : str) : forallb (λ c, negb (c =? NL)%N) (json_str s) = true.
Proof.
  unfold json_str. rewrite !no_newline_app. simpl. rewrite andb_true_r.
  induction s as [|c s IH]; [done|].
  change ((c :: s) ≫= json_escape) with (json_escape c ++ (s ≫= json_escape)).
  by rewrite no_newline_app, json_escape_no_newline, IH.
Qed.

Lemma join_no_newline (sep : str) (parts : list str) :
  forallb (λ c, negb (c =? NL)%N) sep = true →
  Forall (λ p, forallb (λ c, negb (c =? NL)%N) p = true) parts →
  forallb (λ c, negb (c =? NL)%N) (join sep parts) = true.
Proof.
  intros Hsep. induction 1 as [|p parts Hp Hparts IH]; [done|].
  destruct parts as [|p' parts]; [done|].
  change (join sep (p :: p' :: parts)) with (p ++ sep ++ join sep (p' :: parts)).
  by rewrite !no_newline_app, Hp, Hsep, IH.
Qed.

Lemma json_member_no_newline (key value : str) :
  forallb (λ c, negb (c =? NL)%N) value = true →
  forallb (λ c, negb (c =? NL)%N) (json_member key value) = true.
Proof.
  intros Hv. unfold json_member.
  by rewrite !no_newline_app, json_str_no_newline, Hv.
Qed.

Lemma json_dumps_no_newline (row : Row) :
  forallb (λ c, negb (c =? NL)%N) (json_dumps row) = true.
Proof.
  unfold json_dumps. rewrite !no_newline_app.
  apply andb_true_intro; split; [done|]. apply andb_true_intro; split; [|done].
  apply join_no_newline; [done|].
  repeat constructor; apply json_member_no_newline;
    try apply repr_int_no_newline; try apply json_str_no_newline.
  rewrite !no_newline_app. apply andb_true_intro; split; [done|].
  apply andb_true_intro; split; [|done].
  apply join_no_newline; [done|].
  apply Forall_fmap, Forall_forall. intros s _. apply json_str_no_newline.
Qed.

(** X17. The export has one element for each row, in the order of the rows,
    and each element is one line: the JSON text of a row holds no newline,
    whatever the strings of the row, and one newline ends it. *)
Theorem export_one_line_per_row (rows : list Row) :
  length (export_lines rows) = length rows
  ∧ (∀ i row, rows !! i = Some row →
              export_lines rows !! i = Some (json_dumps row ++ [NL]))
  ∧ (∀ row, forallb (λ c, negb (c =? NL)%N) (json_dumps row) = true)
  ∧ (∀ row, json_dumps row ≠ []).
Proof.
  unfold export_lines. split; [apply length_fmap|].
  split; [intros i row Hi; by rewrite list_lookup_fmap, Hi|].
  split; [apply json_dumps_no_newline|].
  intros row. unfold json_dumps. by destruct (u "{") eqn:Hbrace.
Qed.

(** ** Decoding a line written in the documented format *)

(** One step of the matcher for each kind of part of a pattern. *)
Lemma step_Star {R} (p : N → bool) (r : regex) (i : nat) (s : str) (cs : caps)
    (k : nat → str → caps → option R) (x : R) :
  rmatch r (i + length (prefix_by p s)) (lstrip_by p s) cs k = Some x →
  rmatch (Seq (Star p) r) i s cs k = Some x.
Proof. intros Hk. cbn [rmatch]. by apply star_longest. Qed.

Lemma step_Lit {R} (l : str) (r : regex) (i : nat) (s : str) (cs : caps)
    (k : nat → str → caps → option R) :
  rmatch (Seq (Lit l) r) i (l ++ s) cs k = rmatch r (i + length l) s cs k.
Proof.
  cbn [rmatch]. rewrite rmatch_Lit.
  assert (starts_with l (l ++ s) = true) as ->.
  { induction l as [|c l IH]; simpl; [done|]. by rewrite N.eqb_refl. }
  by rewrite drop_app_length.
Qed.

Lemma step_Group_Plus {R} (n : nat) (p : N → bool) (r : regex) (i : nat)
    (c : N) (t : str) (cs : caps) (k : nat → str → caps → option R) (x : R) :
  p c = true →
  rmatch r (S i + length (prefix_by p t)) (lstrip_by p t)
         ((n, c :: prefix_by p t) :: cs) k = Some x →
  rmatch (Seq (Group n (Plus p)) r) i (c :: t) cs k = Some x.
Proof.
  intros Hc Hk. cbn [rmatch Plus]. rewrite Hc. apply star_longest.
  replace (S i + length (prefix_by p t) - i)%nat
    with (S (length (prefix_by p t))) by lia.
  cbn [take]. by rewrite take_prefix_by.
Qed.

Lemma step_Group_Star {R} (n : nat) (p : N → bool) (r : regex) (i : nat)
    (s : str) (cs : caps) (k : nat → str → caps → option R) (x : R) :
  rmatch r (i + length (prefix_by p s)) (lstrip_by p s)
         ((n, prefix_by p s) :: cs) k = Some x →
  rmatch (Seq (Group n (Star p)) r) i s cs k = Some x.
Proof.
  intros Hk. cbn [rmatch]. apply star_longest.
  replace (i + length (prefix_by p s) - i)%nat with (length (prefix_by p s)) by lia.
  by rewrite take_prefix_by.
Qed.

Lemma strip_lstrip (s : str) : strip (lstrip_by is_space s) = strip s.
Proof.
  unfold strip, strip_by. f_equal. apply lstrip_by_id, lstrip_by_head.
Qed.

(** What [LINE_RE] captures on a line of the documented format. *)
Lemma line_re_formatted (ts status playlist message : str) :
  (∃ c t, ts = c :: t) → forallb is_decimal ts = true →
  (∃ c t, status = c :: t) → forallb cls_word status = true →
  forallb cls_not_bar playlist = true → forallb cls_dot message = true →
  re_match LINE_RE (format_line ts status playlist message)
  = Some [(4%nat, lstrip_by is_space message); (3%nat, playlist ++ u " ");
          (2%nat, status); (1%nat, ts)].
Proof.
  intros (c & t & ->) Hts (c' & t' & ->) Hstatus Hplaylist Hmessage.
  cbn [forallb] in Hts, Hstatus.
  apply andb_true_iff in Hts as [Hc Ht]. apply andb_true_iff in Hstatus as [Hc' Ht'].
  unfold re_match, LINE_RE, format_line.
  change (u " | ") with ([32; 124] ++ [32])%N.
  change (u " | playlist=") with ([32] ++ u "|" ++ [32] ++ u "playlist=")%N.
  change (u "|") with [124%N].
  rewrite <- !app_assoc. cbn [Seqs foldr].
  (* ^ *)
  change (rmatch (Seq Bol ?r) 0 ?s ?cs ?k) with (rmatch r 0 s cs k).
  (* leading blanks: none *)
  apply step_Star. cbn [app prefix_by lstrip_by].
  rewrite (decimal_not_space c Hc). cbn [length].
  (* the timestamp *)
  apply step_Group_Plus; [done|].
  destruct (prefix_by_stop is_decimal t 32%N
              ([124] ++ [32] ++ (c' :: t') ++ [32] ++ [124] ++ [32] ++ u "playlist="
               ++ playlist ++ [32; 124] ++ [32] ++ message)%N Ht eq_refl) as [Hp Hl].
  cbn [app] in Hp, Hl |- *. rewrite Hp, Hl. clear Hp Hl.
  (* blank, bar, blank *)
  apply step_Star. cbn [prefix_by lstrip_by]. change (is_space 32) with true.
  change (is_space 124) with false. cbv iota.
  change (124 :: 32 :: ?s)%N with ([124%N] ++ 32%N :: s). rewrite step_Lit.
  apply step_Star. cbn [prefix_by lstrip_by]. change (is_space 32) with true.
  rewrite (printable_not_space c' (cls_word_printable c' Hc')). cbv iota.
  (* the status *)
  apply step_Group_Plus; [done|].
  destruct (prefix_by_stop cls_word t' 32%N
              ([124] ++ [32] ++ u "playlist=" ++ playlist ++ [32; 124] ++ [32]
               ++ message)%N Ht' eq_refl) as [Hp Hl].
  cbn [app] in Hp, Hl |- *. rewrite Hp, Hl. clear Hp Hl.
  (* blank, bar, blank, playlist= *)
  apply step_Star. cbn [prefix_by lstrip_by]. change (is_space 32) with true.
  change (is_space 124) with false. cbv iota.
  change (124 :: 32 :: ?s)%N with ([124%N] ++ 32%N :: s). rewrite step_Lit.
  apply step_Star.
  set (tail := (playlist ++ _)%N).
  change (u "playlist=" ++ tail) with (112%N :: (u "laylist=" ++ tail)).
  cbn [prefix_by lstrip_by]. change (is_space 32) with true.
  change (is_space 112) with false. cbv iota.
  change (112%N :: (u "laylist=" ++ tail)) with (u "playlist=" ++ tail).
  rewrite step_Lit. subst tail.
  (* the playlist, up to the bar *)
  apply step_Group_Star.
  assert (forallb cls_not_bar (playlist ++ [32%N]) = true) as Hpl
    by by rewrite forallb_app, Hplaylist.
  change (playlist ++ 32 :: 124 :: 32 :: message)%N
    with (playlist ++ [32%N] ++ 124%N :: 32%N :: message).
  rewrite (app_assoc playlist).
  destruct (prefix_by_stop cls_not_bar (playlist ++ [32%N]) 124%N (32%N :: message)
              Hpl eq_refl) as [Hp Hl].
  rewrite Hp, Hl. clear Hp Hl.
  change (124 :: 32 :: message)%N with ([124%N] ++ 32%N :: message).
  rewrite step_Lit.
  (* blanks, then the message to the end *)
  apply step_Star. cbn [prefix_by lstrip_by]. change (is_space 32) with true.
  cbv iota.
  apply step_Group_Star.
  assert (forallb cls_dot (lstrip_by is_space message) = true) as Hrest.
  { clear -Hmessage. induction message as [|a m IH]; [done|].
    cbn [forallb] in Hmessage. apply andb_true_iff in Hmessage as [Ha Hm].
    cbn [lstrip_by]. destruct (is_space a); [by apply IH|].
    cbn [forallb]. by rewrite Ha, Hm. }
  destruct (prefix_by_all cls_dot _ Hrest) as [-> ->].
  reflexivity.
Qed.

(** X18. A line written in the format of the docstring is always an event:
    its timestamp is the number read by [int], its status the status token,
    its message the message without surrounding whitespace, and its id what
    [parse_attempt_id] finds in that message; the playlist is not kept. *)
Theorem decode_formatted_line
    (ts status playlist message : str) (n : Z) (id : option Z) :
  py_int ts = Ok n →
  status ≠ [] → forallb cls_word status = true →
  forallb cls_not_bar playlist = true → forallb cls_dot message = true →
  parse_attempt_id (strip message) = Ok id →
  decode_line (format_line ts status playlist message)
  = Ok (Some (mkEvent n status (strip message) id)).
Proof.
  intros Hts Hne Hstatus Hplaylist Hmessage Hid.
  destruct (py_int_Ok_digits ts n Hts) as [Hdec Hts'].
  assert (∃ c t, status = c :: t) as Hstatus' by (destruct status; [done|eauto]).
  unfold decode_line.
  rewrite (line_re_formatted ts status playlist message) by done.
  change (group 1 _) with ts. change (group 2 _) with status.
  change (group 4 _) with (lstrip_by is_space message).
  rewrite Hts. simpl. rewrite strip_lstrip, Hid. simpl.
  by rewrite (strip_printable cls_word status cls_word_printable Hstatus).
Qed.

(** ** The two outputs of [main] *)

Lemma build_summary_nonempty_differs (entries : list Row) :
  entries ≠ [] → build_summary entries ≠ build_summary [].
Proof.
  intros Hne Heq. rewrite build_summary_lines in Heq by done.
  unfold summary_lines in Heq. cbv zeta in Heq.
  cbn [app] in Heq. rewrite !bind_cons in Heq.
  rewrite <- !app_assoc in Heq.
  apply (f_equal (λ s, s !! 23%nat)) in Heq. revert Heq.
  match goal with
  | |- context [repr_int ?n ++ [NL] ++ ?rest] => generalize (repr_int n ++ [NL] ++ rest)
  end.
  clear. intros rest. vm_compute. discriminate.
Qed.

(** X19. The two files [main] writes are made of the same rows: the JSONL
    file has one line for each row, and the report either is the fixed
    report of no attempt, when there is no row, or differs from it and gives
    the number of JSONL lines as its total. *)
Theorem outputs_agree (lines jsonl : list str) (summary : str) :
  main_outputs lines = Ok (jsonl, summary) →
  ∃ rows,
    parse_lines lines = Ok rows
    ∧ length jsonl = length rows
    ∧ (rows = [] → jsonl = [] ∧ summary = build_summary [])
    ∧ (rows ≠ [] →
       summary ≠ build_summary []
       ∧ has_line (u "- Всего попыток: " ++ repr_int (Z.of_nat (length jsonl)))
                  summary).
Proof.
  unfold main_outputs. destruct (parse_lines lines) as [rows|] eqn:Hrows; [|done].
  simpl. intros [= <- <-]. exists rows. split; [done|].
  assert (length (export_lines rows) = length rows) as Hlen
    by (unfold export_lines; apply length_fmap).
  split; [done|]. split; [by intros ->|].
  intros Hne. split; [by apply build_summary_nonempty_differs|].
  rewrite Hlen, build_summary_lines by done.
  apply has_line_bind. unfold summary_lines. cbv zeta. do 2 right. left.
Qed.

End Further.

(** * The further properties on the log of the module docstring *)

Lemma rows_of_prefix_witness :
  parse_lines (H := ascii_lower) (docstring_log ++ open_start_line :: open_tail)
  = Ok [docstring_row]
  ∧ ∃ rows0 new,
      parse_lines (H := ascii_lower) docstring_log = Ok rows0
      ∧ [docstring_row] = rows0 ++ new.
Proof.
  split; [vm_compute; reflexivity|].
  apply (rows_of_prefix (H := ascii_lower) docstring_log (open_start_line :: open_tail)).
  vm_compute. reflexivity.
Defined.

Lemma rows_bounded_witness :
  parse_lines (H := ascii_lower) docstring_log_and_open = Ok [docstring_row]
  ∧ ∃ evs, decode_all docstring_log_and_open = Ok evs
           ∧ (length [docstring_row] ≤ length (filter (λ e, is_finish e = true) evs))%nat
           ∧ (length [docstring_row] ≤ length (filter (λ e, opens e = true) evs))%nat.
Proof.
  split; [vm_compute; reflexivity|].
  apply (rows_bounded (H := ascii_lower) docstring_log_and_open [docstring_row]).
  vm_compute. reflexivity.
Defined.

Lemma row_has_start_and_finish_witness :
  parse_lines (H := ascii_lower) docstring_log = Ok [docstring_row]
  ∧ docstring_row ∈ [docstring_row]
  ∧ ∃ before line_s between line_f after es ef,
      docstring_log = before ++ line_s :: between ++ line_f :: after
      ∧ decode_line line_s = Ok (Some es) ∧ is_start es = true
      ∧ ev_attempt es = Some (row_attempt docstring_row)
      ∧ ev_ts es = row_started_at docstring_row
      ∧ decode_line line_f = Ok (Some ef) ∧ is_finish ef = true
      ∧ ev_attempt ef = Some (row_attempt docstring_row)
      ∧ ev_ts ef = row_finished_at docstring_row.
Proof.
  split; [vm_compute; reflexivity|]. split; [left|].
  apply (row_has_start_and_finish (H := ascii_lower) docstring_log [docstring_row]).
  - vm_compute. reflexivity.
  - left.
Defined.

Lemma rows_of_id_alone_witness :
  parse_lines (H := ascii_lower) docstring_log_and_open = Ok [docstring_row]
  ∧ parse_lines (H := ascii_lower)
      (filter (λ line, line_has_id 6 line = true) docstring_log_and_open)
    = Ok (rows_of_id 6 [docstring_row]).
Proof.
  split; [vm_compute; reflexivity|].
  apply (rows_of_id_alone (H := ascii_lower) 6 docstring_log_and_open [docstring_row]).
  vm_compute. reflexivity.
Defined.

Lemma restart_line_starts : starts 6 restart_line.
Proof.
  exists (mkEvent 1771500542000 (u "scanner_start") (u "attempt=6, query=free tv")
                  (Some 6)).
  split; [vm_compute; reflexivity|]. split; vm_compute; reflexivity.
Defined.

Lemma start_line_begins_anew_witness :
  starts 6 restart_line
  ∧ parse_lines (H := ascii_lower) (restart_before ++ restart_line :: restart_after)
    = Ok [docstring_row; restart_row]
  ∧ parse_lines (H := ascii_lower) restart_before = Ok [docstring_row]
  ∧ parse_lines (H := ascii_lower) (restart_line :: restart_after) = Ok [restart_row]
  ∧ rows_of_id 6 [docstring_row; restart_row]
    = rows_of_id 6 [docstring_row] ++ rows_of_id 6 [restart_row].
Proof.
  split; [apply restart_line_starts|]. split; [vm_compute; reflexivity|].
  assert (parse_lines (H := ascii_lower) restart_before = Ok [docstring_row]) as Hb
    by (vm_compute; reflexivity).
  assert (parse_lines (H := ascii_lower) (restart_line :: restart_after)
          = Ok [restart_row]) as Ha by (vm_compute; reflexivity).
  split; [exact Hb|]. split; [exact Ha|].
  destruct (start_line_begins_anew (H := ascii_lower) 6 restart_before restart_after
              restart_line [docstring_row; restart_row])
    as (rows0 & rows1 & H0 & H1 & Heq).
  - apply restart_line_starts.
  - vm_compute. reflexivity.
  - rewrite Hb in H0. injection H0 as <-.
    rewrite Ha in H1. injection H1 as <-.
    exact Heq.
Defined.

Lemma row_provider_mode_preset_witness :
  parse_lines (H := ascii_lower) docstring_log = Ok [docstring_row]
  ∧ docstring_row ∈ [docstring_row]
  ∧ (row_provider docstring_row ≠ []
     ∧ forallb cls_upper (row_provider docstring_row) = true)
  ∧ (row_mode docstring_row ≠ [] ∧ forallb cls_upper (row_mode docstring_row) = true)
  ∧ (row_preset docstring_row ≠ []
     ∧ forallb cls_preset (row_preset docstring_row) = true).
Proof.
  split; [vm_compute; reflexivity|]. split; [left|].
  apply (row_provider_mode_preset (H := ascii_lower) docstring_log [docstring_row]).
  - vm_compute. reflexivity.
  - left.
Defined.

Lemma row_numbers_nonnegative_witness :
  parse_lines (H := ascii_lower) docstring_log = Ok [docstring_row]
  ∧ docstring_row ∈ [docstring_row]
  ∧ 0 ≤ row_attempt docstring_row ∧ 0 ≤ row_started_at docstring_row
  ∧ 0 ≤ row_finished_at docstring_row ∧ 0 ≤ row_found docstring_row.
Proof.
  split; [vm_compute; reflexivity|]. split; [left|].
  apply (row_numbers_nonnegative (H := ascii_lower) docstring_log [docstring_row]).
  - vm_compute. reflexivity.
  - left.
Defined.

Lemma row_label_from_fields_witness :
  parse_lines (H := ascii_lower) docstring_log = Ok [docstring_row]
  ∧ docstring_row ∈ [docstring_row]
  ∧ row_label docstring_row ∈ [u "success"; u "failed"; u "empty"]
  ∧ (row_label docstring_row = u "success" ↔ 0 < row_found docstring_row)
  ∧ (row_label docstring_row = u "failed"
     ↔ row_found docstring_row = 0 ∧ row_error docstring_row ≠ [])
  ∧ (row_label docstring_row = u "empty"
     ↔ row_found docstring_row = 0 ∧ row_error docstring_row = [])
  ∧ (row_error_type docstring_row = []
     ∨ row_error_type docstring_row ∈ error_categories)
  ∧ (row_error_type docstring_row = [] ↔ row_error docstring_row = []).
Proof.
  split; [vm_compute; reflexivity|]. split; [left|].
  apply (row_label_from_fields (H := ascii_lower) docstring_log [docstring_row]).
  - vm_compute. reflexivity.
  - left.
Defined.

Lemma row_statuses_complete_witness :
  closed_attempt_of docstring_log docstring_attempt
  ∧ ∃ rows,
      parse_lines (H := ascii_lower) docstring_log = Ok rows
      ∧ row_of (H := ascii_lower) docstring_attempt ∈ rows
      ∧ row_statuses (row_of (H := ascii_lower) docstring_attempt)
        = u "scanner_start" :: (ev_status <$> a_body docstring_attempt)
          ++ [u "scanner_finish"]
      ∧ length (row_statuses (row_of (H := ascii_lower) docstring_attempt))
        = (2 + length (a_body docstring_attempt))%nat
      ∧ (row_error (row_of (H := ascii_lower) docstring_attempt) ≠ [] ↔
         ∃ status, status ∈ row_statuses (row_of (H := ascii_lower) docstring_attempt)
                   ∧ status ∈ error_statuses).
Proof.
  split; [apply docstring_log_attempt|].
  apply (row_statuses_complete (H := ascii_lower) docstring_log docstring_attempt).
  apply docstring_log_attempt.
Defined.

Lemma event_without_id_ignored_witness :
  decode_line no_id_line = Ok (Some no_id_event)
  ∧ contains (u "attempt=") (ev_msg no_id_event) = false
  ∧ ev_attempt no_id_event = None
  ∧ parse_lines (H := ascii_lower) (docstring_log ++ no_id_line :: open_tail)
    = parse_lines (H := ascii_lower) (docstring_log ++ open_tail).
Proof.
  split; [vm_compute; reflexivity|]. split; [vm_compute; reflexivity|].
  apply (event_without_id_ignored (H := ascii_lower) docstring_log open_tail
           no_id_line no_id_event).
  - vm_compute. reflexivity.
  - vm_compute. reflexivity.
Defined.

Lemma docstring_log_no_start_7 : Forall (λ l, ¬ starts 7 l) docstring_log.
Proof.
  repeat constructor; intros (e & He & Hs & Hid); vm_compute in He;
    injection He as <-; vm_compute in Hid; discriminate Hid.
Defined.

Lemma stray_event_ignored_witness :
  decode_line stray_line = Ok (Some open_step)
  ∧ ev_attempt open_step = Some 7 ∧ is_start open_step = false
  ∧ Forall (λ l, ¬ starts 7 l) docstring_log
  ∧ parse_lines (H := ascii_lower) (docstring_log ++ stray_line :: docstring_log)
    = parse_lines (H := ascii_lower) (docstring_log ++ docstring_log).
Proof.
  split; [vm_compute; reflexivity|]. split; [reflexivity|].
  split; [vm_compute; reflexivity|]. split; [apply docstring_log_no_start_7|].
  apply (stray_event_ignored (H := ascii_lower) 7 docstring_log docstring_log
           stray_line open_step).
  - vm_compute. reflexivity.
  - reflexivity.
  - vm_compute. reflexivity.
  - apply docstring_log_no_start_7.
Defined.

Lemma summary_counts_add_up_witness :
  parse_lines (H := ascii_lower) (docstring_log ++ counted_log)
  = Ok [docstring_row; counted_row]
  ∧ [docstring_row; counted_row] ≠ []
  ∧ (∃ rest,
       build_summary [docstring_row; counted_row]
       = lines_text
           ([u "# AI training summary";
             [];
             u "- Всего попыток: " ++ repr_int 2;
             u "- Успешных (found>0): " ++ repr_int 1;
             u "- Пустых (found=0, без явной ошибки): " ++ repr_int 0;
             u "- Ошибок: " ++ repr_int 1]
            ++ rest))
  ∧ (1 + 0 + 1 = 2)%nat.
Proof.
  split; [vm_compute; reflexivity|]. split; [discriminate|].
  apply (summary_counts_add_up (H := ascii_lower) (docstring_log ++ counted_log)
           [docstring_row; counted_row]).
  - vm_compute. reflexivity.
  - discriminate.
Defined.

Lemma report_sections_ranked_witness :
  [docstring_row; counted_row] ≠ []
  ∧ ∃ queries reasons providers modes before after,
      build_summary [docstring_row; counted_row]
      = lines_text
          (before
           ++ [u "## Топ успешных запросов"] ++ top_lines queries
           ++ [[]; u "## Частые причины ошибок"] ++ top_lines reasons
           ++ [[]; u "## Распределение по provider"] ++ (item_line <$> providers)
           ++ [[]; u "## Распределение по mode"] ++ (item_line <$> modes)
           ++ [[]; u "## Рекомендация по обучению"] ++ after)
      ∧ ranks (filter (λ q, nonempty q = true)
                      (row_query <$> with_label (u "success")
                                       [docstring_row; counted_row])) queries
      ∧ ranks (filter (λ t, nonempty t = true)
                      (row_error_type <$> with_label (u "failed")
                                            [docstring_row; counted_row])) reasons
      ∧ ranks (row_provider <$> [docstring_row; counted_row]) providers
      ∧ ranks (row_mode <$> [docstring_row; counted_row]) modes.
Proof.
  split; [discriminate|].
  apply (report_sections_ranked [docstring_row; counted_row]). discriminate.
Defined.

Lemma report_counts_every_entry_witness :
  [docstring_row] ≠ [] ∧ docstring_row ∈ [docstring_row]
  ∧ has_line (u "- Всего попыток: " ++ repr_int (Z.of_nat (length [docstring_row])))
             (build_summary [docstring_row])
  ∧ has_line
      (item_line (row_provider docstring_row,
                  length (filter (λ r, row_provider r = row_provider docstring_row)
                                 [docstring_row])))
      (build_summary [docstring_row])
  ∧ has_line
      (item_line (row_mode docstring_row,
                  length (filter (λ r, row_mode r = row_mode docstring_row)
                                 [docstring_row])))
      (build_summary [docstring_row]).
Proof.
  split; [discriminate|]. split; [left|].
  apply (report_counts_every_entry [docstring_row] docstring_row).
  - discriminate.
  - left.
Defined.

Lemma decode_formatted_line_witness :
  py_int (u "1771500505471") = Ok 1771500505471
  ∧ u "scanner_start" ≠ [] ∧ forallb cls_word (u "scanner_start") = true
  ∧ forallb cls_not_bar (u "-") = true
  ∧ forallb cls_dot (ev_msg docstring_start) = true
  ∧ parse_attempt_id (strip (ev_msg docstring_start)) = Ok (Some 6)
  ∧ decode_line (format_line (u "1771500505471") (u "scanner_start") (u "-")
                             (ev_msg docstring_start))
    = Ok (Some (mkEvent 1771500505471 (u "scanner_start")
                        (strip (ev_msg docstring_start)) (Some 6))).
Proof.
  split; [vm_compute; reflexivity|]. split; [vm_compute; discriminate|].
  split; [vm_compute; reflexivity|]. split; [vm_compute; reflexivity|].
  split; [vm_compute; reflexivity|]. split; [vm_compute; reflexivity|].
  apply (decode_formatted_line (u "1771500505471") (u "scanner_start") (u "-")
           (ev_msg docstring_start) 1771500505471 (Some 6)).
  - vm_compute. reflexivity.
  - vm_compute. discriminate.
  - vm_compute. reflexivity.
  - vm_compute. reflexivity.
  - vm_compute. reflexivity.
  - vm_compute. reflexivity.
Defined.

Lemma outputs_agree_witness :
  main_outputs (H := ascii_lower) docstring_log
  = Ok (export_lines [docstring_row], build_summary [docstring_row])
  ∧ ∃ rows,
      parse_lines (H := ascii_lower) docstring_log = Ok rows
      ∧ length (export_lines [docstring_row]) = length rows
      ∧ (rows = [] →
         export_lines [docstring_row] = []
         ∧ build_summary [docstring_row] = build_summary [])
      ∧ (rows ≠ [] →
         build_summary [docstring_row] ≠ build_summary []
         ∧ has_line (u "- Всего попыток: "
                     ++ repr_int (Z.of_nat (length (export_lines [docstring_row]))))
                    (build_summary [docstring_row])).
Proof.
  split; [vm_compute; reflexivity|].
  apply (outputs_agree (H := ascii_lower) docstring_log).
  vm_compute. reflexivity.
Defined.
